(** * vaerstasjon: the ingestion pipeline of [build_weather_page.py]

    A shallow embedding of the station-CSV ingestion and reconciliation
    pipeline, and the properties its specification states about it.

    Conventions of the embedding.
    - A pandas [float] cell is an [option Qc]: [None] is NaN/NA, [Some q]
      an exact rational.  Arithmetic is exact; rounding of binary floats
      is outside the model.
    - A timestamp ([datetime64[ns]]) is a [Z]: nanoseconds since the epoch.
      Rows whose timestamp failed to parse are dropped by
      [parse_station_csv] before anything below sees them, so no row
      carries a missing [Time].
    - A DataFrame is a list of row records in row order, together with
      presence flags for the columns whose absence the code tests.
    - [sort_values] is pandas' default sort, a quicksort that is not
      stable: its result is ascending and holds the rows of the frame, and
      the order of rows with equal keys is left open.
    - Text is the UTF-8 bytes of a Python [str].  [str.lower], [str.upper]
      and [str.strip] know all of Unicode and [pd.to_datetime] reads a
      column as a whole; they are taken from the [Runtime] with the laws
      the development relies on. *)

From Stdlib Require Import QArith Qcanon Ascii String.
From stdpp Require Import base tactics option list numbers strings gmap sorting.

Local Open Scope Z_scope.

(** ** Numbers *)

Abbreviation Timestamp := Z.
Abbreviation cell := (option Qc).

(** The literal [0.90] of the counter heuristic. *)
Definition ratio_threshold : Qc := Q2Qc (9 # 10).

Definition NS_PER_SECOND : Z := 1000000000.
Definition NS_PER_MINUTE : Z := 60 * NS_PER_SECOND.

(** [x >= y] and [x < y] on floats, as booleans. *)
Definition Qc_geb (x y : Qc) : bool := bool_decide (y ≤ x)%Qc.
Definition Qc_ltb (x y : Qc) : bool := bool_decide (x < y)%Qc.
Definition Qc_gtb (x y : Qc) : bool := bool_decide (y < x)%Qc.

(** ** Series operations used by the pipeline

    A Series of floats is a [list cell]; a boolean Series a [list bool]. *)

Module Series.

(** [s.notna().any()] *)
Definition notna_any (s : list cell) : bool := existsb (λ c, bool_decide (is_Some c)) s.

(** [s.fillna(v)] *)
Definition fillna (v : Qc) (s : list cell) : list cell :=
  map (λ c, match c with Some x => Some x | None => Some v end) s.

(** [s.diff()]: the first entry is missing, each later entry is the
    difference with the previous one, missing when either operand is. *)
Fixpoint diff_from (prev : cell) (s : list cell) : list cell :=
  match s with
  | [] => []
  | c :: s' =>
      match c, prev with
      | Some x, Some p => Some (x - p)%Qc
      | _, _ => None
      end :: diff_from c s'
  end.

Definition diff (s : list cell) : list cell :=
  match s with
  | [] => []
  | c :: s' => None :: diff_from c s'
  end.

(** [s >= v] elementwise; a comparison with NaN is False. *)
Definition ge (v : Qc) (s : list cell) : list bool :=
  map (λ c, match c with Some x => Qc_geb x v | None => false end) s.

(** [b.mean()] of a boolean Series: the fraction of True entries. *)
Definition count_true (b : list bool) : nat := length (filter (λ x, x = true) b).
Definition mean (b : list bool) : Qc :=
  (Qc_of_Z (Z.of_nat (count_true b)) / Qc_of_Z (Z.of_nat (length b)))%Qc.

(** [s.where(s >= 0, 0)]: entries failing the test, NaN among them,
    become [0]. *)
Definition where_ge0 (s : list cell) : list cell :=
  map (λ c, match c with
            | Some x => if Qc_geb x 0 then Some x else Some 0%Qc
            | None => Some 0%Qc
            end) s.

(** [a * b] elementwise, NaN-propagating. *)
Fixpoint mul (a b : list cell) : list cell :=
  match a, b with
  | x :: a', y :: b' =>
      match x, y with
      | Some u, Some v => Some (u * v)%Qc
      | _, _ => None
      end :: mul a' b'
  | _, _ => []
  end.

(** [s[s < 0] = 0]: NaN fails the test and stays. *)
Definition clamp_negative (s : list cell) : list cell :=
  map (λ c, match c with
            | Some x => if Qc_ltb x 0 then Some 0%Qc else Some x
            | None => None
            end) s.

(** [t.diff().dt.total_seconds().div(3600.0)] on a column of timestamps:
    hours elapsed since the previous row, missing on the first row. *)
Definition hours_of_ns (d : Z) : Qc :=
  (Qc_of_Z d / Qc_of_Z NS_PER_SECOND / Qc_of_Z 3600)%Qc.

Fixpoint time_diff_from (prev : Timestamp) (ts : list Timestamp) : list cell :=
  match ts with
  | [] => []
  | t :: ts' => Some (hours_of_ns (t - prev)) :: time_diff_from t ts'
  end.

Definition time_diff_hours (ts : list Timestamp) : list cell :=
  match ts with
  | [] => []
  | t :: ts' => None :: time_diff_from t ts'
  end.

(** [s.sum()] skipping NaN. *)
Definition sum (s : list cell) : Qc :=
  foldr (λ c acc, match c with Some x => (x + acc)%Qc | None => acc end) 0%Qc s.

End Series.

(** ** Exceptions *)

Inductive Error :=
  | UnreadableFile        (* every encoding of [POSSIBLE_ENCODINGS] failed *)
  | MissingTimeColumn     (* the [ValueError] of [parse_station_csv] *)
  | InvalidSnowSchema     (* the [ValueError] of [ingest_snow_file] *)
  | KeyError.             (* pandas' [.loc] with a label that is not in the index *)

Inductive result (A : Type) :=
  | Ok (a : A)
  | Raise (e : Error).
Arguments Ok {A} a.
Arguments Raise {A} e.

Definition bind {A B} (m : result A) (k : A → result B) : result B :=
  match m with
  | Ok a => k a
  | Raise e => Raise e
  end.

Notation "'let*' x ':=' m 'in' k" := (bind m (λ x, k))
  (at level 10, x pattern, m at level 100, k at level 200).

Fixpoint map_result {A B} (f : A → result B) (l : list A) : result (list B) :=
  match l with
  | [] => Ok []
  | x :: l' =>
      let* y := f x in
      let* ys := map_result f l' in
      Ok (y :: ys)
  end.

(** ** Sorting *)

(** Python's [sorted] and [list.sort]: ascending, and items that compare
    equal stay in their input order. *)
Section sorting.
Context {A : Type} (le : A → A → bool).

Fixpoint insert_sorted (x : A) (l : list A) : list A :=
  match l with
  | [] => [x]
  | y :: l' => if le x y then x :: l else y :: insert_sorted x l'
  end.

Definition sort_by (l : list A) : list A := foldr insert_sorted [] l.
End sorting.

(** ** Text *)

Local Open Scope string_scope.

Definition lower_char (c : ascii) : ascii :=
  let n := N_of_ascii c in
  if ((65 <=? n) && (n <=? 90))%N then ascii_of_N (n + 32) else c.

Definition upper_char (c : ascii) : ascii :=
  let n := N_of_ascii c in
  if ((97 <=? n) && (n <=? 122))%N then ascii_of_N (n - 32) else c.

(** [str.lower] and [str.upper] on text without a byte above 127. *)
Fixpoint ascii_lower (s : string) : string :=
  match s with
  | EmptyString => EmptyString
  | String c s' => String (lower_char c) (ascii_lower s')
  end.

Fixpoint ascii_upper (s : string) : string :=
  match s with
  | EmptyString => EmptyString
  | String c s' => String (upper_char c) (ascii_upper s')
  end.

Fixpoint is_ascii (s : string) : bool :=
  match s with
  | EmptyString => true
  | String c s' => (N_of_ascii c <? 128)%N && is_ascii s'
  end.

(** The blanks of ASCII ([str.isspace]): the space, tab to carriage
    return, and the four separators [0x1c] to [0x1f]. *)
Definition is_space (c : ascii) : bool :=
  let n := N_of_ascii c in
  ((n =? 32) || ((9 <=? n) && (n <=? 13)) || ((28 <=? n) && (n <=? 31)))%N.

Fixpoint lstrip (s : string) : string :=
  match s with
  | EmptyString => EmptyString
  | String c s' => if is_space c then lstrip s' else s
  end.

Fixpoint string_rev_onto (s acc : string) : string :=
  match s with
  | EmptyString => acc
  | String c s' => string_rev_onto s' (String c acc)
  end.

(** [str.strip] on text without a byte above 127. *)
Definition ascii_strip (s : string) : string :=
  string_rev_onto (lstrip (string_rev_onto (lstrip s) "")) "".

Local Close Scope string_scope.

(** ** What the program takes from pandas and from Python

    - [sort_values key df] is [df.sort_values(col)] with the default
      [kind="quicksort"]: ascending in the key, the same rows; which of two
      rows with equal keys comes first is not fixed.
    - [lower], [upper] and [strip] are [str.lower], [str.upper] and
      [str.strip]; on text without a byte above 127, [lower] is
      [ascii_lower].
    - [to_datetime col] is [pd.to_datetime(col, errors="coerce")] on the
      text of a whole column: one timestamp or NaT for every cell, the
      format being chosen for the column.
    - [to_numeric s] is [pd.to_numeric(_, errors="coerce")] on the text of
      one cell. *)
Class Runtime := {
  sort_values : ∀ A : Type, (A → Z) → list A → list A;
  sort_values_perm : ∀ (A : Type) (key : A → Z) (l : list A), sort_values A key l ≡ₚ l;
  sort_values_sorted : ∀ (A : Type) (key : A → Z) (l : list A),
    Sorted (λ a b, key a ≤ key b) (sort_values A key l);
  lower : string → string;
  upper : string → string;
  strip : string → string;
  lower_ascii : ∀ s : string, is_ascii s = true → lower s = ascii_lower s;
  to_datetime : list string → list (option Timestamp);
  to_datetime_length : ∀ col : list string, length (to_datetime col) = length col;
  to_numeric : string → cell;
}.
Arguments sort_values {_ A} key l.
Arguments sort_values_perm {_ A} key l.
Arguments sort_values_sorted {_ A} key l.

(** ** Two runtimes

    Both read text as ASCII and read the text of a cell as decimal digits,
    minutes since the epoch for a timestamp and a whole number for a
    value.  The sort of [reference] keeps rows with equal keys in their
    input order; the sort of [ties_reversed] reverses them. *)
Fixpoint digits_from (acc : Z) (s : string) : option Z :=
  match s with
  | EmptyString => Some acc
  | String c s' =>
      let n := N_of_ascii c in
      if ((48 <=? n) && (n <=? 57))%N then digits_from (10 * acc + Z.of_N (n - 48)) s'
      else None
  end.

Definition demo_number (s : string) : option Z :=
  match s with
  | EmptyString => None
  | _ => digits_from 0 s
  end.

Definition demo_to_datetime (s : string) : option Timestamp :=
  (λ m, m * NS_PER_MINUTE) <$> demo_number s.

Definition demo_to_numeric (s : string) : cell := Qc_of_Z <$> demo_number s.

(** Sorting by insertion: ascending, rows with equal keys in input order. *)
Definition stable_sort {A} (key : A → Z) (l : list A) : list A :=
  sort_by (λ x y, bool_decide (key x ≤ key y)) l.

Definition reference : Runtime.
Proof.
  refine {| sort_values := λ A key l, stable_sort key l;
            lower := ascii_lower;
            upper := ascii_upper;
            strip := ascii_strip;
            to_datetime := map demo_to_datetime;
            to_numeric := demo_to_numeric |}.
  - intros A key l. unfold stable_sort, sort_by.
    induction l as [|x l IH]; [done|]. simpl.
    etrans; [|by apply Permutation_skip, IH].
    generalize (foldr (insert_sorted (λ x y, bool_decide (key x ≤ key y))) [] l).
    clear. intros l. induction l as [|y l IH]; [done|]. simpl.
    case_bool_decide; [done|]. rewrite IH. apply Permutation_swap.
  - intros A key l. unfold stable_sort, sort_by.
    induction l as [|x l IH]; [constructor|]. simpl. revert IH.
    generalize (foldr (insert_sorted (λ x y, bool_decide (key x ≤ key y))) [] l).
    clear. intros l. induction 1 as [|y l Hl IH Hhd]; simpl; [by repeat constructor|].
    case_bool_decide as Hxy; [by repeat constructor|].
    constructor; [done|].
    destruct Hhd as [|z l Hyz]; simpl.
    + repeat constructor. lia.
    + case_bool_decide; constructor; lia.
  - done.
  - intros col. apply length_map.
Defined.

Definition ties_reversed : Runtime :=
  {| sort_values := λ A key l, stable_sort key (reverse l);
     sort_values_perm := λ A key l,
       transitivity (sort_values_perm (Runtime := reference) key (reverse l))
                    (reverse_Permutation l);
     sort_values_sorted := λ A key l,
       sort_values_sorted (Runtime := reference) key (reverse l);
     lower := ascii_lower;
     upper := ascii_upper;
     strip := ascii_strip;
     lower_ascii := λ s _, eq_refl;
     to_datetime := map demo_to_datetime;
     to_datetime_length := λ col, length_map demo_to_datetime col;
     to_numeric := demo_to_numeric |}.

(** * The program *)

Section program.
Context {R : Runtime}.

(** ** Frame operations *)

Section frame_ops.
Context {A : Type} (key : A → Z).

(** [df.drop_duplicates(subset=[col])], i.e. [keep="first"]. *)
Fixpoint drop_duplicates_first_aux (seen : list Z) (l : list A) : list A :=
  match l with
  | [] => []
  | x :: l' =>
      if bool_decide (key x ∈ seen) then drop_duplicates_first_aux seen l'
      else x :: drop_duplicates_first_aux (key x :: seen) l'
  end.

Definition drop_duplicates_first (l : list A) : list A := drop_duplicates_first_aux [] l.

(** [df.drop_duplicates(subset=[col], keep="last")] *)
Fixpoint drop_duplicates_last (l : list A) : list A :=
  match l with
  | [] => []
  | x :: l' =>
      if bool_decide (key x ∈ map key l') then drop_duplicates_last l'
      else x :: drop_duplicates_last l'
  end.

(** The rows of one group of [df.groupby(col)], in frame order. *)
Definition group (k : Z) (l : list A) : list A :=
  filter (λ x, key x = k) l.

End frame_ops.

(** The group keys of [df.groupby(col)]: distinct, ascending. *)
Definition group_keys {A} (key : A → Z) (l : list A) : list Z :=
  drop_duplicates_first id (sort_values id (map key l)).

(** ** The rain normalizer *)

Record RainRow := {
  rain_Time : Timestamp;
  rain_rate_mmh : cell;
  rain_raw : cell;
}.

(** A rain frame: which of the two optional columns exist, and the rows.
    A cell of an absent column is never read. *)
Record RainFrame := {
  has_rain_rate_mmh : bool;
  has_rain_raw : bool;
  rain_rows : list RainRow;
}.

Definition rain_to_interval_mm (rain_df : RainFrame) : list cell :=
  let rows := sort_values rain_Time (rain_rows rain_df) in
  let rate_col := map rain_rate_mmh rows in
  let raw_col := map rain_raw rows in
  if has_rain_rate_mmh rain_df && Series.notna_any rate_col then
    let rate := Series.fillna 0%Qc rate_col in
    let dt := Series.fillna 0%Qc (Series.time_diff_hours (map rain_Time rows)) in
    let mm := Series.mul rate dt in
    Series.clamp_negative mm
  else if has_rain_raw rain_df && Series.notna_any raw_col then
    let raw := raw_col in
    let dif := Series.diff raw in
    let nondec_ratio := Series.mean (Series.ge 0%Qc (Series.fillna 0%Qc dif)) in
    if Qc_gtb nondec_ratio ratio_threshold then
      Series.fillna 0%Qc (Series.where_ge0 dif)
    else raw
  else
    replicate (length rows) None.


(** ** Header names *)

Local Open Scope string_scope.

(** [kw in s] on strings. *)
Fixpoint contains (kw s : string) : bool :=
  String.prefix kw s ||
  match s with
  | EmptyString => false
  | String _ s' => contains kw s'
  end.

Fixpoint filter_chars (p : ascii → bool) (s : string) : string :=
  match s with
  | EmptyString => EmptyString
  | String c s' => if p c then String c (filter_chars p s') else filter_chars p s'
  end.

Fixpoint replace_char (a b : ascii) (s : string) : string :=
  match s with
  | EmptyString => EmptyString
  | String c s' => String (if Ascii.eqb c a then b else c) (replace_char a b s')
  end.

(** [find_col]: the first column, in header order, whose lower-cased name
    contains one of the keywords. *)
Definition find_col (cols : list string) (keywords : list string) : option string :=
  List.find (λ c, existsb (λ kw, contains kw (lower c)) keywords) cols.

(** ** Parsing one station export *)

(** What [read_csv_any_encoding] returns: the header and the rows, every
    cell as text. *)
Record RawFrame := {
  columns : list string;
  records : list (list string);
}.

Record CsvFile := {
  file_name : string;
  file_frame : option RawFrame;    (* [None]: no encoding could read it *)
}.

Definition read_csv_any_encoding (f : CsvFile) : result RawFrame :=
  match file_frame f with
  | Some df => Ok df
  | None => Raise UnreadableFile
  end.

(** [df[c]] at one row: the cell under header [c]. *)
Fixpoint cell_at (cols : list string) (rec : list string) (c : string) : string :=
  match cols, rec with
  | h :: cols', v :: rec' => if String.eqb h c then v else cell_at cols' rec' c
  | _, _ => ""
  end.

(** Where the timestamps of a file come from (lines 604-613). *)
Inductive TimeSource :=
  | TimeColumn                               (* the column named [Time] *)
  | DateAndTime (date_col time_col : string). (* the two columns, joined by a space *)

Definition locate_time (cols : list string) : result TimeSource :=
  if bool_decide ("Time" ∉ cols) then
    match find_col cols ["date"], find_col cols ["time"] with
    | Some date_col, Some time_col =>
        if bool_decide (date_col ≠ "") && bool_decide (time_col ≠ "")
        then Ok (DateAndTime date_col time_col)
        else Raise MissingTimeColumn
    | _, _ => Raise MissingTimeColumn
    end
  else Ok TimeColumn.

Record MetRow := {
  met_Time : Timestamp;
  met_temperature_c : cell;
  met_humidity_rh : cell;
  met_windspeed_kmh : cell;
  met_windheading : cell;
}.

(** A meteorological frame: which optional columns exist, and the rows. *)
Record MetFrame := {
  has_temperature_c : bool;
  has_humidity_rh : bool;
  has_windspeed_kmh : bool;
  has_windheading : bool;
  met_rows : list MetRow;
}.

Inductive Parsed :=
  | ParsedMet (df : MetFrame)
  | ParsedRain (df : RainFrame).

Definition compass : list (string * Qc) :=
  [("N", Q2Qc 0); ("NNE", Q2Qc (45 # 2)); ("NE", Q2Qc 45); ("ENE", Q2Qc (135 # 2));
   ("E", Q2Qc 90); ("ESE", Q2Qc (225 # 2)); ("SE", Q2Qc 135); ("SSE", Q2Qc (315 # 2));
   ("S", Q2Qc 180); ("SSW", Q2Qc (405 # 2)); ("SW", Q2Qc 225); ("WSW", Q2Qc (495 # 2));
   ("W", Q2Qc 270); ("WNW", Q2Qc (585 # 2)); ("NW", Q2Qc 315); ("NNW", Q2Qc (675 # 2))].

Definition compass_lookup (key : string) : cell :=
  snd <$> List.find (λ p, String.eqb (fst p) key) compass.

(** [[0-9.+-]] *)
Definition is_numeric_char (c : ascii) : bool :=
  let n := N_of_ascii c in
  (((48 <=? n) && (n <=? 57)) || (n =? 46) || (n =? 43) || (n =? 45))%N.

Definition opt_col (cols : list string) (rec : list string) (c : option string) : cell :=
  match c with
  | Some c => to_numeric (cell_at cols rec c)
  | None => None
  end.

(** The text [pd.to_datetime] is given, one entry per record (lines 609
    and 613). *)
Definition time_texts (src : TimeSource) (df : RawFrame) : list string :=
  map (λ rec,
         match src with
         | TimeColumn => cell_at (columns df) rec "Time"
         | DateAndTime d t => cell_at (columns df) rec d ++ " " ++ cell_at (columns df) rec t
         end) (records df).

(** [dropna(subset=["Time"])]: the rows whose timestamp could be read,
    each with its timestamp. *)
Definition dropna_Time {A} (times : list (option Timestamp)) (rows : list A) :
    list (Timestamp * A) :=
  omap (λ p, (λ t, (t, p.2)) <$> p.1) (zip times rows).

Definition parse_station_csv (f : CsvFile) : result Parsed :=
  let* df := read_csv_any_encoding f in
  let* src := locate_time (columns df) in
  let times := to_datetime (time_texts src df) in
  let cols :=
    match src with
    | TimeColumn => columns df
    | DateAndTime _ _ => (columns df ++ ["Time"])%list
    end in
  (* [dropna(subset=["Time"])], then [sort_values("Time")] *)
  let timed := dropna_Time times (records df) in
  let rows := sort_values fst timed in
  let col rec c := opt_col (columns df) rec c in
  let rain_rate_col := find_col cols ["rain rate"; "mm/h"; "mm per h"; "mm pr h"] in
  let rain_col := find_col cols ["rain"; "precip"; "nedbør"; "nedbor"] in
  let temp_col := find_col cols ["temperature"; "temp"] in
  let hum_col := find_col cols ["humidity"; "rh%"; "rh"] in
  let wind_col := find_col cols ["windspeed"; "wind speed"; "km/h"; "kmh"] in
  let heading_col :=
    find_col cols ["windheading"; "wind heading"; "winddir"; "direction"; "retning"] in
  if bool_decide (is_Some rain_col) || bool_decide (is_Some rain_rate_col) then
    Ok (ParsedRain
          {| has_rain_rate_mmh := bool_decide (is_Some rain_rate_col);
             has_rain_raw := bool_decide (is_Some rain_col);
             rain_rows :=
               map (λ '(t, rec), {| rain_Time := t;
                                    rain_rate_mmh := col rec rain_rate_col;
                                    rain_raw := col rec rain_col |}) rows |})
  else
    let heading_text rec :=
      match heading_col with
      | Some c => strip (cell_at (columns df) rec c)
      | None => ""
      end in
    let nums := map (λ '(_, rec), to_numeric (filter_chars is_numeric_char (heading_text rec))) rows in
    let numeric_heading := Series.notna_any nums in
    let heading rec :=
      match heading_col with
      | None => None
      | Some _ =>
          if numeric_heading
          then to_numeric (filter_chars is_numeric_char (heading_text rec))
          else compass_lookup (filter_chars (λ c, negb (Ascii.eqb c " ")) (upper (heading_text rec)))
      end in
    Ok (ParsedMet
          {| has_temperature_c := bool_decide (is_Some temp_col);
             has_humidity_rh := bool_decide (is_Some hum_col);
             has_windspeed_kmh := bool_decide (is_Some wind_col);
             has_windheading := bool_decide (is_Some heading_col);
             met_rows :=
               map (λ '(t, rec), {| met_Time := t;
                                    met_temperature_c := col rec temp_col;
                                    met_humidity_rh := col rec hum_col;
                                    met_windspeed_kmh := col rec wind_col;
                                    met_windheading := heading rec |}) rows |}).

Local Close Scope string_scope.
Local Open Scope Z_scope.

(** ** Minute alignment *)

(** [dt.floor("min")] *)
Definition floor_min (t : Timestamp) : Timestamp := t - t mod NS_PER_MINUTE.

Definition met_Time_key (r : MetRow) : Timestamp := floor_min (met_Time r).

(** [Series.idxmax] within one group: the first row that attains the
    largest non-missing value; [None] (a NaN label) when every value of the
    group is missing.  Index labels are unique, so the row stands for its
    label. *)
Fixpoint idxmax_from {A} (val : A → cell) (best : option A) (l : list A) : option A :=
  match l with
  | [] => best
  | x :: l' =>
      match val x with
      | None => idxmax_from val best l'
      | Some v =>
          match best ≫= val with
          | Some b => if Qc_gtb v b then idxmax_from val (Some x) l' else idxmax_from val best l'
          | None => idxmax_from val (Some x) l'
          end
      end
  end.

Definition idxmax {A} (val : A → cell) (l : list A) : option A := idxmax_from val None l.

(** [pd.merge(others, wind_max, on="Time_key", how="left")]: every row of
    [others] once per matching row of [wind_max], with missing wind cells
    when there is none. *)
Definition with_wind (o : MetRow) (speed heading : cell) : MetRow :=
  {| met_Time := met_Time o;
     met_temperature_c := met_temperature_c o;
     met_humidity_rh := met_humidity_rh o;
     met_windspeed_kmh := speed;
     met_windheading := heading |}.

Definition merge_left (others wind_max : list MetRow) : list MetRow :=
  flat_map (λ o,
    match group met_Time_key (met_Time_key o) wind_max with
    | [] => [with_wind o None None]
    | ws => map (λ w, with_wind o (met_windspeed_kmh w) (met_windheading w)) ws
    end) others.

(** Lines 753-770: one row per minute of the meteorological stream. *)
Definition align_met (met : MetFrame) : result (list MetRow) :=
  match met_rows met with
  | [] => Ok []
  | _ =>
      let rows := sort_values met_Time (sort_values met_Time_key (met_rows met)) in
      if has_windspeed_kmh met && Series.notna_any (map met_windspeed_kmh rows) then
        let idx_max := map (λ k, idxmax met_windspeed_kmh (group met_Time_key k rows))
                           (group_keys met_Time_key rows) in
        (* [met.loc[idx_max, ["Time_key", "windspeed_kmh", "windheading"]]] *)
        let* wind_max :=
          map_result (λ label, match label with
                               | Some r => if has_windheading met then Ok r else Raise KeyError
                               | None => Raise KeyError
                               end) idx_max in
        let others := drop_duplicates_last met_Time_key rows in
        Ok (merge_left others wind_max)
      else
        Ok (drop_duplicates_last met_Time_key rows)
  end.

(** [sum(min_count=1)]: the sum of the non-missing values, missing when
    there is none. *)
Definition sum_min_count_1 (s : list cell) : cell :=
  if Series.notna_any s then Some (Series.sum s) else None.

Definition rain_Time_key (r : Timestamp * cell) : Timestamp := floor_min (fst r).

(** Lines 772-779: one row per minute of the rain stream. *)
Definition align_rain (rain2 : list (Timestamp * cell)) : list (Timestamp * cell) :=
  match rain2 with
  | [] => []
  | _ =>
      let rows := sort_values rain_Time_key rain2 in
      map (λ k, (k, sum_min_count_1 (map snd (group rain_Time_key k rows))))
          (group_keys rain_Time_key rows)
  end.

(** ** The unified record and the merge engine *)

Record Reading := {
  Time : Timestamp;
  temperature_c : cell;
  humidity_rh : cell;
  windspeed_kmh : cell;
  windheading : cell;
  rain_mm : cell;
}.

Definition reading_of (key : Timestamp) (m : option MetRow) (rain : cell) : Reading :=
  {| Time := key;
     temperature_c := m ≫= met_temperature_c;
     humidity_rh := m ≫= met_humidity_rh;
     windspeed_kmh := m ≫= met_windspeed_kmh;
     windheading := m ≫= met_windheading;
     rain_mm := rain |}.

(** Lines 781-803.  The outer join lists the rows of [met] with their rain,
    then the minutes only [rain2] has; the final [sort_values("Time")]
    fixes the order. *)
Definition merge_streams (met : list MetRow) (rain2 : list (Timestamp * cell)) : list Reading :=
  let merged :=
    match met, rain2 with
    | _ :: _, _ :: _ =>
        flat_map (λ m,
          match group fst (met_Time_key m) rain2 with
          | [] => [reading_of (met_Time_key m) (Some m) None]
          | rs => map (λ r, reading_of (met_Time_key m) (Some m) (snd r)) rs
          end) met
        ++ map (λ r, reading_of (fst r) None (snd r))
               (filter (λ r, fst r ∉ map met_Time_key met) rain2)
    | _ :: _, [] => map (λ m, reading_of (met_Time_key m) (Some m) None) met
    | [], _ => map (λ r, reading_of (fst r) None (snd r)) rain2
    end in
  sort_values Time merged.

(** ** The master store reconciler *)

Definition set_windheading (h : cell) (r : Reading) : Reading :=
  {| Time := Time r;
     temperature_c := temperature_c r;
     humidity_rh := humidity_rh r;
     windspeed_kmh := windspeed_kmh r;
     windheading := h;
     rain_mm := rain_mm r |}.

(** [master2["windheading"].ffill()] *)
Fixpoint ffill_from (last : cell) (l : list Reading) : list Reading :=
  match l with
  | [] => []
  | r :: l' =>
      match windheading r with
      | Some h => r :: ffill_from (Some h) l'
      | None => set_windheading last r :: ffill_from last l'
      end
  end.

Definition ffill_windheading (l : list Reading) : list Reading := ffill_from None l.

Record MergeReport := {
  imported_rows : nat;
  dedup_removed : Z;
}.

(** Lines 805-820: the archive that is saved, and the two counts. *)
Definition reconcile (master merged : list Reading) : list Reading * MergeReport :=
  let before := length master in
  let imported := length merged in
  let master2 := drop_duplicates_last Time (sort_values Time (master ++ merged)) in
  let after := length master2 in
  let removed := (Z.of_nat before + Z.of_nat imported) - Z.of_nat after in
  let master2 := ffill_windheading (sort_values Time master2) in
  (* [save_master] sorts once more before writing *)
  (sort_values Time master2, {| imported_rows := imported; dedup_removed := removed |}).

(** ** The extract generator *)

Definition NS_PER_DAY : Z := 86400 * NS_PER_SECOND.

(** The year and month of [strftime("%Y-%m")] in the proleptic Gregorian
    calendar.  A label [(y, m)] stands for the text [YYYY-MM]; on the four
    digit years a timestamp can hold, the order of the texts is the
    lexicographic order of the pairs. *)
Definition month_label (t : Timestamp) : Z * Z :=
  let z := t `div` NS_PER_DAY + 719468 in
  let era := z `div` 146097 in
  let doe := z - era * 146097 in
  let yoe := (doe - doe `div` 1460 + doe `div` 36524 - doe `div` 146096) `div` 365 in
  let doy := doe - (365 * yoe + yoe `div` 4 - yoe `div` 100) in
  let mp := (5 * doy + 2) `div` 153 in
  let m := if bool_decide (mp < 10) then mp + 3 else mp - 9 in
  let y := yoe + era * 400 in
  (if bool_decide (m ≤ 2) then y + 1 else y, m).

Definition label_leb (a b : Z * Z) : bool :=
  bool_decide (a.1 < b.1) || (bool_decide (a.1 = b.1) && bool_decide (a.2 ≤ b.2)).

(** One monthly extract.  [strftime("%Y-%m-%dT%H:%M:%S")] keeps whole
    seconds, so the [time] array is held in seconds since the epoch. *)
Record MonthJson := {
  mj_time : list Z;
  mj_temperature_c : list cell;
  mj_humidity_rh : list cell;
  mj_windspeed_kmh : list cell;
  mj_windheading : list cell;
  mj_rain_mm : list cell;
}.

Definition month_json (g : list Reading) : MonthJson :=
  let g := sort_values Time g in
  {| mj_time := map (λ r, Time r `div` NS_PER_SECOND) g;
     mj_temperature_c := map temperature_c g;
     mj_humidity_rh := map humidity_rh g;
     mj_windspeed_kmh := map windspeed_kmh g;
     mj_windheading := map windheading g;
     mj_rain_mm := map rain_mm g |}.

(** The labels of [master.groupby("month")]: distinct, ascending. *)
Definition month_groups (master : list Reading) : list (Z * Z) :=
  foldr (λ l acc, if bool_decide (l ∈ acc) then acc else l :: acc) []
        (sort_by label_leb (map (λ r, month_label (Time r)) master)).

(** [generate_monthly_json]: the files written into [data/], in the order
    they are written, and the returned month list (labels descending). *)
Definition monthly_files (master : list Reading) : list (Z * Z * MonthJson) :=
  let master := sort_values Time master in
  map (λ m, (m, month_json (filter (λ r, month_label (Time r) = m) master)))
      (month_groups master).

Definition month_list (master : list Reading) : list (Z * Z) :=
  sort_by (λ a b, label_leb b a) (map fst (monthly_files master)).

Record Manifest := {
  months : list (Z * Z);     (* each entry [{"label": m, "file": m + ".json"}] *)
  snow : string;
}.

(** ** The snow ledger *)

Record SnowRecord := {
  snow_Time : Timestamp;
  snow_cm : cell;
}.

Record SnowJson := {
  sj_time : list Z;
  sj_snow_cm : list cell;
}.

(** [dt.normalize()] *)
Definition normalize (t : Timestamp) : Timestamp := t - t mod NS_PER_DAY.

Definition snow_json_of (master : list SnowRecord) : SnowJson :=
  let master := sort_values snow_Time master in
  {| sj_time := map (λ r, snow_Time r `div` NS_PER_SECOND) master;
     sj_snow_cm := map snow_cm master |}.

(** ** The files of one installation *)

Record Store := {
  importer : list CsvFile;                     (* importer/*.csv *)
  weather_parquet : option (list Reading);     (* store/weather.parquet *)
  snow_parquet : option (list SnowRecord);     (* store/snow.parquet *)
  sno_csv : option CsvFile;                    (* manuelt/sno.csv *)
  data_months : gmap (Z * Z) MonthJson;        (* data/YYYY-MM.json *)
  snow_json : option SnowJson;                 (* data/snow.json *)
  manifest_json : option Manifest;             (* data/manifest.json *)
  index_html : bool;                           (* index.html written *)
}.

Definition load_master (s : Store) : list Reading := default [] (weather_parquet s).
Definition load_snow_master (s : Store) : list SnowRecord := default [] (snow_parquet s).

Definition save_master (df : list Reading) (s : Store) : Store :=
  {| importer := importer s;
     weather_parquet := Some (sort_values Time df);
     snow_parquet := snow_parquet s; sno_csv := sno_csv s;
     data_months := data_months s; snow_json := snow_json s;
     manifest_json := manifest_json s; index_html := index_html s |}.

Definition save_snow_master (df : list SnowRecord) (s : Store) : Store :=
  {| importer := importer s;
     weather_parquet := weather_parquet s;
     snow_parquet := Some (sort_values snow_Time df); sno_csv := sno_csv s;
     data_months := data_months s; snow_json := snow_json s;
     manifest_json := manifest_json s; index_html := index_html s |}.

(** The intake files moved to [arkiv/]; the archive directory itself is not
    part of the model. *)
Definition archive_intake (s : Store) : Store :=
  {| importer := [];
     weather_parquet := weather_parquet s;
     snow_parquet := snow_parquet s; sno_csv := sno_csv s;
     data_months := data_months s; snow_json := snow_json s;
     manifest_json := manifest_json s; index_html := index_html s |}.

Definition write_month (f : Z * Z * MonthJson) (s : Store) : Store :=
  {| importer := importer s;
     weather_parquet := weather_parquet s;
     snow_parquet := snow_parquet s; sno_csv := sno_csv s;
     data_months := <[f.1 := f.2]> (data_months s); snow_json := snow_json s;
     manifest_json := manifest_json s; index_html := index_html s |}.

Definition generate_monthly_json (s : Store) : Store * list (Z * Z) :=
  let master := load_master s in
  match master with
  | [] => (s, [])
  | _ => (foldl (λ s f, write_month f s) s (monthly_files master), month_list master)
  end.

Definition generate_snow_json (s : Store) : Store :=
  {| importer := importer s;
     weather_parquet := weather_parquet s;
     snow_parquet := snow_parquet s; sno_csv := sno_csv s;
     data_months := data_months s;
     snow_json := Some (snow_json_of (load_snow_master s));
     manifest_json := manifest_json s; index_html := index_html s |}.

Definition write_manifest (ms : list (Z * Z)) (s : Store) : Store :=
  {| importer := importer s;
     weather_parquet := weather_parquet s;
     snow_parquet := snow_parquet s; sno_csv := sno_csv s;
     data_months := data_months s; snow_json := snow_json s;
     manifest_json := Some {| months := ms; snow := "snow.json" |};
     index_html := index_html s |}.

Definition write_index_html (s : Store) : Store :=
  {| importer := importer s;
     weather_parquet := weather_parquet s;
     snow_parquet := snow_parquet s; sno_csv := sno_csv s;
     data_months := data_months s; snow_json := snow_json s;
     manifest_json := manifest_json s; index_html := true |}.

(** The third component of what [ingest_import_folder] returns. *)
Inductive Bundle :=
  | NoBundle                              (* the empty string *)
  | UnknownBundle                         (* "unknown" *)
  | Period (t0 t1 : Timestamp).           (* first and last day of the batch *)

Definition concat_met (parts : list MetFrame) : MetFrame :=
  {| has_temperature_c := existsb has_temperature_c parts;
     has_humidity_rh := existsb has_humidity_rh parts;
     has_windspeed_kmh := existsb has_windspeed_kmh parts;
     has_windheading := existsb has_windheading parts;
     met_rows := concat (map met_rows parts) |}.

Definition concat_rain (parts : list RainFrame) : RainFrame :=
  {| has_rain_rate_mmh := existsb has_rain_rate_mmh parts;
     has_rain_raw := existsb has_rain_raw parts;
     rain_rows := concat (map rain_rows parts) |}.

(** Lines 738-741: the meteorological rows of the whole intake. *)
Definition combine_met (met_parts : list MetFrame) : MetFrame :=
  match met_parts with
  | [] => {| has_temperature_c := true; has_humidity_rh := true;
             has_windspeed_kmh := true; has_windheading := true; met_rows := [] |}
  | _ =>
      let c := concat_met met_parts in
      {| has_temperature_c := has_temperature_c c;
         has_humidity_rh := has_humidity_rh c;
         has_windspeed_kmh := has_windspeed_kmh c;
         has_windheading := has_windheading c;
         met_rows := sort_values met_Time (drop_duplicates_first met_Time (met_rows c)) |}
  end.

(** Line 744: the rain rows of the whole intake. *)
Definition dedup_rain (rain_parts : list RainFrame) : RainFrame :=
  let c := concat_rain rain_parts in
  {| has_rain_rate_mmh := has_rain_rate_mmh c;
     has_rain_raw := has_rain_raw c;
     rain_rows := sort_values rain_Time (drop_duplicates_first rain_Time (rain_rows c)) |}.

(** Lines 743-748: the rain of the whole intake, as [Time] and [rain_mm]. *)
Definition combine_rain (rain_parts : list RainFrame) : list (Timestamp * cell) :=
  match rain_parts with
  | [] => []
  | _ =>
      let rain := dedup_rain rain_parts in
      zip (map rain_Time (rain_rows rain)) (rain_to_interval_mm rain)
  end.

Definition met_parts_of (ps : list Parsed) : list MetFrame :=
  omap (λ p, match p with ParsedMet df => Some df | ParsedRain _ => None end) ps.

Definition rain_parts_of (ps : list Parsed) : list RainFrame :=
  omap (λ p, match p with ParsedRain df => Some df | ParsedMet _ => None end) ps.

(** [sorted(files)]: by file name. *)
Definition name_leb (a b : CsvFile) : bool := String.leb (file_name a) (file_name b).

Definition sorted_files (files : list CsvFile) : list CsvFile := sort_by name_leb files.

Definition strip_lower (c : string) : string := lower (strip c).

Definition ingest_import_folder (s : Store) : result (Store * (MergeReport * Bundle)) :=
  let master := load_master s in
  let files := sorted_files (importer s) in
  match files with
  | [] => Ok (s, ({| imported_rows := 0; dedup_removed := 0 |}, NoBundle))
  | _ =>
      let* parsed := map_result parse_station_csv files in
      let met := combine_met (met_parts_of parsed) in
      let rain2 := combine_rain (rain_parts_of parsed) in
      let* met := align_met met in
      let rain2 := align_rain rain2 in
      let merged := merge_streams met rain2 in
      let '(master2, report) := reconcile master merged in
      let bundle :=
        match merged, last merged with
        | r0 :: _, Some r1 => Period (normalize (Time r0)) (normalize (Time r1))
        | _, _ => UnknownBundle
        end in
      Ok (archive_intake (save_master master2 s), (report, bundle))
  end.

Definition ingest_snow_file (s : Store) : result (Store * nat) :=
  match sno_csv s with
  | None => Ok (s, 0%nat)
  | Some f =>
      let* df := read_csv_any_encoding f in
      let date_col :=
        List.find (λ c, bool_decide (strip_lower c ∈ ["date"; "dato"]%string)) (columns df) in
      let snow_col :=
        List.find (λ c, bool_decide (strip_lower c ∈
                     ["snow_cm"; "snow"; "snø_cm"; "sno_cm"; "snø"; "sno"]%string)) (columns df) in
      match date_col, snow_col with
      | Some date_col, Some snow_col =>
          let times :=
            to_datetime (map (λ rec, cell_at (columns df) rec date_col) (records df)) in
          let out :=
            map (λ '(t, rec),
                   {| snow_Time := normalize t;
                      snow_cm := to_numeric (replace_char "," "."
                                   (strip (cell_at (columns df) rec snow_col))) |})
                (dropna_Time times (records df)) in
          let out := sort_values snow_Time out in
          match out with
          | [] => Ok (s, 0%nat)
          | _ =>
              let out := filter (λ r, is_Some (snow_cm r)) out in
              let out := drop_duplicates_last snow_Time out in
              let master := load_snow_master s in
              let master2 :=
                drop_duplicates_last snow_Time (sort_values snow_Time (master ++ out)) in
              Ok (save_snow_master master2 s, length out)
          end
      | _, _ => Raise InvalidSnowSchema
      end
  end.

(** [main]: a failure of the weather ingestion ends the run; a failure of
    the snow ingestion is reported and the run goes on. *)
Definition main (s : Store) : result Store :=
  let* ingested := ingest_import_folder s in
  let s := ingested.1 in
  let s :=
    match ingest_snow_file s with
    | Ok (s', _) => s'
    | Raise _ => s
    end in
  let '(s, ms) := generate_monthly_json s in
  let s := generate_snow_json s in
  let s := write_manifest ms s in
  Ok (write_index_html s).

(** ** The snow editor ([legg_til_sno.py]) *)

(** One record of [csv.DictReader] over [manuelt/sno.csv]: the cells under
    the headers ["Date"] and ["Snow_cm"], [None] where the record has no
    such cell.  [csv.DictWriter] writes such records and [csv.DictReader]
    reads them back cell by cell; the quoting in between is the [csv]
    module's and is not modelled. *)
Record SnoRow := {
  row_Date : option string;
  row_Snow_cm : option string;
}.

(** [read_existing]; the argument is what the file holds, [None] when it
    does not exist. *)
Definition read_existing (file : option (list SnoRow)) : gmap string string :=
  match file with
  | None => ∅
  | Some rows =>
      foldl (λ data row,
               let d := strip (default "" (row_Date row)) in
               let v := strip (default "" (row_Snow_cm row)) in
               if bool_decide (d = "") then data else <[d := v]> data)
            ∅ rows
  end.

(** [write_all]: the records written under the header, one per date, in
    the order of [sorted(data.keys())]. *)
Definition write_all (data : gmap string string) : list SnoRow :=
  map (λ d, {| row_Date := Some d; row_Snow_cm := Some (default "" (data !! d)) |})
      (sort_by String.leb (map fst (map_to_list data))).

(** One pass of the loop of [main], after the questions are answered with
    date [d] and depth [v]: [data[d] = v] and [write_all(data)]. *)
Definition register (d v : string) (data : gmap string string) :
    gmap string string * list SnoRow :=
  let data := <[d := v]> data in
  (data, write_all data).

End program.

(** * Vocabulary and sample data *)

Section vocabulary.
Context {R : Runtime}.

(** ** Vocabulary of the statements *)

Definition Qc_max (a b : Qc) : Qc := if decide (a ≤ b)%Qc then b else a.

(** The time-ordered rows of a rain frame and its two columns. *)
Definition rain_sorted (df : RainFrame) : list RainRow := sort_values rain_Time (rain_rows df).
Definition rate_column (df : RainFrame) : list cell := map rain_rate_mmh (rain_sorted df).
Definition raw_column (df : RainFrame) : list cell := map rain_raw (rain_sorted df).

(** The frame has a rate column with a value in it. *)
Definition rate_usable (df : RainFrame) : bool :=
  has_rain_rate_mmh df && Series.notna_any (rate_column df).

(** The frame has a raw column with a value in it. *)
Definition raw_usable (df : RainFrame) : bool :=
  has_rain_raw df && Series.notna_any (raw_column df).

(** The successive difference at row [i] of a column: missing on the first
    row and wherever one of the two values is missing. *)
Definition raw_diff (raw : list cell) (i : nat) : cell :=
  match i with
  | O => None
  | S j =>
      match raw !! j, raw !! i with
      | Some (Some p), Some (Some x) => Some (x - p)%Qc
      | _, _ => None
      end
  end.

(** Row [i] does not look like a reset: its difference is missing or
    non-negative. *)
Definition no_reset_at (raw : list cell) (i : nat) : bool :=
  match raw_diff raw i with
  | Some d => bool_decide (0 ≤ d)%Qc
  | None => true
  end.

Definition no_reset_rows (raw : list cell) : nat :=
  length (filter (λ i, no_reset_at raw i = true) (seq 0 (length raw))).

(** The gate of the code: strictly more than 90% of all rows have a missing
    or non-negative difference. *)
Definition counter_like (raw : list cell) : Prop :=
  (9 * length raw < 10 * no_reset_rows raw)%nat.

(** The interval value of a counter at row [i]. *)
Definition counter_interval (raw : list cell) (i : nat) : Qc :=
  match raw_diff raw i with
  | Some d => Qc_max 0 d
  | None => 0%Qc
  end.

Definition counter_intervals (raw : list cell) : list cell :=
  map (λ i, Some (counter_interval raw i)) (seq 0 (length raw)).

(** The gate in the words of the specification: at least 90% of the
    non-missing successive differences are non-negative. *)
Definition spec_present_diffs (raw : list cell) : list Qc :=
  omap (raw_diff raw) (seq 0 (length raw)).

Definition spec_counter_like (raw : list cell) : Prop :=
  (9 * length (spec_present_diffs raw)
   ≤ 10 * length (filter (λ d, 0 ≤ d)%Qc (spec_present_diffs raw)))%nat.

(** The specification's intervals of a counter: [max(0, diff)], and [0] on
    the first row. *)
Definition spec_counter_intervals (raw : list cell) : list cell :=
  map (λ i, match i with
            | O => Some 0%Qc
            | S _ => Qc_max 0 <$> raw_diff raw i
            end) (seq 0 (length raw)).

(** A column of present values that never goes down. *)
Definition nondecreasing (vs : list Qc) : Prop :=
  ∀ i x y, vs !! i = Some x → vs !! S i = Some y → (x ≤ y)%Qc.

(** Hours between row [i] and the row before it; zero on the first row. *)
Definition elapsed_hours (rows : list RainRow) (i : nat) : Qc :=
  match i with
  | O => 0%Qc
  | S j =>
      match rows !! j, rows !! i with
      | Some p, Some r => Series.hours_of_ns (rain_Time r - rain_Time p)
      | _, _ => 0%Qc
      end
  end.

(** The heading a row ends up with: its own, or else the one the row
    before it ended up with. *)
Definition filled_heading (before : cell) (r : Reading) : cell :=
  match windheading r with
  | Some h => Some h
  | None => before
  end.

(** The monthly extracts and the manifest are the ones the generator writes
    for the archive the store holds. *)
Definition extracts_current (s : Store) : Prop :=
  data_months s = data_months (generate_monthly_json s).1
  ∧ manifest_json s
    = Some {| months := (generate_monthly_json s).2; snow := "snow.json" |}.

(** The month files after writing the extracts of [master] over [m]. *)
Definition write_months (master : list Reading) (m : gmap (Z * Z) MonthJson) :
    gmap (Z * Z) MonthJson :=
  match master with
  | [] => m
  | _ => foldl (λ m f, <[f.1 := f.2]> m) m (monthly_files master)
  end.

(** The rows of a meteorological frame as the alignment groups them
    (lines 756 and 760). *)
Definition minute_rows (met : MetFrame) : list MetRow :=
  sort_values met_Time (sort_values met_Time_key (met_rows met)).

(** [w] is the gust of the rows [g]: it has the largest wind speed, and is
    the first row of [g] to have it. *)
Definition is_gust (g : list MetRow) (w : MetRow) : Prop :=
  ∃ v g1 g2,
    g = g1 ++ w :: g2
    ∧ met_windspeed_kmh w = Some v
    ∧ (∀ x u, x ∈ g1 → met_windspeed_kmh x = Some u → (u < v)%Qc)
    ∧ (∀ x u, x ∈ g2 → met_windspeed_kmh x = Some u → (u ≤ v)%Qc).

(** ** Sample data *)

Definition qz (z : Z) : cell := Some (Qc_of_Z z).

(** A frame with only a raw column, sampled once a minute. *)
Fixpoint raw_rows_from (t : Timestamp) (vals : list cell) : list RainRow :=
  match vals with
  | [] => []
  | v :: vals' =>
      {| rain_Time := t; rain_rate_mmh := None; rain_raw := v |}
        :: raw_rows_from (t + NS_PER_MINUTE) vals'
  end.

Definition raw_frame (vals : list cell) : RainFrame :=
  {| has_rain_rate_mmh := false; has_rain_raw := true;
     rain_rows := raw_rows_from 0 vals |}.

(** A frame with only a rate column. *)
Definition rate_frame (samples : list (Timestamp * cell)) : RainFrame :=
  {| has_rain_rate_mmh := true; has_rain_raw := false;
     rain_rows := map (λ s, {| rain_Time := s.1; rain_rate_mmh := s.2; rain_raw := None |})
                      samples |}.

Definition reset_counter : list cell := [qz 10; qz 12; qz 3; qz 7].

Definition long_reset_counter : list cell :=
  [qz 10; qz 12; qz 14; qz 16; qz 18; qz 20; qz 22; qz 24; qz 26; qz 28; qz 3; qz 7].

(** Two readings of a gauge followed by nine rows without a value. *)
Definition gappy_counter : list cell := qz 3 :: qz 1 :: replicate 9 None.

(** An archive of two minutes, and a batch that re-reports the second minute
    without a wind heading. *)
Definition reading (t : Timestamp) (temp heading : cell) : Reading :=
  {| Time := t; temperature_c := temp; humidity_rh := None;
     windspeed_kmh := None; windheading := heading; rain_mm := None |}.

Definition old_archive : list Reading :=
  [reading 0 (qz 1) (qz 90); reading NS_PER_MINUTE (qz 1) (qz 180)].

Definition new_batch : list Reading := [reading NS_PER_MINUTE (qz 2) None].

(** An archive of sixteen minutes. *)
Definition sixteen_minutes : list Reading :=
  map (λ i, reading (Z.of_nat i * NS_PER_MINUTE) (qz 1) (qz 90)) (seq 0 16).

Definition csv (name : string) (cols : list string) (recs : list (list string)) : CsvFile :=
  {| file_name := name; file_frame := Some {| columns := cols; records := recs |} |}.

(** Two meteorological exports that both report minute 2, and two rain
    exports that both report minute 1, as the directory lists them. *)
Definition demo_intake : list CsvFile :=
  [csv "b.csv" ["Time"; "Temperature"] [["2"; "99"]; ["3"; "12"]];
   csv "d.csv" ["Time"; "Rain"] [["1"; "7"]];
   csv "a.csv" ["Time"; "Temperature"] [["1"; "10"]; ["2"; "11"]];
   csv "c.csv" ["Time"; "Rain"] [["1"; "5"]]]%string.

Definition demo_parsed : list Parsed :=
  match map_result (parse_station_csv (R := reference)) (sorted_files demo_intake) with
  | Ok ps => ps
  | Raise _ => []
  end.

(** A store whose intake is empty and whose extracts were generated from
    its archive of two minutes. *)
Definition demo_store : Store :=
  {| importer := [];
     weather_parquet := Some old_archive;
     snow_parquet := None;
     sno_csv := None;
     data_months := <[(1970, 1) := month_json (R := reference) old_archive]> ∅;
     snow_json := None;
     manifest_json := Some {| months := [(1970, 1)]; snow := "snow.json" |};
     index_html := false |}.

(** Clock times of one day, and three meteorological frames: two readings
    within the minute 12:00; the same with a later row whose wind cell is
    empty; and the two readings from a station without a heading column. *)
Definition hms (h m sec : Z) : Timestamp := ((h * 60 + m) * 60 + sec) * NS_PER_SECOND.

Definition met_row (t : Timestamp) (temp speed heading : cell) : MetRow :=
  {| met_Time := t; met_temperature_c := temp; met_humidity_rh := None;
     met_windspeed_kmh := speed; met_windheading := heading |}.

Definition met_frame (heading_col : bool) (rows : list MetRow) : MetFrame :=
  {| has_temperature_c := true; has_humidity_rh := false;
     has_windspeed_kmh := true; has_windheading := heading_col; met_rows := rows |}.

Definition gust_frame : MetFrame :=
  met_frame true [met_row (hms 12 0 5) (qz 1) (qz 3) (qz 90);
                  met_row (hms 12 0 40) (qz 2) (qz 7) (qz 180)].

Definition dropout_frame : MetFrame :=
  met_frame true [met_row (hms 12 0 5) (qz 1) (qz 3) (qz 90);
                  met_row (hms 12 0 40) (qz 2) (qz 7) (qz 180);
                  met_row (hms 12 5 0) (qz 3) None None].

Definition no_heading_frame : MetFrame :=
  met_frame false [met_row (hms 12 0 5) (qz 1) (qz 3) None;
                   met_row (hms 12 0 40) (qz 2) (qz 7) None].

(** Equality of float cells, decided on the rationals. *)
Definition cell_eqb (a b : cell) : bool :=
  match a, b with
  | Some x, Some y => Qeq_bool x y
  | None, None => true
  | _, _ => false
  end.

Fixpoint cells_eqb (a b : list cell) : bool :=
  match a, b with
  | [], [] => true
  | x :: a', y :: b' => cell_eqb x y && cells_eqb a' b'
  | _, _ => false
  end.

(** ** Vocabulary of the further properties *)

(** A float cell that is present and not negative. *)
Definition present_nonneg (c : cell) : Prop := ∃ v : Qc, c = Some v ∧ (0 ≤ v)%Qc.

(** The total of a rain column, missing cells counting nothing. *)
Definition total_rain (rows : list (Timestamp * cell)) : Qc := Series.sum (map snd rows).

(** What the outer join holds for minute [t]: the meteorological row of the
    minute with the rain of the minute, either of them missing when its
    stream has no row for the minute. *)
Definition joined (t : Timestamp) (met : list MetRow) (rain2 : list (Timestamp * cell)) :
    list Reading :=
  match head (group met_Time_key t met), head (group fst t rain2) with
  | Some m, Some r => [reading_of t (Some m) r.2]
  | Some m, None => [reading_of t (Some m) None]
  | None, Some r => [reading_of t None r.2]
  | None, None => []
  end.

(** A rain stream of minutes 0 and 1 and a meteorological stream of minutes
    1 and 2. *)
Definition demo_rain_minutes : list (Timestamp * cell) :=
  [(0, qz 1); (NS_PER_MINUTE, qz 2)].

Definition demo_met_minutes : list MetRow :=
  [met_row (NS_PER_MINUTE + 7) (qz 5) (qz 3) (qz 90);
   met_row (2 * NS_PER_MINUTE + 9) (qz 6) None None].

(** The rows of [pd.merge(..., how="outer")] on the minute: the rows of
    [met], each with its rain, then the minutes only [rain2] has. *)
Definition outer_join (met : list MetRow) (rain2 : list (Timestamp * cell)) : list Reading :=
  flat_map (λ m,
    match group fst (met_Time_key m) rain2 with
    | [] => [reading_of (met_Time_key m) (Some m) None]
    | rs => map (λ r, reading_of (met_Time_key m) (Some m) r.2) rs
    end) met
  ++ map (λ r, reading_of r.1 None r.2)
         (filter (λ r, r.1 ∉ map met_Time_key met) rain2).

(** Some header contains, in lower case, one of the keywords. *)
Definition header_mentions (cols kws : list string) : Prop :=
  ∃ c kw, c ∈ cols ∧ kw ∈ kws ∧ contains kw (lower c) = true.



Definition is_rain (p : Parsed) : bool :=
  match p with
  | ParsedRain _ => true
  | ParsedMet _ => false
  end.

(** The keywords of lines 619-620. *)
Definition rain_words : list string :=
  ["rain rate"; "mm/h"; "mm per h"; "mm pr h"; "rain"; "precip"; "nedbør"; "nedbor"]%string.


Definition demo_rain_export : CsvFile :=
  csv "regn.csv" ["Time"; "Temperature"; "Rain mm"] [["3"; "12"; "4"]; ["1"; "10"; "2"]]%string.

Definition parsed_or_empty (r : result Parsed) : Parsed :=
  match r with
  | Ok p => p
  | Raise _ => ParsedRain {| has_rain_rate_mmh := false; has_rain_raw := false; rain_rows := [] |}
  end.

(** The alignment looks for the gust of each minute: the frame has a
    wind-speed column with a value in it (line 761). *)
Definition wind_usable (met : MetFrame) : bool :=
  has_windspeed_kmh met && Series.notna_any (map met_windspeed_kmh (met_rows met)).

(** A minute of the stream none of whose rows has a wind speed. *)
Definition minute_without_wind (met : MetFrame) (k : Timestamp) : Prop :=
  k ∈ map met_Time_key (met_rows met)
  ∧ ∀ r, r ∈ met_rows met → met_Time_key r = k → met_windspeed_kmh r = None.

(** What [met.loc[idx_max, ...]] makes of one label (line 763). *)
Definition loc_label (met : MetFrame) (label : option MetRow) : result MetRow :=
  match label with
  | Some r => if has_windheading met then Ok r else Raise KeyError
  | None => Raise KeyError
  end.

(** The header names [ingest_snow_file] accepts (lines 891 and 896). *)
Definition date_words : list string := ["date"; "dato"]%string.
Definition snow_words : list string :=
  ["snow_cm"; "snow"; "snø_cm"; "sno_cm"; "snø"; "sno"]%string.

(** Some header is one of the words, blanks at its ends and case aside. *)
Definition header_names (cols words : list string) : Prop :=
  ∃ c, c ∈ cols ∧ strip_lower c ∈ words.

(** The first such header. *)
Definition named_column (cols words : list string) : option string :=
  List.find (λ c, bool_decide (strip_lower c ∈ words)) cols.

(** The records of [sno.csv] whose date can be read, as ledger rows, in the
    order of the file (lines 903-909, before the sort). *)
Definition snow_rows (df : RawFrame) (date_col snow_col : string) : list SnowRecord :=
  map (λ '(t, rec),
         {| snow_Time := normalize t;
            snow_cm := to_numeric (replace_char "," "."
                         (strip (cell_at (columns df) rec snow_col))) |})
      (dropna_Time
         (to_datetime (map (λ rec, cell_at (columns df) rec date_col) (records df)))
         (records df)).

Definition with_depth (rows : list SnowRecord) : list SnowRecord :=
  filter (λ r, is_Some (snow_cm r)) rows.

(** A snow file with two entries for day 1, an entry without a depth for
    day 0 and one with an unreadable depth for day 2; and a store that has
    it, with a ledger holding an older depth for day 1 and one for day 5. *)
Definition demo_sno_csv : CsvFile :=
  csv "sno.csv" ["Dato"; " Snow_CM "]
      [["1500"; "45"]; ["10"; ""]; ["1600"; "50"]; ["3000"; "x"]]%string.

Definition demo_snow_store : Store :=
  {| importer := [];
     weather_parquet := None;
     snow_parquet := Some [ {| snow_Time := NS_PER_DAY; snow_cm := qz 30 |};
                            {| snow_Time := 5 * NS_PER_DAY; snow_cm := qz 70 |} ];
     sno_csv := Some demo_sno_csv;
     data_months := ∅;
     snow_json := None;
     manifest_json := None;
     index_html := false |}.

(** The order of the month labels, [YYYY-MM] read as text. *)
Definition label_lt (a b : Z * Z) : Prop := a.1 < b.1 ∨ (a.1 = b.1 ∧ a.2 < b.2).

(** The arrays of an extract that holds the rows [g] in this order. *)
Definition columns_of (g : list Reading) : MonthJson :=
  {| mj_time := map (λ r, Time r `div` NS_PER_SECOND) g;
     mj_temperature_c := map temperature_c g;
     mj_humidity_rh := map humidity_rh g;
     mj_windspeed_kmh := map windspeed_kmh g;
     mj_windheading := map windheading g;
     mj_rain_mm := map rain_mm g |}.

(** The readings of one month. *)
Definition of_month (m : Z * Z) (master : list Reading) : list Reading :=
  filter (λ r, month_label (Time r) = m) master.

(** [j] is the extract of month [m] of the archive: the arrays of the
    month's readings in ascending order of time; in the order [sort_values]
    gives them when no two readings of the archive have the same time. *)
Definition month_extract (m : Z * Z) (master : list Reading) (j : MonthJson) : Prop :=
  ∃ g, j = columns_of g
       ∧ g ≡ₚ of_month m master
       ∧ Sorted (λ a b, Time a ≤ Time b) g
       ∧ (NoDup (map Time master) → g = sort_values Time (of_month m master)).

(** An archive with one reading per minute: strictly ascending times, all
    of them whole minutes. *)
Definition by_the_minute (l : list Reading) : Prop :=
  StronglySorted Z.lt (map Time l) ∧ Forall (λ r, Time r `mod` NS_PER_MINUTE = 0) l.

(** The batch of an import: the merged frame of the intake files (lines
    728-803), before it is reconciled with the archive. *)
Definition import_batch (s : Store) : result (list Reading) :=
  let* parsed := map_result parse_station_csv (sorted_files (importer s)) in
  let* met := align_met (combine_met (met_parts_of parsed)) in
  Ok (merge_streams met (align_rain (combine_rain (rain_parts_of parsed)))).

(** The demo store with the four demo exports in its intake. *)
Definition demo_intake_store : Store :=
  {| importer := demo_intake;
     weather_parquet := Some old_archive;
     snow_parquet := None;
     sno_csv := None;
     data_months := ∅;
     snow_json := None;
     manifest_json := None;
     index_html := false |}.

(** A snow dictionary as [read_existing] leaves it: no empty date, and no
    blanks around a date or a depth. *)
Definition trimmed (data : gmap string string) : Prop :=
  ∀ d v, data !! d = Some v → d ≠ ""%string ∧ strip d = d ∧ strip v = v.

(** A file the editor has not written: a date with blanks around it given
    twice, a record without a date, and a record without a depth cell. *)
Definition demo_sno_rows : list SnoRow :=
  [ {| row_Date := Some " 2026-01-05"; row_Snow_cm := Some "45" |};
    {| row_Date := Some ""; row_Snow_cm := Some "3" |};
    {| row_Date := Some "2026-01-02"; row_Snow_cm := None |};
    {| row_Date := Some "2026-01-05 "; row_Snow_cm := Some " 50 " |} ]%string.

End vocabulary.

(** * Properties *)

(** ** Numbers and cells *)

Lemma cell_eqb_eq a b : cell_eqb a b = true ↔ a = b.
Proof.
  destruct a as [x|], b as [y|]; simpl; split; try done.
  - intros H. f_equal. apply Qc_is_canon. by apply Qeq_bool_iff.
  - intros [= ->]. by apply Qeq_bool_iff.
Qed.

Lemma cells_eqb_eq a b : cells_eqb a b = true ↔ a = b.
Proof.
  revert b. induction a as [|x a IH]; intros [|y b]; simpl; split; try done.
  - intros [H1 H2]%andb_prop. f_equal; [by apply cell_eqb_eq | by apply IH].
  - intros [= -> ->]. apply andb_true_intro. split; [by apply cell_eqb_eq | by apply IH].
Qed.

Lemma Qc_max_0_nonneg x : (0 ≤ Qc_max 0 x)%Qc.
Proof. unfold Qc_max. case_decide; [done | apply Qcle_refl]. Qed.

Lemma Qc_max_0_of_nonneg x : (0 ≤ x)%Qc → Qc_max 0 x = x.
Proof. unfold Qc_max. by case_decide. Qed.

Lemma clamp_is_max x : (if Qc_ltb x 0 then 0%Qc else x) = Qc_max 0 x.
Proof.
  unfold Qc_ltb, Qc_max. case_bool_decide as H; case_decide as H'; try done.
  - by apply Qclt_not_le in H.
  - by apply Qcnot_lt_le in H.
Qed.

Lemma where_is_max x : (if Qc_geb x 0 then x else 0%Qc) = Qc_max 0 x.
Proof. unfold Qc_geb, Qc_max. by case_bool_decide; case_decide. Qed.

(** [a / b > 0.90] on counts, without the division. *)
Lemma ratio_above_threshold (a b : nat) :
  (0 < b)%nat →
  Qc_gtb (Qc_of_Z (Z.of_nat a) / Qc_of_Z (Z.of_nat b))%Qc ratio_threshold = true
  ↔ (9 * b < 10 * a)%nat.
Proof.
  intros Hb. unfold Qc_gtb. rewrite bool_decide_eq_true.
  destruct b as [|b]; [lia|].
  unfold Qclt, ratio_threshold, Qcdiv, Qcmult, Qcinv, Qc_of_Z. simpl this.
  rewrite !Qred_correct.
  unfold Qlt, Qinv, Qmult. simpl. lia.
Qed.

(** ** Series *)

Lemma diff_from_lookup prev s i c :
  s !! i = Some c →
  Series.diff_from prev s !! i =
    Some (match c, match i with O => prev | S j => default None (s !! j) end with
          | Some x, Some p => Some (x - p)%Qc
          | _, _ => None
          end).
Proof.
  revert prev i. induction s as [|c0 s IH]; intros prev i Hi; [done|].
  destruct i as [|i]; cbn [Series.diff_from].
  - rewrite lookup_cons in Hi. simpl. by injection Hi as ->.
  - rewrite lookup_cons in Hi. rewrite !lookup_cons.
    rewrite (IH c0 i Hi). by destruct i.
Qed.

Lemma diff_lookup s i :
  (i < length s)%nat → Series.diff s !! i = Some (raw_diff s i).
Proof.
  intros Hi. destruct s as [|c0 s]; [simpl in Hi; lia|].
  destruct i as [|i]; [done|].
  simpl in Hi. destruct (lookup_lt_is_Some_2 s i) as [c Hc]; [lia|].
  unfold Series.diff. rewrite lookup_cons. rewrite (diff_from_lookup c0 s i c Hc).
  unfold raw_diff. rewrite !lookup_cons, Hc. f_equal.
  destruct i as [|i]; simpl.
  - destruct c, c0; done.
  - destruct (s !! i) as [p|] eqn:E; simpl.
    + destruct c, p; done.
    + apply lookup_ge_None in E. apply lookup_lt_Some in Hc. lia.
Qed.

Lemma diff_from_length prev s : length (Series.diff_from prev s) = length s.
Proof. revert prev. induction s; intros; simpl; [done | by f_equal]. Qed.

Lemma diff_length s : length (Series.diff s) = length s.
Proof. destruct s; simpl; [done | by rewrite diff_from_length]. Qed.

Lemma diff_as_map s : Series.diff s = map (raw_diff s) (seq 0 (length s)).
Proof.
  apply list_eq. intros i. rewrite list_lookup_fmap.
  destruct (decide (i < length s)%nat) as [Hi|Hi].
  - rewrite (diff_lookup s i Hi), lookup_seq_lt by done. done.
  - rewrite lookup_seq_ge by lia.
    apply lookup_ge_None. rewrite diff_length. lia.
Qed.

Lemma count_true_map {A} (f : A → bool) l :
  Series.count_true (map f l) = length (filter (λ x, f x = true) l).
Proof.
  unfold Series.count_true. induction l as [|x l IH]; [done|].
  simpl. rewrite !filter_cons. destruct (f x) eqn:E.
  - rewrite !decide_True by done. simpl. by f_equal.
  - rewrite !decide_False by (by rewrite ?E). done.
Qed.

Lemma notna_any_true s : Series.notna_any s = true ↔ ∃ x, Some x ∈ s.
Proof.
  unfold Series.notna_any. rewrite existsb_exists. split.
  - intros (c & Hin & Hc). apply bool_decide_eq_true in Hc as [x ->].
    exists x. by apply list_elem_of_In.
  - intros [x Hx]. exists (Some x). split; [by apply list_elem_of_In|].
    by apply bool_decide_eq_true.
Qed.

Lemma notna_any_perm (s1 s2 : list cell) :
  s1 ≡ₚ s2 → Series.notna_any s1 = Series.notna_any s2.
Proof.
  intros Hperm.
  destruct (Series.notna_any s2) eqn:E2.
  - apply notna_any_true in E2 as [x Hx]. apply notna_any_true. exists x. by rewrite Hperm.
  - destruct (Series.notna_any s1) eqn:E1; [|done].
    apply notna_any_true in E1 as [x Hx]. rewrite <-E2. symmetry.
    apply notna_any_true. exists x. by rewrite <-Hperm.
Qed.

Lemma sum_app_cells (a b : list cell) :
  Series.sum (a ++ b) = (Series.sum a + Series.sum b)%Qc.
Proof.
  induction a as [|c a IH]; simpl; [ring|]. rewrite IH. destruct c; ring.
Qed.

Lemma sum_perm_cells (a b : list cell) : a ≡ₚ b → Series.sum a = Series.sum b.
Proof.
  induction 1 as [|c a b Hab IH|c c' a|a b b' Hab IH Hbb IH']; simpl.
  - done.
  - by rewrite IH.
  - destruct c, c'; ring.
  - by rewrite IH.
Qed.

Lemma sum_min_count_1_perm (a b : list cell) :
  a ≡ₚ b → sum_min_count_1 a = sum_min_count_1 b.
Proof.
  intros H. unfold sum_min_count_1.
  by rewrite (notna_any_perm a b H), (sum_perm_cells a b H).
Qed.

(** ** Sorting and duplicates *)

Section sorting_facts.
Context {R : Runtime}.

Section sort_facts.
Context {A : Type} (key : A → Z).

Local Abbreviation by_key := (λ a b : A, key a ≤ key b).
Local Abbreviation strictly_by_key := (λ a b : A, key a < key b).

Lemma sort_values_length (l : list A) : length (sort_values key l) = length l.
Proof. by rewrite sort_values_perm. Qed.

Lemma sort_values_nil : sort_values key [] = [].
Proof. apply Permutation_nil_r, sort_values_perm. Qed.

Lemma sort_values_elem x (l : list A) : x ∈ sort_values key l ↔ x ∈ l.
Proof. by rewrite sort_values_perm. Qed.

(** The sort keeps the rows of every key; their order among themselves is
    not fixed. *)
Lemma sort_values_group_perm k (l : list A) :
  group key k (sort_values key l) ≡ₚ group key k l.
Proof. unfold group. by rewrite sort_values_perm. Qed.

Lemma short_list_perm (l l' : list A) : (length l ≤ 1)%nat → l' ≡ₚ l → l' = l.
Proof.
  intros Hlen Hperm. destruct l as [|x [|y l]]; simpl in Hlen; [| |lia].
  - by apply Permutation_nil_r in Hperm.
  - by apply Permutation_singleton_r in Hperm.
Qed.

Lemma sort_values_group_short k (l : list A) :
  (length (group key k l) ≤ 1)%nat → group key k (sort_values key l) = group key k l.
Proof. intros Hlen. apply short_list_perm; [done | apply sort_values_group_perm]. Qed.

(** Without duplicate keys there is one ascending arrangement, so the
    order among equal keys plays no part. *)
Lemma sort_values_unique (l l' : list A) :
  NoDup (map key l) → l' ≡ₚ l → Sorted by_key l' → l' = sort_values key l.
Proof.
  intros Hnd Hperm Hsorted.
  apply (StronglySorted_unique_strong by_key).
  - intros x1 x2 Hx1 Hx2 H12 H21. rewrite Hperm in Hx1. rewrite sort_values_perm in Hx2.
    assert (Hkey : key x1 = key x2) by lia.
    apply list_elem_of_lookup in Hx1 as [i Hi]. apply list_elem_of_lookup in Hx2 as [j Hj].
    assert (i = j) as ->; [|congruence].
    eapply NoDup_lookup; [done| |]; rewrite list_lookup_fmap; [by rewrite Hi | by rewrite Hj, Hkey].
  - apply Sorted_StronglySorted; [intros ???; lia | done].
  - apply Sorted_StronglySorted; [intros ???; lia | apply sort_values_sorted].
  - by rewrite sort_values_perm.
Qed.

Lemma strictly_sorted_weaken (l : list A) :
  StronglySorted strictly_by_key l → Sorted by_key l.
Proof.
  intros H. apply StronglySorted_Sorted.
  induction H as [|x l Hl IH Hall]; constructor; [done|].
  eapply Forall_impl; [done|]. simpl. lia.
Qed.

Lemma strictly_sorted_NoDup (l : list A) :
  StronglySorted (λ a b, key a < key b) l → NoDup (map key l).
Proof.
  induction 1 as [|x l Hl IH Hall]; [constructor|].
  simpl. constructor; [|done].
  intros (y & Heq & Hy)%list_elem_of_fmap. rewrite Forall_forall in Hall.
  specialize (Hall y Hy). lia.
Qed.

(** A frame in strictly ascending order is left as it is. *)
Lemma sort_values_strict_id (l : list A) :
  StronglySorted strictly_by_key l → sort_values key l = l.
Proof.
  intros H. symmetry.
  apply sort_values_unique; [by apply strictly_sorted_NoDup | done | by apply strictly_sorted_weaken].
Qed.

Lemma group_elem_of k x (l : list A) : x ∈ group key k l ↔ x ∈ l ∧ key x = k.
Proof. unfold group. by rewrite list_elem_of_filter, (comm (∧)). Qed.

Lemma group_nil k (l : list A) : group key k l = [] ↔ k ∉ map key l.
Proof.
  unfold group. induction l as [|x l IH]; simpl.
  - split; [intros _; apply not_elem_of_nil | done].
  - rewrite filter_cons, not_elem_of_cons. destruct (decide (key x = k)) as [->|Hne].
    + split; [done | by intros [? _]].
    + rewrite IH. split; [by intros ?; split | by intros [_ ?]].
Qed.

Lemma group_cons k x (l : list A) :
  group key k (x :: l) = if decide (key x = k) then x :: group key k l else group key k l.
Proof. unfold group. by rewrite filter_cons. Qed.

(** [keep="last"]: of each key the last row stays. *)
Lemma drop_duplicates_last_group k (l : list A) :
  group key k (drop_duplicates_last key l) = option_list (last (group key k l)).
Proof.
  induction l as [|x l IH]; [done|]. simpl.
  case_bool_decide as Hin.
  - rewrite IH, group_cons.
    destruct (decide (key x = k)) as [<-|]; [|done].
    destruct (group key (key x) l) as [|y g] eqn:E; [|by rewrite last_cons_cons].
    by apply group_nil in E.
  - rewrite !group_cons, IH.
    destruct (decide (key x = k)) as [<-|]; [|done].
    assert (group key (key x) l = []) as -> by (by apply group_nil). done.
Qed.

Lemma drop_duplicates_last_sublist (l : list A) : drop_duplicates_last key l `sublist_of` l.
Proof.
  induction l as [|x l IH]; [done|]. simpl.
  case_bool_decide; [by apply sublist_cons | by apply sublist_skip].
Qed.

Lemma group_not_nil k (l : list A) : group key k l ≠ [] ↔ k ∈ map key l.
Proof. rewrite group_nil. split; [apply dec_stable | by intros ??]. Qed.

Lemma drop_duplicates_last_keys (l : list A) k :
  k ∈ map key (drop_duplicates_last key l) ↔ k ∈ map key l.
Proof.
  rewrite <-!group_not_nil, drop_duplicates_last_group.
  destruct (group key k l) as [|y g] eqn:E; [done|].
  destruct (last_is_Some (y :: g)) as [_ [z Hz]]; [done|].
  by rewrite Hz.
Qed.

(** A sorted frame without duplicates is strictly sorted. *)
Lemma drop_duplicates_last_strict (l : list A) :
  Sorted by_key l → StronglySorted strictly_by_key (drop_duplicates_last key l).
Proof.
  intros Hs. apply Sorted_StronglySorted in Hs; [|intros ???; lia].
  induction Hs as [|x l Hl IH Hall]; [constructor|]. simpl.
  case_bool_decide as Hin; [done|].
  constructor; [done|].
  apply Forall_forall. intros y Hy.
  assert (y ∈ l) as Hyl by (eapply elem_of_sublist; [done | apply drop_duplicates_last_sublist]).
  rewrite Forall_forall in Hall. specialize (Hall y Hyl).
  assert (key x ≠ key y); [|lia].
  intros Heq. apply Hin. rewrite Heq. by apply list_elem_of_fmap_2.
Qed.

(** [keep="first"]: of each key the first row stays. *)
Lemma drop_duplicates_first_aux_group k seen (l : list A) :
  group key k (drop_duplicates_first_aux key seen l)
  = if decide (k ∈ seen) then [] else take 1 (group key k l).
Proof.
  revert seen. induction l as [|x l IH]; intros seen; simpl.
  - by case_decide.
  - case_bool_decide as Hin.
    + rewrite IH, group_cons. case_decide as Hk; [done|].
      destruct (decide (key x = k)) as [<-|]; done.
    + rewrite !group_cons, IH. destruct (decide (key x = k)) as [<-|Hne].
      * rewrite decide_True by (by left). by rewrite decide_False.
      * destruct (decide (k ∈ seen)) as [Hk|Hk].
        -- by rewrite decide_True by (by right).
        -- rewrite decide_False; [done|]. by intros [?|?]%elem_of_cons.
Qed.

Lemma drop_duplicates_first_group k (l : list A) :
  group key k (drop_duplicates_first key l) = take 1 (group key k l).
Proof.
  unfold drop_duplicates_first. rewrite drop_duplicates_first_aux_group.
  rewrite decide_False; [done | apply not_elem_of_nil].
Qed.

End sort_facts.

(** Equal keys that are the rows themselves leave no choice either. *)
Lemma sort_values_id_sorted (l : list Z) : Sorted Z.le l → sort_values id l = l.
Proof.
  intros Hs. apply (StronglySorted_unique Z.le).
  - apply Sorted_StronglySorted; [intros ???; lia | apply (sort_values_sorted id)].
  - apply Sorted_StronglySorted; [intros ???; lia | done].
  - apply sort_values_perm.
Qed.

End sorting_facts.

(** ** The raw branch of the rain normalizer *)

Section raw_branch.
Context {R : Runtime}.

Lemma gate_counts raw :
  Series.count_true (Series.ge 0%Qc (Series.fillna 0%Qc (Series.diff raw))) = no_reset_rows raw.
Proof.
  unfold Series.ge, Series.fillna, no_reset_rows.
  rewrite diff_as_map, !map_map, count_true_map.
  f_equal. apply list_filter_iff. intros i. unfold no_reset_at.
  destruct (raw_diff raw i); unfold Qc_geb; [done|].
  split; [done|]. intros _. by apply bool_decide_eq_true.
Qed.

Lemma gate_is_counter_like raw :
  raw ≠ [] →
  Qc_gtb (Series.mean (Series.ge 0%Qc (Series.fillna 0%Qc (Series.diff raw)))) ratio_threshold = true
  ↔ counter_like raw.
Proof.
  intros Hne. unfold Series.mean. rewrite gate_counts.
  unfold Series.ge, Series.fillna. rewrite !length_map, diff_length.
  apply ratio_above_threshold. destruct raw; [done | simpl; lia].
Qed.

Lemma counter_output raw :
  Series.fillna 0%Qc (Series.where_ge0 (Series.diff raw)) = counter_intervals raw.
Proof.
  unfold Series.fillna, Series.where_ge0, counter_intervals.
  rewrite diff_as_map, !map_map. apply map_ext. intros i.
  unfold counter_interval. destruct (raw_diff raw i) as [d|]; [|done].
  by rewrite <-where_is_max; destruct (Qc_geb d 0).
Qed.

Lemma notna_any_nonempty s : Series.notna_any s = true → s ≠ [].
Proof. by destruct s. Qed.

(** The raw branch is taken when the rate column is unusable and the raw
    column has a value; it then follows the gate. *)
Lemma raw_branch_counter df :
  rate_usable df = false → raw_usable df = true → counter_like (raw_column df) →
  rain_to_interval_mm df = counter_intervals (raw_column df).
Proof.
  unfold rate_usable, raw_usable, rate_column, raw_column, rain_sorted, rain_to_interval_mm.
  intros -> Hraw Hgate. rewrite Hraw.
  apply andb_prop in Hraw as [_ Hany%notna_any_nonempty].
  apply (gate_is_counter_like _ Hany) in Hgate. rewrite Hgate.
  apply counter_output.
Qed.

Lemma raw_branch_passthrough df :
  rate_usable df = false → raw_usable df = true → ¬ counter_like (raw_column df) →
  rain_to_interval_mm df = raw_column df.
Proof.
  unfold rate_usable, raw_usable, rate_column, raw_column, rain_sorted, rain_to_interval_mm.
  intros -> Hraw Hgate. rewrite Hraw.
  apply andb_prop in Hraw as [_ Hany%notna_any_nonempty].
  destruct (Qc_gtb _ _) eqn:E; [|done].
  by apply (gate_is_counter_like _ Hany) in E.
Qed.

(** With every value present the gate of the code is the 90% rule on the
    successive differences, and the intervals are [max(0, diff)]. *)
Lemma raw_diff_present (vs : list Qc) j :
  (S j < length vs)%nat → is_Some (raw_diff (map Some vs) (S j)).
Proof.
  intros Hj. unfold raw_diff. rewrite !list_lookup_fmap.
  destruct (lookup_lt_is_Some_2 vs j) as [p ->]; [lia|].
  destruct (lookup_lt_is_Some_2 vs (S j)) as [x ->]; [lia|]. by eexists.
Qed.

Lemma seq_from_0 n : seq 0 (S n) = O :: seq 1 n.
Proof. done. Qed.

Lemma present_counts raw (l : list nat) :
  (∀ i, i ∈ l → is_Some (raw_diff raw i)) →
  length (omap (raw_diff raw) l) = length l
  ∧ length (filter (λ i, no_reset_at raw i = true) l)
    = length (filter (λ d, 0 ≤ d)%Qc (omap (raw_diff raw) l)).
Proof.
  induction l as [|i l IH]; intros Hall; [done|].
  destruct IH as [IH1 IH2]; [intros; apply Hall; by right|].
  destruct (Hall i) as [d Hd]; [by left|].
  assert (Hnr : no_reset_at raw i = true ↔ (0 ≤ d)%Qc).
  { unfold no_reset_at. rewrite Hd. apply bool_decide_eq_true. }
  cbn [omap list_omap]. rewrite Hd, !filter_cons.
  split; [simpl; by f_equal|].
  destruct (decide (0 ≤ d)%Qc) as [Hd0|Hd0].
  - rewrite decide_True by (by apply Hnr). simpl. by f_equal.
  - rewrite decide_False by (by rewrite Hnr). done.
Qed.

Lemma present_diffs_spec (vs : list Qc) :
  vs ≠ [] →
  let raw := map Some vs in
  S (length (spec_present_diffs raw)) = length vs
  ∧ no_reset_rows raw = S (length (filter (λ d, 0 ≤ d)%Qc (spec_present_diffs raw))).
Proof.
  intros Hne raw. unfold spec_present_diffs, no_reset_rows. subst raw. rewrite length_map.
  destruct vs as [|v vs]; [done|].
  cbn [length]. rewrite seq_from_0. set (raw := map Some (v :: vs)).
  cbn [omap list_omap]. change (raw_diff raw 0%nat) with (@None Qc). cbv iota.
  rewrite filter_cons, decide_True by done. cbn [length].
  destruct (present_counts raw (seq 1 (length vs))) as [H1 H2].
  { intros i [Hi1 Hi2]%elem_of_seq. destruct i as [|j]; [lia|].
    apply raw_diff_present. simpl. lia. }
  rewrite H1, H2, length_seq. done.
Qed.

Lemma gate_with_all_present (vs : list Qc) :
  vs ≠ [] → counter_like (map Some vs) ↔ spec_counter_like (map Some vs).
Proof.
  intros Hne. destruct (present_diffs_spec vs Hne) as [H1 H2].
  unfold counter_like, spec_counter_like. rewrite H2, length_map, <-H1. lia.
Qed.

Lemma intervals_with_all_present (vs : list Qc) :
  counter_intervals (map Some vs) = spec_counter_intervals (map Some vs).
Proof.
  unfold counter_intervals, spec_counter_intervals. apply map_ext_in.
  intros i Hi%in_seq. rewrite length_map in Hi. unfold counter_interval.
  destruct i as [|j]; [done|].
  by destruct (raw_diff_present vs j) as [d ->]; [lia|].
Qed.

Lemma raw_frame_flags vals :
  has_rain_rate_mmh (raw_frame vals) = false ∧ has_rain_raw (raw_frame vals) = true.
Proof. done. Qed.

(** The rows of a sample frame are in strictly ascending time order, so
    sorting leaves them as they are. *)
Lemma raw_rows_from_later t vals :
  Forall (λ r, t ≤ rain_Time r) (raw_rows_from t vals).
Proof.
  revert t. induction vals as [|v vals IH]; intros t; simpl; constructor; simpl; [lia|].
  eapply Forall_impl; [apply IH|]. simpl. unfold NS_PER_MINUTE, NS_PER_SECOND. lia.
Qed.

Lemma raw_rows_from_strict t vals :
  StronglySorted (λ a b, rain_Time a < rain_Time b) (raw_rows_from t vals).
Proof.
  revert t. induction vals as [|v vals IH]; intros t; simpl; constructor; [apply IH|].
  eapply Forall_impl; [apply raw_rows_from_later|]. simpl.
  unfold NS_PER_MINUTE, NS_PER_SECOND. lia.
Qed.

Lemma raw_frame_sorted vals :
  sort_values rain_Time (rain_rows (raw_frame vals)) = raw_rows_from 0 vals.
Proof. apply sort_values_strict_id, raw_rows_from_strict. Qed.

(** C1, amended: three of the four rows of [10, 12, 3, 7] have a missing or
    non-negative difference, which is not more than 90%, so the column is
    passed through as it is.  Once a column passes the gate its reset is
    clamped: ten rising values, a reset to 3, then 7, give a zero first
    interval, the differences, and zero at the reset. *)
Theorem reset_counter_passes_through :
  no_reset_rows reset_counter = 3%nat
  ∧ rain_to_interval_mm (raw_frame reset_counter) = reset_counter
  ∧ rain_to_interval_mm (raw_frame long_reset_counter)
    = [qz 0; qz 2; qz 2; qz 2; qz 2; qz 2; qz 2; qz 2; qz 2; qz 2; qz 0; qz 4].
Proof.
  split; [by vm_compute|].
  unfold rain_to_interval_mm. rewrite !raw_frame_sorted.
  split; apply cells_eqb_eq; by vm_compute.
Qed.

(** C2, amended: with no usable rate column and a raw column holding a
    value, the column is read as a cumulative counter exactly when strictly
    more than 90% of all its rows have a successive difference that is
    missing or non-negative (the first row and every row next to a missing
    value count as such).  A counter yields [max(0, diff)] per row and [0]
    where the difference is missing; anything else is passed through
    unchanged.  When no value is missing this gate is the 90% rule on the
    differences, and the intervals are the claimed ones. *)
Theorem raw_branch_follows_gate (df : RainFrame) :
  rate_usable df = false →
  raw_usable df = true →
  let raw := raw_column df in
  (counter_like raw → rain_to_interval_mm df = counter_intervals raw)
  ∧ (¬ counter_like raw → rain_to_interval_mm df = raw)
  ∧ (∀ vs : list Qc, raw = map Some vs →
       (counter_like raw ↔ spec_counter_like raw)
       ∧ counter_intervals raw = spec_counter_intervals raw).
Proof.
  intros Hrate Hraw raw. split; [|split].
  - by apply raw_branch_counter.
  - by apply raw_branch_passthrough.
  - intros vs Hvs. rewrite Hvs. split; [|apply intervals_with_all_present].
    apply gate_with_all_present. intros ->.
    unfold raw_usable in Hraw. fold raw in Hraw. rewrite Hvs in Hraw.
    by rewrite andb_false_r in Hraw.
Qed.

End raw_branch.

Section raw_branch_examples.
#[local] Existing Instance reference.

(** C1, as claimed: the column [10, 12, 3, 7] does not come out as
    [0, 2, 0, 4]. *)
Lemma reset_counter_not_clamped :
  rain_to_interval_mm (raw_frame reset_counter) ≠ [qz 0; qz 2; qz 0; qz 4].
Proof. intros H%cells_eqb_eq. vm_compute in H. discriminate. Qed.

(** C2, as claimed: a column whose only present difference is negative is
    below the 90% rule of the claim, and yet it is not passed through. *)
Lemma gappy_counter_not_passed_through :
  let df := raw_frame gappy_counter in
  rate_usable df = false
  ∧ raw_usable df = true
  ∧ ¬ spec_counter_like (raw_column df)
  ∧ rain_to_interval_mm df ≠ raw_column df.
Proof.
  split; [by vm_compute|]. split; [by vm_compute|]. split.
  - unfold spec_counter_like. vm_compute. lia.
  - intros H%cells_eqb_eq. vm_compute in H. discriminate.
Qed.

Lemma raw_branch_follows_gate_witness :
  let df := raw_frame long_reset_counter in
  rate_usable df = false
  ∧ raw_usable df = true
  ∧ rain_to_interval_mm df = counter_intervals (raw_column df).
Proof.
  split; [reflexivity|]. split; [reflexivity|].
  refine (proj1 (raw_branch_follows_gate (raw_frame long_reset_counter) _ _) _).
  - reflexivity.
  - reflexivity.
  - unfold counter_like. vm_compute. lia.
Defined.

End raw_branch_examples.

(** ** Rain conservation *)

Section conservation.
Context {R : Runtime}.

Lemma filter_all {A} (P : A → Prop) `{∀ x, Decision (P x)} (l : list A) :
  (∀ x, x ∈ l → P x) → filter P l = l.
Proof.
  induction l as [|x l IH]; intros Hall; [done|].
  rewrite filter_cons_True by (apply Hall; by left).
  f_equal. apply IH. intros; apply Hall; by right.
Qed.

Lemma Qc_diff_nonneg (p x : Qc) : (p ≤ x)%Qc → (0 ≤ x - p)%Qc.
Proof. intros H. by apply Qcle_minus_iff in H. Qed.

Lemma nondecreasing_diffs (vs : list Qc) d :
  nondecreasing vs → d ∈ spec_present_diffs (map Some vs) → (0 ≤ d)%Qc.
Proof.
  intros Hmono (i & _ & Hd)%list_elem_of_omap.
  destruct i as [|j]; [done|]. unfold raw_diff in Hd.
  rewrite !list_lookup_fmap in Hd.
  destruct (vs !! j) as [p|] eqn:Hp; [|done].
  destruct (vs !! S j) as [x|] eqn:Hx; [|done].
  simpl in Hd. injection Hd as <-.
  apply Qc_diff_nonneg. by eapply Hmono.
Qed.

Lemma nondecreasing_counter_like (vs : list Qc) :
  vs ≠ [] → nondecreasing vs → counter_like (map Some vs).
Proof.
  intros Hne Hmono. apply gate_with_all_present; [done|].
  unfold spec_counter_like.
  rewrite filter_all by (intros d; by apply nondecreasing_diffs). lia.
Qed.

Lemma nondecreasing_tail x vs : nondecreasing (x :: vs) → nondecreasing vs.
Proof. intros H i a b Ha Hb. by apply (H (S i) a b). Qed.

Lemma last_cons_default {A} (x d : A) (l : list A) :
  List.last (x :: l) d = List.last l x.
Proof.
  revert x d. induction l as [|y l IH]; intros x d; [done|].
  change (List.last (x :: y :: l) d) with (List.last (y :: l) d).
  by rewrite !IH.
Qed.

Lemma sum_counter_chain (p : Qc) (vs : list Qc) :
  nondecreasing (p :: vs) →
  Series.sum (Series.fillna 0%Qc (Series.where_ge0 (Series.diff_from (Some p) (map Some vs))))
  = (List.last vs p - p)%Qc.
Proof.
  revert p. induction vs as [|x vs IH]; intros p Hmono.
  - simpl. ring.
  - assert (Hpx : (p ≤ x)%Qc) by (by apply (Hmono O)).
    cbn [map Series.diff_from Series.where_ge0 Series.fillna Series.sum foldr].
    fold (Series.where_ge0 (Series.diff_from (Some x) (map Some vs))).
    fold (Series.fillna 0%Qc (Series.where_ge0 (Series.diff_from (Some x) (map Some vs)))).
    fold (Series.sum (Series.fillna 0%Qc (Series.where_ge0 (Series.diff_from (Some x) (map Some vs))))).
    rewrite (IH x) by (by eapply nondecreasing_tail).
    assert (Qc_geb (x - p) 0 = true) as ->
      by (by apply bool_decide_eq_true, Qc_diff_nonneg).
    rewrite last_cons_default. ring.
Qed.

(** C5: a raw counter column with every value present that never goes down
    is read as a counter, and its interval values add up to the last value
    minus the first.  (Values are exact rationals, so the sum is exact.) *)
Theorem rain_conservation (df : RainFrame) (first : Qc) (rest : list Qc) :
  rate_usable df = false →
  has_rain_raw df = true →
  raw_column df = map Some (first :: rest) →
  nondecreasing (first :: rest) →
  Series.sum (rain_to_interval_mm df) = (List.last rest first - first)%Qc.
Proof.
  intros Hrate Hcol Hraw Hmono.
  rewrite raw_branch_counter; try done.
  - rewrite <-counter_output, Hraw.
    cbn [map Series.diff Series.where_ge0 Series.fillna Series.sum foldr].
    rewrite Qcplus_0_l. by apply sum_counter_chain.
  - unfold raw_usable. by rewrite Hcol, Hraw.
  - rewrite Hraw. by apply nondecreasing_counter_like.
Qed.

End conservation.

Section conservation_examples.
#[local] Existing Instance reference.

Lemma rain_conservation_witness :
  let df := raw_frame [qz 10; qz 12; qz 12; qz 17] in
  Series.sum (rain_to_interval_mm df) = (Qc_of_Z 17 - Qc_of_Z 10)%Qc.
Proof.
  apply (rain_conservation (raw_frame [qz 10; qz 12; qz 12; qz 17])
           (Qc_of_Z 10) [Qc_of_Z 12; Qc_of_Z 12; Qc_of_Z 17]).
  - reflexivity.
  - reflexivity.
  - reflexivity.
  - intros [|[|[|[|i]]]] x y Hx Hy; simplify_eq/=; by vm_compute.
Defined.

End conservation_examples.

(** ** The rate branch of the rain normalizer *)

Section rate_branch.
Context {R : Runtime}.

Lemma time_diff_from_lookup prev ts i t :
  ts !! i = Some t →
  Series.time_diff_from prev ts !! i =
    Some (Some (Series.hours_of_ns (t - match i with O => prev | S j => default 0 (ts !! j) end))).
Proof.
  revert prev i. induction ts as [|t0 ts IH]; intros prev i Hi; [done|].
  destruct i as [|i]; cbn [Series.time_diff_from].
  - rewrite lookup_cons in Hi. simpl. by injection Hi as ->.
  - rewrite lookup_cons in Hi. rewrite !lookup_cons.
    rewrite (IH t0 i Hi). by destruct i.
Qed.

Lemma mul_lookup a b i x y :
  a !! i = Some x → b !! i = Some y →
  Series.mul a b !! i =
    Some (match x, y with Some u, Some v => Some (u * v)%Qc | _, _ => None end).
Proof.
  revert b i. induction a as [|x0 a IH]; intros [|y0 b] i Ha Hb; try done.
  destruct i as [|i]; cbn [Series.mul].
  - rewrite lookup_cons in Ha, Hb. simpl. by simplify_eq.
  - rewrite lookup_cons in Ha, Hb. rewrite lookup_cons. by apply IH.
Qed.

Lemma elapsed_lookup (rows : list RainRow) i r :
  rows !! i = Some r →
  Series.fillna 0%Qc (Series.time_diff_hours (map rain_Time rows)) !! i
  = Some (Some (elapsed_hours rows i)).
Proof.
  intros Hi. unfold Series.fillna. rewrite list_lookup_fmap.
  destruct rows as [|r0 rows]; [done|].
  destruct i as [|i]; [done|].
  rewrite lookup_cons in Hi.
  cbn [map Series.time_diff_hours]. rewrite lookup_cons.
  rewrite (time_diff_from_lookup _ _ i (rain_Time r)) by (by rewrite list_lookup_fmap, Hi).
  unfold elapsed_hours. rewrite !lookup_cons, Hi. simpl. do 3 f_equal.
  destruct i as [|i]; [done|].
  rewrite list_lookup_fmap.
  destruct (rows !! i) eqn:E; [done|].
  apply lookup_ge_None in E. apply lookup_lt_Some in Hi. lia.
Qed.

Lemma mul_length a b : length a = length b → length (Series.mul a b) = length a.
Proof.
  revert b. induction a as [|x a IH]; intros [|y b] H; simpl in *; try done.
  f_equal. apply IH. lia.
Qed.

Lemma time_diff_hours_length ts : length (Series.time_diff_hours ts) = length ts.
Proof.
  destruct ts as [|t ts]; [done|]. simpl. f_equal.
  revert t. induction ts as [|t' ts IH]; intros t; simpl; [done | by f_equal].
Qed.

(** Every row of the rate branch: the rate, zero when missing, times the
    hours since the previous row, never below zero. *)
Lemma rate_branch_lookup df i r :
  rate_usable df = true →
  rain_sorted df !! i = Some r →
  rain_to_interval_mm df !! i
  = Some (Some (Qc_max 0 (default 0%Qc (rain_rate_mmh r) * elapsed_hours (rain_sorted df) i))).
Proof.
  unfold rate_usable, rate_column, rain_sorted, rain_to_interval_mm.
  intros -> Hi. unfold Series.clamp_negative. rewrite list_lookup_fmap.
  rewrite (mul_lookup _ _ i (Some (default 0%Qc (rain_rate_mmh r)))
             (Some (elapsed_hours (sort_values rain_Time (rain_rows df)) i))).
  - simpl. rewrite <-clamp_is_max. by destruct (Qc_ltb _ _).
  - unfold Series.fillna. rewrite !list_lookup_fmap, Hi. simpl.
    by destruct (rain_rate_mmh r).
  - by eapply elapsed_lookup.
Qed.

Lemma rate_branch_length df :
  rate_usable df = true → length (rain_to_interval_mm df) = length (rain_sorted df).
Proof.
  unfold rate_usable, rate_column, rain_sorted, rain_to_interval_mm.
  intros ->. unfold Series.clamp_negative. rewrite length_map, mul_length.
  - unfold Series.fillna. by rewrite !length_map.
  - unfold Series.fillna. by rewrite !length_map, time_diff_hours_length, length_map.
Qed.




(** C10: in the rate branch every interval value is present and not
    negative, and a row whose rate is missing gets 0. *)
Theorem rate_branch_never_missing (df : RainFrame) :
  rate_usable df = true →
  Forall (λ c, ∃ v : Qc, c = Some v ∧ (0 ≤ v)%Qc) (rain_to_interval_mm df)
  ∧ (∀ i r, rain_sorted df !! i = Some r → rain_rate_mmh r = None →
       rain_to_interval_mm df !! i = Some (Some 0%Qc)).
Proof.
  intros Hrate. split.
  - apply Forall_lookup. intros i c Hc.
    destruct (lookup_lt_is_Some_2 (rain_sorted df) i) as [r Hr].
    { rewrite <-rate_branch_length by done. by eapply lookup_lt_Some. }
    rewrite (rate_branch_lookup df i r Hrate Hr) in Hc. injection Hc as <-.
    eexists. split; [done | apply Qc_max_0_nonneg].
  - intros i r Hr Hnone. rewrite (rate_branch_lookup df i r Hrate Hr), Hnone.
    simpl. by rewrite Qcmult_0_l, Qc_max_0_of_nonneg by apply Qcle_refl.
Qed.

End rate_branch.

Section rate_branch_examples.
#[local] Existing Instance reference.


Lemma rate_branch_never_missing_witness :
  let df := rate_frame [(0, qz 0); (20 * NS_PER_MINUTE, qz 3); (30 * NS_PER_MINUTE, None)] in
  rate_usable df = true
  ∧ rain_to_interval_mm df !! 2%nat = Some (Some 0%Qc).
Proof.
  split; [reflexivity|].
  refine (proj2 (rate_branch_never_missing
    (rate_frame [(0, qz 0); (20 * NS_PER_MINUTE, qz 3); (30 * NS_PER_MINUTE, None)]) _)
    2%nat _ _ _).
  - reflexivity.
  - reflexivity.
  - reflexivity.
Defined.

End rate_branch_examples.

(** ** The master store *)

Section master_store.
Context {R : Runtime}.

Lemma set_windheading_same r : set_windheading (windheading r) r = r.
Proof. by destruct r. Qed.

Lemma set_windheading_Time h r : Time (set_windheading h r) = Time r.
Proof. done. Qed.

Lemma ffill_from_times last l : map Time (ffill_from last l) = map Time l.
Proof.
  revert last. induction l as [|r l IH]; intros last; [done|]. simpl.
  destruct (windheading r); simpl; by rewrite IH.
Qed.

Lemma ffill_from_length last l : length (ffill_from last l) = length l.
Proof. by rewrite <-(length_map Time), ffill_from_times, length_map. Qed.

Lemma ffill_from_lookup last l i r :
  l !! i = Some r →
  ffill_from last l !! i =
    Some (set_windheading
            (filled_heading (match i with
                             | O => last
                             | S j => ffill_from last l !! j ≫= windheading
                             end) r) r).
Proof.
  revert last i. induction l as [|r0 l IH]; intros last i Hi; [done|].
  destruct i as [|i].
  - rewrite lookup_cons in Hi. injection Hi as ->. unfold filled_heading. simpl.
    destruct (windheading r) eqn:E; simpl; [|done].
    by rewrite <-E, set_windheading_same.
  - rewrite lookup_cons in Hi. simpl.
    destruct (windheading r0) eqn:E; rewrite lookup_cons.
    + rewrite (IH _ i Hi). destruct i; simpl; by rewrite ?E.
    + rewrite (IH _ i Hi). by destruct i.
Qed.

Lemma strictly_sorted_keys {A} (key : A → Z) (l : list A) :
  StronglySorted (λ a b, key a < key b) l ↔ StronglySorted Z.lt (map key l).
Proof.
  induction l as [|x l IH]; simpl.
  - split; constructor.
  - split; inversion_clear 1 as [|?? Hs Hall]; constructor; try (by apply IH).
    + rewrite Forall_forall in Hall. apply Forall_forall.
      intros k (y & -> & Hy)%list_elem_of_fmap. by apply Hall.
    + rewrite Forall_forall in Hall. apply Forall_forall.
      intros y Hy. by apply Hall, list_elem_of_fmap_2.
Qed.

(** What [reconcile] saves: the last row of every timestamp, ascending,
    with the headings filled forward.  The three sorts after the first
    find the frame already sorted. *)
Lemma reconcile_archive master merged :
  (reconcile master merged).1
  = ffill_windheading (drop_duplicates_last Time (sort_values Time (master ++ merged))).
Proof.
  unfold reconcile. simpl.
  set (d := drop_duplicates_last Time (sort_values Time (master ++ merged))).
  assert (Hd : StronglySorted (λ a b, Time a < Time b) d)
    by apply drop_duplicates_last_strict, sort_values_sorted.
  rewrite (sort_values_strict_id Time d) by done.
  apply sort_values_strict_id, strictly_sorted_keys.
  unfold ffill_windheading. rewrite ffill_from_times.
  exact (proj1 (strictly_sorted_keys Time d) Hd).
Qed.

Lemma group_app {A} (key : A → Z) k (l1 l2 : list A) :
  group key k (l1 ++ l2) = group key k l1 ++ group key k l2.
Proof. unfold group. apply filter_app. Qed.

Lemma last_group_elem {A} (key : A → Z) k (l : list A) r :
  last (group key k l) = Some r → r ∈ l ∧ key r = k.
Proof. intros H%last_Some_elem_of. by apply group_elem_of in H. Qed.

(** The rows the deduplication keeps: one of every timestamp, each a row
    of the archive or of the batch. *)
Lemma kept_rows_strict master merged :
  StronglySorted (λ a b, Time a < Time b)
    (drop_duplicates_last Time (sort_values Time (master ++ merged))).
Proof. apply drop_duplicates_last_strict, sort_values_sorted. Qed.

Lemma kept_rows_times master merged t :
  t ∈ map Time (drop_duplicates_last Time (sort_values Time (master ++ merged)))
  ↔ t ∈ map Time (master ++ merged).
Proof. by rewrite drop_duplicates_last_keys, (sort_values_perm Time (master ++ merged)). Qed.

Lemma kept_rows_elem master merged r :
  r ∈ drop_duplicates_last Time (sort_values Time (master ++ merged)) → r ∈ master ++ merged.
Proof.
  intros Hr. apply (sort_values_elem Time).
  eapply elem_of_sublist; [done | apply drop_duplicates_last_sublist].
Qed.

(** A timestamp that a single row carries leaves no choice. *)
Lemma kept_rows_only master merged r :
  group Time (Time r) (master ++ merged) = [r] →
  r ∈ drop_duplicates_last Time (sort_values Time (master ++ merged)).
Proof.
  intros Hg.
  assert (Ht : Time r ∈ map Time (drop_duplicates_last Time (sort_values Time (master ++ merged)))).
  { apply kept_rows_times, group_not_nil. by rewrite Hg. }
  apply list_elem_of_fmap in Ht as (a & Hta & Ha).
  assert (a ∈ group Time (Time r) (master ++ merged)) as Hag.
  { apply group_elem_of. split; [by apply kept_rows_elem | done]. }
  rewrite Hg in Hag. by apply list_elem_of_singleton in Hag as <-.
Qed.

(** C3: merging a batch yields an archive in strictly ascending time order,
    so with one reading per timestamp, holding exactly the timestamps of
    the old archive and the batch, and the two counts are as claimed.
    Every saved reading is a reading of the archive or of the batch with
    its timestamp, its wind heading filled forward when it has none; a
    reading that is alone with its timestamp is the one saved.  Which
    reading is saved for a timestamp that the archive and the batch share
    depends on the order in which [sort_values] leaves equal timestamps,
    and the sort does not fix it: from an archive of sixteen minutes and a
    batch that reports minute 5 again, a sort that keeps equal timestamps
    in their order saves the batch's reading, and one that reverses them
    saves the archive's, every reading of the old archive unchanged. *)
Theorem reconcile_one_reading_per_time (master merged : list Reading) :
  let archive := (reconcile master merged).1 in
  let report := (reconcile master merged).2 in
  StronglySorted (λ a b, Time a < Time b) archive
  ∧ (∀ t, t ∈ map Time archive ↔ t ∈ map Time (master ++ merged))
  ∧ (∀ i a, archive !! i = Some a →
       ∃ r, r ∈ master ++ merged
            ∧ Time r = Time a
            ∧ a = set_windheading
                    (filled_heading (match i with
                                     | O => None
                                     | S j => archive !! j ≫= windheading
                                     end) r) r)
  ∧ (∀ r, group Time (Time r) (master ++ merged) = [r] →
       ∃ a, a ∈ archive
            ∧ a = set_windheading (windheading a) r
            ∧ (is_Some (windheading r) → a = r))
  ∧ imported_rows report = length merged
  ∧ dedup_removed report
    = Z.of_nat (length master) + Z.of_nat (length merged) - Z.of_nat (length archive)
  ∧ Time (reading (5 * NS_PER_MINUTE) (qz 2) (qz 180)) ∈ map Time sixteen_minutes
  ∧ (reconcile (R := reference) sixteen_minutes [reading (5 * NS_PER_MINUTE) (qz 2) (qz 180)]).1
      !! 5%nat = Some (reading (5 * NS_PER_MINUTE) (qz 2) (qz 180))
  ∧ (reconcile (R := ties_reversed) sixteen_minutes
       [reading (5 * NS_PER_MINUTE) (qz 2) (qz 180)]).1 = sixteen_minutes.
Proof.
  intros archive report.
  assert (Harch : archive = ffill_windheading
            (drop_duplicates_last Time (sort_values Time (master ++ merged))))
    by apply reconcile_archive.
  set (d := drop_duplicates_last Time (sort_values Time (master ++ merged))) in *.
  unfold ffill_windheading in Harch. clearbody archive.
  assert (Hlookup : ∀ i a, archive !! i = Some a →
            ∃ r, d !! i = Some r ∧
                 a = set_windheading
                       (filled_heading (match i with
                                        | O => None
                                        | S j => archive !! j ≫= windheading
                                        end) r) r).
  { intros i a Ha. destruct (lookup_lt_is_Some_2 d i) as [r Hr].
    { apply lookup_lt_Some in Ha. by rewrite Harch, ffill_from_length in Ha. }
    exists r. split; [done|].
    rewrite Harch in Ha |- *.
    rewrite (ffill_from_lookup None d i r Hr) in Ha. by injection Ha as <-. }
  split; [|split; [|split; [|split; [|split; [|split; [|split; [|split]]]]]]].
  - rewrite Harch. apply (proj2 (strictly_sorted_keys Time _)).
    rewrite ffill_from_times. apply (proj1 (strictly_sorted_keys Time _)).
    apply kept_rows_strict.
  - intros t. rewrite Harch, ffill_from_times. apply kept_rows_times.
  - intros i a Ha. destruct (Hlookup i a Ha) as (r & Hr & ->).
    exists r. split; [|by split].
    apply kept_rows_elem. by eapply list_elem_of_lookup_2.
  - intros r Hg.
    assert (Hr : r ∈ d) by (by apply kept_rows_only).
    apply list_elem_of_lookup in Hr as [i Hi].
    destruct (lookup_lt_is_Some_2 archive i) as [a Ha].
    { rewrite Harch, ffill_from_length.
      by eapply lookup_lt_Some. }
    destruct (Hlookup i a Ha) as (r' & Hr' & Heq).
    rewrite Hi in Hr'. injection Hr' as <-.
    exists a. split; [by eapply list_elem_of_lookup_2|].
    rewrite Heq. split; [done|].
    intros [h Hh]. unfold filled_heading. rewrite Hh, <-Hh. apply set_windheading_same.
  - done.
  - unfold report, reconcile. simpl. fold d.
    by rewrite Harch, ffill_from_length.
  - apply list_elem_of_In. vm_compute. tauto.
  - by vm_compute.
  - by vm_compute.
Qed.

End master_store.

Section master_store_examples.
#[local] Existing Instance reference.

(** A batch that reports a minute of the archive again without a heading:
    with a sort that keeps equal timestamps in their order the saved
    reading of that minute has the batch's temperature and the heading
    of the minute before, filled forward. *)
Lemma batch_reading_gets_filled :
  let batch_row := reading NS_PER_MINUTE (qz 2) None in
  batch_row ∈ new_batch
  ∧ Time batch_row ∈ map Time old_archive
  ∧ (reconcile old_archive new_batch).1
    = [reading 0 (qz 1) (qz 90); reading NS_PER_MINUTE (qz 2) (qz 90)]
  ∧ reading NS_PER_MINUTE (qz 2) (qz 90) ≠ batch_row.
Proof.
  split; [by left|]. split; [by right; left|]. split; [by vm_compute|].
  intros [=].
Qed.

End master_store_examples.

(** ** Locating the timestamp column *)

Section time_column.
Context {R : Runtime}.

Local Open Scope string_scope.

Lemma contains_nonempty kw s : kw ≠ "" → contains kw s = true → s ≠ "".
Proof. intros Hkw H ->. by destruct kw. Qed.

Lemma find_col_Some cols kws c :
  find_col cols kws = Some c →
  c ∈ cols ∧ ∃ kw, kw ∈ kws ∧ contains kw (lower c) = true.
Proof.
  intros [Hin Hex]%find_some. split; [by apply list_elem_of_In|].
  apply existsb_exists in Hex as (kw & Hkw & Hc). exists kw.
  split; [by apply list_elem_of_In | done].
Qed.

Lemma find_col_None cols kws :
  find_col cols kws = None ↔ ∀ c kw, c ∈ cols → kw ∈ kws → contains kw (lower c) = false.
Proof.
  split.
  - intros Hnone c kw Hc Hkw.
    pose proof (find_none _ _ Hnone c (proj1 (list_elem_of_In _ _) Hc)) as H.
    simpl in H. destruct (contains kw (lower c)) eqn:E; [|done].
    rewrite <-H. symmetry. apply existsb_exists. exists kw.
    split; [by apply list_elem_of_In | done].
  - intros Hall. destruct (find_col cols kws) as [c|] eqn:E; [|done].
    apply find_col_Some in E as (Hc & kw & Hkw & Hm).
    by rewrite (Hall c kw Hc Hkw) in Hm.
Qed.

Lemma find_col_one cols kw :
  (∃ c, c ∈ cols ∧ contains kw (lower c) = true) ↔ is_Some (find_col cols [kw]).
Proof.
  split.
  - intros (c & Hc & Hm). destruct (find_col cols [kw]) eqn:E; [done|].
    rewrite find_col_None in E. rewrite (E c kw Hc) in Hm; [done | by left].
  - intros [c (Hc & kw' & Hkw & Hm)%find_col_Some].
    apply list_elem_of_singleton in Hkw as ->. eauto.
Qed.

(** C8, amended: the timestamps come from the column named exactly [Time]
    (this spelling) when there is one; otherwise from the first column whose
    lower-cased name contains "date" joined with the first whose lower-cased
    name contains "time", when both exist; and the file is refused with
    [MissingTimeColumn] exactly when there is no [Time] column and a
    date-like or a time-like column is missing. *)
Theorem locate_time_outcome (cols : list string) :
  let date_like := ∃ c, c ∈ cols ∧ contains "date" (lower c) = true in
  let time_like := ∃ c, c ∈ cols ∧ contains "time" (lower c) = true in
  ("Time" ∈ cols → locate_time cols = Ok TimeColumn)
  ∧ ("Time" ∉ cols → date_like → time_like →
       ∃ d t, locate_time cols = Ok (DateAndTime d t)
              ∧ find_col cols ["date"] = Some d ∧ find_col cols ["time"] = Some t)
  ∧ (locate_time cols = Raise MissingTimeColumn
     ↔ ("Time" ∉ cols) ∧ ¬ (date_like ∧ time_like)).
Proof.
  intros date_like time_like. unfold locate_time.
  assert (Htruthy : ∀ kw c, kw ≠ "" → find_col cols [kw] = Some c → bool_decide (c ≠ "") = true).
  { intros kw c Hkw (Hc & kw' & Hin & Hm)%find_col_Some.
    apply list_elem_of_singleton in Hin as ->.
    apply bool_decide_eq_true. intros ->.
    rewrite lower_ascii in Hm by done. by destruct kw. }
  split; [|split].
  - intros Hin. by rewrite bool_decide_eq_false_2 by (by intros ?).
  - intros Hnot [d Hd]%find_col_one [t Ht]%find_col_one.
    rewrite bool_decide_eq_true_2 by done. rewrite Hd, Ht.
    rewrite (Htruthy "date" d), (Htruthy "time" t) by done. simpl. eauto.
  - case_bool_decide as Htime.
    + destruct (find_col cols ["date"]) as [d|] eqn:Hd.
      * destruct (find_col cols ["time"]) as [t|] eqn:Ht.
        -- rewrite (Htruthy "date" d), (Htruthy "time" t) by done. simpl.
           split; [done|]. intros [_ Hno]. exfalso. apply Hno.
           split; apply find_col_one; by eexists.
        -- split; [|done]. intros _. split; [done|].
           intros [_ Hl%find_col_one]. rewrite Ht in Hl. by destruct Hl.
      * split; [|done]. intros _. split; [done|].
        intros [Hl%find_col_one _]. rewrite Hd in Hl. by destruct Hl.
    + split; [done|]. by intros [? _].
Qed.

Local Close Scope string_scope.

End time_column.

Section time_column_examples.
#[local] Existing Instance reference.

(** C8, as claimed: a file whose timestamp column is named [time] in lower
    case, with no date column, is refused. *)
Lemma lower_case_time_refused :
  "time" ∈ map lower ["time"; "Temperature"]
  ∧ locate_time ["time"; "Temperature"] = Raise MissingTimeColumn
  ∧ locate_time ["TIME"; "Temperature"] = Raise MissingTimeColumn.
Proof. split; [by left|]. split; by vm_compute. Qed.

End time_column_examples.

(** ** Combining the intake files *)

Section intake.
Context {R : Runtime}.

Lemma insert_by_name_perm f l : insert_sorted name_leb f l ≡ₚ f :: l.
Proof.
  induction l as [|g l IH]; [done|]. simpl.
  destruct (name_leb f g); [done|]. rewrite IH. apply Permutation_swap.
Qed.

Lemma sorted_files_perm files : sorted_files files ≡ₚ files.
Proof.
  unfold sorted_files, sort_by. induction files as [|f files IH]; [done|].
  simpl. rewrite insert_by_name_perm. by f_equiv.
Qed.

Lemma insert_by_name_sorted f l :
  Sorted (λ a b, name_leb a b = true) l →
  Sorted (λ a b, name_leb a b = true) (insert_sorted name_leb f l).
Proof.
  induction 1 as [|g l Hl IH Hhd]; simpl; [by repeat constructor|].
  destruct (name_leb f g) eqn:Hfg; [by repeat constructor|].
  assert (Hgf : name_leb g f = true).
  { destruct (String.leb_total (file_name f) (file_name g)) as [H|H]; [|done].
    unfold name_leb in Hfg. by rewrite H in Hfg. }
  constructor; [done|].
  destruct Hhd as [|h l Hgh]; simpl; [by repeat constructor|].
  by destruct (name_leb f h); constructor.
Qed.

Lemma sorted_files_sorted files :
  Sorted (λ a b, name_leb a b = true) (sorted_files files).
Proof.
  unfold sorted_files, sort_by.
  induction files as [|f files IH]; [constructor|]. simpl.
  by apply insert_by_name_sorted.
Qed.

Lemma map_result_Forall2 {A B} (f : A → result B) l ys :
  map_result f l = Ok ys → Forall2 (λ x y, f x = Ok y) l ys.
Proof.
  revert ys. induction l as [|x l IH]; intros ys H; simpl in H.
  - injection H as <-. constructor.
  - destruct (f x) as [y|] eqn:Hx; [|done]. simpl in H.
    destruct (map_result f l) as [ys'|]; [|done]. simpl in H.
    injection H as <-. constructor; [done | by apply IH].
Qed.

Lemma combine_met_group t parts :
  group met_Time t (met_rows (combine_met parts))
  = take 1 (group met_Time t (concat (map met_rows parts))).
Proof.
  destruct parts as [|p parts]; [done|].
  unfold combine_met. cbn [met_rows concat_met].
  rewrite sort_values_group_short; rewrite drop_duplicates_first_group; [done|].
  rewrite length_take. lia.
Qed.

Lemma dedup_rain_group t parts :
  group rain_Time t (rain_rows (dedup_rain parts))
  = take 1 (group rain_Time t (concat (map rain_rows parts))).
Proof.
  unfold dedup_rain. cbn [rain_rows concat_rain].
  rewrite sort_values_group_short; rewrite drop_duplicates_first_group; [done|].
  rewrite length_take. lia.
Qed.

(** The first frame that has the timestamp supplies the row. *)
Lemma first_frame_wins {A F} (key : A → Z) (rows : F → list A) t
    (before : list F) (X : F) (after : list F) r :
  Forall (λ B, t ∉ map key (rows B)) before →
  head (group key t (rows X)) = Some r →
  take 1 (group key t (concat (map rows (before ++ X :: after)))) = [r].
Proof.
  intros Hbefore Hhead.
  rewrite map_app, concat_app, group_app. simpl. rewrite group_app.
  assert (group key t (concat (map rows before)) = []) as ->.
  { induction Hbefore as [|B before HB _ IH]; [done|].
    simpl. rewrite group_app, IH. by apply group_nil in HB as ->. }
  apply head_Some in Hhead as [g ->]. done.
Qed.

(** The frames of one kind, in the order of the files they were parsed
    from. *)
Lemma parts_of_files {F} (pick : Parsed → option F) (fs : list CsvFile) (ps : list Parsed)
    (P : F → Prop) :
  Forall2 (λ f p, parse_station_csv f = Ok p) fs ps →
  (∀ g p X, g ∈ fs → parse_station_csv g = Ok p → pick p = Some X → P X) →
  Forall P (omap pick ps).
Proof.
  intros Hall HP. apply Forall_forall. intros X (p & Hp & HX)%list_elem_of_omap.
  apply list_elem_of_lookup in Hp as [i Hi].
  destruct (Forall2_lookup_r _ _ _ _ _ Hall Hi) as (g & Hg & Hgp).
  eapply HP; [by eapply list_elem_of_lookup_2 | done | done].
Qed.

Lemma parts_of_split {F} (pick : Parsed → option F) (before : list CsvFile) (f : CsvFile)
    (after : list CsvFile) (parsed : list Parsed) (p : Parsed) (X : F) :
  Forall2 (λ f p, parse_station_csv f = Ok p) (before ++ f :: after) parsed →
  parse_station_csv f = Ok p → pick p = Some X →
  ∃ pb pa, Forall2 (λ f p, parse_station_csv f = Ok p) before pb
           ∧ omap pick parsed = omap pick pb ++ X :: omap pick pa.
Proof.
  intros Hall Hf HX.
  apply Forall2_app_inv_l in Hall as (pb & rest & Hb & Hrest & ->).
  apply Forall2_cons_inv_l in Hrest as (p' & pa & Hp' & Ha & ->).
  exists pb, pa. split; [done|].
  rewrite omap_app. cbn [omap list_omap].
  assert (p' = p) as -> by congruence. by rewrite HX.
Qed.

(** C9: the intake files are parsed in file-name order, the rows of each
    kind are concatenated in that order, and of the rows with one raw
    timestamp only the first is kept.  So when a file of a kind has a
    timestamp that no file of that kind before it in name order has, the
    combined frame holds, for that timestamp, the first row of this file
    that has it and nothing else: rows with the timestamp further down the
    file or in files after it are discarded. *)
Theorem first_file_wins (files : list CsvFile) (parsed : list Parsed) :
  map_result parse_station_csv (sorted_files files) = Ok parsed →
  (Sorted (λ a b, name_leb a b = true) (sorted_files files)
   ∧ sorted_files files ≡ₚ files)
  ∧ (∀ t before f after df r,
       sorted_files files = before ++ f :: after →
       parse_station_csv f = Ok (ParsedMet df) →
       (∀ g dg, g ∈ before → parse_station_csv g = Ok (ParsedMet dg) →
                t ∉ map met_Time (met_rows dg)) →
       head (group met_Time t (met_rows df)) = Some r →
       group met_Time t (met_rows (combine_met (met_parts_of parsed))) = [r])
  ∧ (∀ t before f after df r,
       sorted_files files = before ++ f :: after →
       parse_station_csv f = Ok (ParsedRain df) →
       (∀ g dg, g ∈ before → parse_station_csv g = Ok (ParsedRain dg) →
                t ∉ map rain_Time (rain_rows dg)) →
       head (group rain_Time t (rain_rows df)) = Some r →
       group rain_Time t (rain_rows (dedup_rain (rain_parts_of parsed))) = [r]).
Proof.
  intros Hparsed%map_result_Forall2.
  split; [|split].
  - split; [apply sorted_files_sorted | apply sorted_files_perm].
  - intros t before f after df r Hsplit Hf Hbefore Hhead. rewrite Hsplit in Hparsed.
    destruct (parts_of_split
                (λ p, match p with ParsedMet df => Some df | ParsedRain _ => None end)
                before f after parsed _ df Hparsed Hf eq_refl) as (pb & pa & Hb & Hparts).
    unfold met_parts_of. rewrite Hparts, combine_met_group.
    apply first_frame_wins; [|done].
    apply (parts_of_files _ before pb); [done|].
    intros g p X Hg Hgp HX. destruct p as [dg|]; [|done]. injection HX as <-.
    by eapply Hbefore.
  - intros t before f after df r Hsplit Hf Hbefore Hhead. rewrite Hsplit in Hparsed.
    destruct (parts_of_split
                (λ p, match p with ParsedRain df => Some df | ParsedMet _ => None end)
                before f after parsed _ df Hparsed Hf eq_refl) as (pb & pa & Hb & Hparts).
    unfold rain_parts_of. rewrite Hparts, dedup_rain_group.
    apply first_frame_wins; [|done].
    apply (parts_of_files _ before pb); [done|].
    intros g p X Hg Hgp HX. destruct p as [|dg]; [done|]. injection HX as <-.
    by eapply Hbefore.
Qed.

End intake.

Section intake_examples.
#[local] Existing Instance reference.

(** Minute 2 is reported by [a.csv] with 11 degrees and by [b.csv] with 99;
    minute 3 by [b.csv] alone. *)
Lemma first_file_wins_witness :
  map_result parse_station_csv (sorted_files demo_intake) = Ok demo_parsed
  ∧ group met_Time (2 * NS_PER_MINUTE) (met_rows (combine_met (met_parts_of demo_parsed)))
    = [met_row (2 * NS_PER_MINUTE) (qz 11) None None]
  ∧ group met_Time (3 * NS_PER_MINUTE) (met_rows (combine_met (met_parts_of demo_parsed)))
    = [met_row (3 * NS_PER_MINUTE) (qz 12) None None].
Proof.
  assert (Hrun : map_result parse_station_csv (sorted_files demo_intake) = Ok demo_parsed)
    by reflexivity.
  split; [exact Hrun|]. split.
  - refine (proj1 (proj2 (first_file_wins demo_intake demo_parsed Hrun))
              (2 * NS_PER_MINUTE) []
              (csv "a.csv" ["Time"; "Temperature"] [["1"; "10"]; ["2"; "11"]])
              _ _ _ _ _ _ _).
    + reflexivity.
    + reflexivity.
    + intros g dg Hg. by apply elem_of_nil in Hg.
    + reflexivity.
  - refine (proj1 (proj2 (first_file_wins demo_intake demo_parsed Hrun))
              (3 * NS_PER_MINUTE)
              [csv "a.csv" ["Time"; "Temperature"] [["1"; "10"]; ["2"; "11"]]]
              (csv "b.csv" ["Time"; "Temperature"] [["2"; "99"]; ["3"; "12"]])
              _ _ _ _ _ _ _).
    + reflexivity.
    + reflexivity.
    + intros g dg ->%list_elem_of_singleton Hg. vm_compute in Hg. injection Hg as <-.
      vm_compute. intros Hin. apply list_elem_of_In in Hin. simpl in Hin.
      destruct Hin as [[=]|[[=]|[]]].
    + reflexivity.
Defined.

End intake_examples.

(** ** Runs with an empty intake *)

Section empty_runs.
Context {R : Runtime}.

Lemma write_month_fold (l : list (Z * Z * MonthJson)) (s : Store) :
  let s' := foldl (λ s f, write_month f s) s l in
  importer s' = importer s
  ∧ weather_parquet s' = weather_parquet s
  ∧ manifest_json s' = manifest_json s
  ∧ snow_parquet s' = snow_parquet s
  ∧ data_months s' = foldl (λ m f, <[f.1 := f.2]> m) (data_months s) l.
Proof.
  revert s. induction l as [|f l IH]; intros s; [done|].
  simpl. destruct (IH (write_month f s)) as (-> & -> & -> & -> & ->). done.
Qed.

Lemma generate_monthly_json_fields (s : Store) :
  let s' := (generate_monthly_json s).1 in
  importer s' = importer s
  ∧ weather_parquet s' = weather_parquet s
  ∧ manifest_json s' = manifest_json s
  ∧ snow_parquet s' = snow_parquet s
  ∧ data_months s' = write_months (load_master s) (data_months s).
Proof.
  unfold generate_monthly_json, write_months.
  destruct (load_master s) as [|r master] eqn:E; [done|].
  apply write_month_fold.
Qed.

Lemma insert_all_union (l : list (Z * Z * MonthJson)) (m : gmap (Z * Z) MonthJson) :
  foldl (λ m f, <[f.1 := f.2]> m) m l = foldl (λ m f, <[f.1 := f.2]> m) ∅ l ∪ m.
Proof.
  revert m. induction l as [|f l IH]; intros m; simpl.
  - by rewrite (left_id_L ∅ (∪)).
  - rewrite (IH (<[f.1:=f.2]> m)), (IH (<[f.1:=f.2]> ∅)).
    by rewrite insert_empty, insert_union_singleton_l, (assoc_L (∪)).
Qed.

(** Writing the same extracts twice is writing them once. *)
Lemma write_months_idemp master m :
  write_months master (write_months master m) = write_months master m.
Proof.
  unfold write_months. destruct master as [|r master]; [done|].
  rewrite (insert_all_union _ (foldl _ m _)), (insert_all_union _ m).
  by rewrite (assoc_L (∪)), (idemp_L (∪)).
Qed.

Lemma ingest_snow_file_fields s s' n :
  ingest_snow_file s = Ok (s', n) →
  importer s' = importer s
  ∧ weather_parquet s' = weather_parquet s
  ∧ data_months s' = data_months s
  ∧ manifest_json s' = manifest_json s.
Proof.
  unfold ingest_snow_file. intros H.
  destruct (sno_csv s) as [f|]; [|by injection H as <- <-].
  destruct (read_csv_any_encoding f) as [df|]; [|done]. simpl in H.
  destruct (find _ _) as [date_col|]; [|done].
  destruct (find _ _) as [snow_col|]; [|done].
  destruct (sort_values snow_Time _) as [|r out]; [by injection H as <- <-|].
  by injection H as <- <-.
Qed.

Lemma after_snow_fields s :
  let s' := match ingest_snow_file s with
            | Ok (s', _) => s'
            | Raise _ => s
            end in
  importer s' = importer s
  ∧ weather_parquet s' = weather_parquet s
  ∧ data_months s' = data_months s
  ∧ manifest_json s' = manifest_json s.
Proof.
  destruct (ingest_snow_file s) as [[s' n]|] eqn:E; [|done].
  by eapply ingest_snow_file_fields.
Qed.

Lemma ingest_empty_intake s :
  importer s = [] →
  ingest_import_folder s
  = Ok (s, ({| imported_rows := 0; dedup_removed := 0 |}, NoBundle)).
Proof. unfold ingest_import_folder. by intros ->. Qed.

(** What a run with an empty intake leaves behind. *)
Lemma main_empty_intake s :
  importer s = [] →
  ∃ s1, main s = Ok s1
        ∧ importer s1 = []
        ∧ weather_parquet s1 = weather_parquet s
        ∧ data_months s1 = write_months (load_master s) (data_months s)
        ∧ manifest_json s1
          = Some {| months := (generate_monthly_json s).2; snow := "snow.json" |}.
Proof.
  intros Hempty. unfold main. rewrite (ingest_empty_intake s Hempty). simpl.
  destruct (after_snow_fields s) as (Hi & Hw & Hd & Hm).
  set (sa := match ingest_snow_file s with
             | Ok (s', _) => s'
             | Raise _ => s
             end) in *.
  destruct (generate_monthly_json_fields sa) as (Hi' & Hw' & Hm' & _ & Hd').
  destruct (generate_monthly_json sa) as [sb ms] eqn:Hgen. simpl in *.
  eexists. split; [done|]. simpl.
  assert (Hmaster : load_master sa = load_master s) by (unfold load_master; by rewrite Hw).
  split; [congruence|]. split; [congruence|]. split; [congruence|].
  do 2 f_equal.
  assert (ms = (generate_monthly_json sa).2) as -> by (by rewrite Hgen).
  unfold generate_monthly_json. rewrite Hmaster. by destruct (load_master s).
Qed.

Lemma month_list_depends_on_master s s' :
  load_master s = load_master s' →
  (generate_monthly_json s).2 = (generate_monthly_json s').2.
Proof.
  unfold generate_monthly_json. intros ->. by destruct (load_master s').
Qed.

Lemma ingest_clears_intake s s' rep :
  ingest_import_folder s = Ok (s', rep) → importer s' = [].
Proof.
  unfold ingest_import_folder. intros H.
  destruct (sorted_files (importer s)) as [|f files] eqn:E.
  - injection H as <- _. apply Permutation_nil_r. by rewrite <-E, sorted_files_perm.
  - destruct (map_result _ _) as [parsed|]; [|done]. simpl in H.
    destruct (align_met _) as [met|]; [|done]. simpl in H.
    by injection H as <- _.
Qed.

(** Every completed run leaves an empty intake and current extracts. *)
Lemma main_leaves_extracts_current s0 s :
  main s0 = Ok s → importer s = [] ∧ extracts_current s.
Proof.
  unfold main. intros H.
  destruct (ingest_import_folder s0) as [[sa rep]|] eqn:Hin; [|done].
  apply ingest_clears_intake in Hin. simpl in H.
  destruct (after_snow_fields sa) as (Hi & Hw & Hd & Hm).
  set (sb := match ingest_snow_file sa with
             | Ok (s', _) => s'
             | Raise _ => sa
             end) in *.
  destruct (generate_monthly_json_fields sb) as (Hi' & Hw' & Hm' & _ & Hd').
  pose proof (eq_refl : (generate_monthly_json sb).2 = (generate_monthly_json sb).2) as Hms.
  destruct (generate_monthly_json sb) as [sc ms] eqn:Hgen. simpl in *.
  injection H as <-. split; [simpl; congruence|].
  set (s := write_index_html _).
  assert (Hmaster : load_master s = load_master sb) by (unfold load_master; simpl; by rewrite Hw').
  destruct (generate_monthly_json_fields s) as (_ & _ & _ & _ & Hds).
  split.
  - rewrite Hds, Hmaster. simpl. by rewrite Hd', write_months_idemp.
  - simpl. do 2 f_equal.
    by rewrite (month_list_depends_on_master s sb Hmaster), Hgen.
Qed.

(** C4: a run with an empty intake, on a store whose extracts and manifest
    are current (as every completed run leaves them), completes and
    leaves the archive, every monthly extract and the manifest as they
    were; the archive is not even rewritten. *)
Theorem empty_intake_changes_nothing (s : Store) :
  importer s = [] →
  extracts_current s →
  ∃ s1, main s = Ok s1
        ∧ weather_parquet s1 = weather_parquet s
        ∧ data_months s1 = data_months s
        ∧ manifest_json s1 = manifest_json s
        ∧ importer s1 = []
        ∧ extracts_current s1.
Proof.
  intros Hempty [Hd Hm].
  destruct (main_empty_intake s Hempty) as (s1 & Hmain & Hi1 & Hw1 & Hd1 & Hm1).
  exists s1. split; [done|]. split; [done|].
  destruct (generate_monthly_json_fields s) as (_ & _ & _ & _ & Hds).
  split; [by rewrite Hd1, <-Hds, <-Hd|]. split; [by rewrite Hm1, Hm|].
  split; [done|]. by apply (main_leaves_extracts_current s).
Qed.

End empty_runs.

Section empty_runs_examples.
#[local] Existing Instance reference.

Lemma empty_intake_changes_nothing_witness :
  importer demo_store = []
  ∧ extracts_current demo_store
  ∧ ∃ s1, main demo_store = Ok s1
          ∧ weather_parquet s1 = weather_parquet demo_store
          ∧ data_months s1 = data_months demo_store
          ∧ manifest_json s1 = manifest_json demo_store
          ∧ importer s1 = []
          ∧ extracts_current s1.
Proof.
  assert (Hcur : extracts_current demo_store) by (split; reflexivity).
  split; [reflexivity|]. split; [exact Hcur|].
  exact (empty_intake_changes_nothing demo_store
           eq_refl Hcur).
Defined.

End empty_runs_examples.

(** ** Minute alignment of the meteorological stream *)

Section alignment.
Context {R : Runtime}.

Section idxmax_facts.
Context {A : Type} (val : A → cell).

Lemma idxmax_from_best (b : A) (vb : Qc) (l : list A) :
  val b = Some vb →
  ∃ w v, idxmax_from val (Some b) l = Some w
    ∧ val w = Some v
    ∧ (vb ≤ v)%Qc
    ∧ (∀ x u, x ∈ l → val x = Some u → (u ≤ v)%Qc)
    ∧ ((w = b ∧ v = vb)
       ∨ ((vb < v)%Qc
          ∧ ∃ l1 l2, l = l1 ++ w :: l2
              ∧ ∀ x u, x ∈ l1 → val x = Some u → (u < v)%Qc)).
Proof.
  revert b vb. induction l as [|x l IH]; intros b vb Hb.
  - exists b, vb. split; [done|]. split; [done|]. split; [apply Qcle_refl|].
    split; [by intros x u ?%elem_of_nil | by left].
  - simpl. destruct (val x) as [u|] eqn:Hx.
    + rewrite Hb. unfold Qc_gtb. case_bool_decide as Hlt.
      * destruct (IH x u Hx) as (w & v & Hw & Hv & Huv & Hall & Hcase).
        exists w, v. split; [done|]. split; [done|].
        assert (Hvbv : (vb < v)%Qc) by (by eapply Qclt_le_trans).
        split; [by apply Qclt_le_weak|]. split.
        -- intros y uy [->|Hy]%elem_of_cons Hval; [|by eapply Hall].
           rewrite Hx in Hval. by injection Hval as <-.
        -- right. split; [done|]. destruct Hcase as [[-> ->]|(Hlt' & l1 & l2 & -> & Hl1)].
           ++ exists [], l. split; [done|]. by intros ?? ?%elem_of_nil.
           ++ exists (x :: l1), l2. split; [done|].
              intros y uy [->|Hy]%elem_of_cons Hval; [|by eapply Hl1].
              rewrite Hx in Hval. by injection Hval as <-.
      * apply Qcnot_lt_le in Hlt.
        destruct (IH b vb Hb) as (w & v & Hw & Hv & Hvbv & Hall & Hcase).
        exists w, v. split; [done|]. split; [done|]. split; [done|]. split.
        -- intros y uy [->|Hy]%elem_of_cons Hval; [|by eapply Hall].
           rewrite Hx in Hval. injection Hval as <-. by eapply Qcle_trans.
        -- destruct Hcase as [[-> ->]|(Hlt' & l1 & l2 & -> & Hl1)]; [by left|].
           right. split; [done|]. exists (x :: l1), l2. split; [done|].
           intros y uy [->|Hy]%elem_of_cons Hval; [|by eapply Hl1].
           rewrite Hx in Hval. injection Hval as <-. by eapply Qcle_lt_trans.
    + destruct (IH b vb Hb) as (w & v & Hw & Hv & Hvbv & Hall & Hcase).
      exists w, v. split; [done|]. split; [done|]. split; [done|]. split.
      * intros y uy [->|Hy]%elem_of_cons Hval; [by rewrite Hx in Hval | by eapply Hall].
      * destruct Hcase as [[-> ->]|(Hlt' & l1 & l2 & -> & Hl1)]; [by left|].
        right. split; [done|]. exists (x :: l1), l2. split; [done|].
        intros y uy [->|Hy]%elem_of_cons Hval; [by rewrite Hx in Hval | by eapply Hl1].
Qed.

(** [idxmax] finds the first row with the largest value, when a value
    exists. *)
Lemma idxmax_first_max (l : list A) :
  (∃ x, x ∈ l ∧ is_Some (val x)) →
  ∃ w v l1 l2, idxmax val l = Some w
    ∧ l = l1 ++ w :: l2
    ∧ val w = Some v
    ∧ (∀ x u, x ∈ l1 → val x = Some u → (u < v)%Qc)
    ∧ (∀ x u, x ∈ l2 → val x = Some u → (u ≤ v)%Qc).
Proof.
  unfold idxmax. induction l as [|x l IH]; intros (y & Hy & Hsome).
  - by apply elem_of_nil in Hy.
  - simpl. destruct (val x) as [u|] eqn:Hx.
    + simpl. destruct (idxmax_from_best x u l Hx) as (w & v & Hw & Hv & Huv & Hall & Hcase).
      destruct Hcase as [[-> ->]|(Hlt & l1 & l2 & -> & Hl1)].
      * exists x, u, [], l. repeat split; try done. by intros ?? ?%elem_of_nil.
      * exists w, v, (x :: l1), l2. repeat split; try done.
        -- intros z uz [->|Hz]%elem_of_cons Hval; [|by eapply Hl1].
           rewrite Hx in Hval. by injection Hval as <-.
        -- intros z uz Hz Hval. eapply Hall; [|done].
           apply elem_of_app. right. by right.
    + destruct IH as (w & v & l1 & l2 & Hw & -> & Hv & Hl1 & Hl2).
      { apply elem_of_cons in Hy as [->|Hy]; [|by eauto].
        rewrite Hx in Hsome. by destruct Hsome. }
      exists w, v, (x :: l1), l2. repeat split; try done.
      intros z uz [->|Hz]%elem_of_cons Hval; [by rewrite Hx in Hval | by eapply Hl1].
Qed.

Lemma idxmax_None_iff (l : list A) : idxmax val l = None ↔ ∀ x, x ∈ l → val x = None.
Proof.
  split.
  - intros Hnone x Hx. destruct (val x) eqn:E; [|done].
    destruct (idxmax_first_max l) as (w & ? & ? & ? & Hw & _); [by eauto|].
    by rewrite Hnone in Hw.
  - unfold idxmax. induction l as [|x l IH]; intros Hall; [done|].
    simpl. rewrite (Hall x) by (by left). apply IH. intros; apply Hall; by right.
Qed.

End idxmax_facts.

Lemma group_keys_once {A} (key : A → Z) k (l : list A) :
  group id k (group_keys key l) = if decide (k ∈ map key l) then [k] else [].
Proof.
  unfold group_keys. rewrite drop_duplicates_first_group.
  destruct (group id k (sort_values id (map key l))) as [|y g] eqn:E.
  - apply group_nil in E. rewrite list_fmap_id, sort_values_elem in E.
    by rewrite decide_False.
  - assert (y ∈ group id k (sort_values id (map key l))) as [Hy <-]%group_elem_of
      by (rewrite E; by left).
    apply sort_values_elem in Hy. by rewrite decide_True.
Qed.

Lemma group_keys_elem {A} (key : A → Z) k (l : list A) :
  k ∈ group_keys key l ↔ k ∈ map key l.
Proof.
  pose proof (group_not_nil id k (group_keys key l)) as H.
  rewrite list_fmap_id, group_keys_once in H. rewrite <-H. by case_decide.
Qed.

Lemma map_result_map {A B} (f : A → result B) (g : A → B) (l : list A) :
  (∀ x, x ∈ l → f x = Ok (g x)) → map_result f l = Ok (map g l).
Proof.
  induction l as [|x l IH]; intros Hall; [done|]. simpl.
  rewrite (Hall x) by (by left). simpl. rewrite IH; [done|].
  intros; apply Hall; by right.
Qed.

Lemma group_of_keyed {A} (key : A → Z) (h : Z → A) k (keys : list Z) :
  (∀ k', k' ∈ keys → key (h k') = k') →
  group key k (map h keys) = map h (group id k keys).
Proof.
  induction keys as [|k' keys IH]; intros Hkey; [done|].
  simpl. rewrite !group_cons, IH by (intros; apply Hkey; by right).
  rewrite (Hkey k') by (by left). unfold id. by destruct (decide (k' = k)).
Qed.

Lemma with_wind_key o speed heading : met_Time_key (with_wind o speed heading) = met_Time_key o.
Proof. done. Qed.

Lemma merge_left_group k others wind_max :
  group met_Time_key k (merge_left others wind_max)
  = merge_left (group met_Time_key k others) wind_max.
Proof.
  unfold merge_left. induction others as [|o others IH]; [done|].
  cbn [flat_map]. rewrite group_app, group_cons, IH.
  set (e := match group met_Time_key (met_Time_key o) wind_max with
            | [] => [with_wind o None None]
            | w :: ws => _
            end).
  assert (He : ∀ x, x ∈ e → met_Time_key x = met_Time_key o).
  { subst e. destruct (group _ _ wind_max) as [|w ws].
    - by intros x ->%list_elem_of_singleton.
    - by intros x (w' & -> & _)%list_elem_of_fmap. }
  destruct (decide (met_Time_key o = k)) as [<-|Hne].
  - cbn [flat_map]. fold e. f_equal. unfold group at 1. by apply filter_all.
  - assert (group met_Time_key k e = []) as ->; [|done].
    apply group_nil. intros (x & -> & Hx)%list_elem_of_fmap. by apply Hne, eq_sym, He.
Qed.

Lemma is_gust_elem g w : is_gust g w → w ∈ g.
Proof. intros (v & g1 & g2 & -> & _). apply elem_of_app. right. by left. Qed.

Lemma align_met_nonempty (met : MetFrame) :
  met_rows met ≠ [] →
  align_met met =
    let rows := minute_rows met in
    if has_windspeed_kmh met && Series.notna_any (map met_windspeed_kmh rows) then
      let* wind_max :=
        map_result (λ label, match label with
                             | Some r => if has_windheading met then Ok r else Raise KeyError
                             | None => Raise KeyError
                             end)
                   (map (λ k, idxmax met_windspeed_kmh (group met_Time_key k rows))
                        (group_keys met_Time_key rows)) in
      Ok (merge_left (drop_duplicates_last met_Time_key rows) wind_max)
    else Ok (drop_duplicates_last met_Time_key rows).
Proof.
  intros Hne. unfold align_met, minute_rows. by destruct (met_rows met).
Qed.

(** Where every minute of the stream has a wind speed and the frame has a
    heading column, the alignment succeeds, and each minute's row has the
    wind speed and heading of the minute's gust and the other fields of the
    minute's last row. *)
Lemma align_met_takes_gust (met : MetFrame) :
  met_rows met ≠ [] →
  has_windspeed_kmh met = true →
  has_windheading met = true →
  (∀ r, r ∈ met_rows met →
     ∃ r', r' ∈ met_rows met ∧ met_Time_key r' = met_Time_key r
           ∧ is_Some (met_windspeed_kmh r')) →
  ∃ out, align_met met = Ok out
    ∧ ∀ k, k ∈ map met_Time_key (met_rows met) →
        ∃ o w, last (group met_Time_key k (minute_rows met)) = Some o
             ∧ is_gust (group met_Time_key k (minute_rows met)) w
             ∧ group met_Time_key k out
               = [with_wind o (met_windspeed_kmh w) (met_windheading w)].
Proof.
  intros Hne Hspeed Hheading Hwind.
  assert (Hperm : minute_rows met ≡ₚ met_rows met).
  { unfold minute_rows. by rewrite !sort_values_perm. }
  assert (Hgust : ∀ k, k ∈ map met_Time_key (minute_rows met) →
            ∃ w, idxmax met_windspeed_kmh (group met_Time_key k (minute_rows met)) = Some w
                 ∧ is_gust (group met_Time_key k (minute_rows met)) w).
  { intros k (r & -> & Hr)%list_elem_of_fmap. rewrite Hperm in Hr.
    destruct (Hwind r Hr) as (r' & Hr' & Hkey & Hsome).
    destruct (idxmax_first_max met_windspeed_kmh (group met_Time_key (met_Time_key r) (minute_rows met)))
      as (w & v & g1 & g2 & Hw & Hg & Hv & Hg1 & Hg2).
    { exists r'. split; [|done]. apply group_elem_of. by rewrite Hperm. }
    exists w. split; [done|]. by exists v, g1, g2. }
  destruct (met_rows met) as [|r0 rest] eqn:Hrows; [done|].
  set (h := λ k, default r0 (idxmax met_windspeed_kmh (group met_Time_key k (minute_rows met)))).
  assert (Hh : ∀ k, k ∈ group_keys met_Time_key (minute_rows met) → met_Time_key (h k) = k).
  { intros k Hk%group_keys_elem. destruct (Hgust k Hk) as (w & Hw & Hg).
    unfold h. rewrite Hw. simpl. by apply is_gust_elem, group_elem_of in Hg as [_ ?]. }
  exists (merge_left (drop_duplicates_last met_Time_key (minute_rows met))
                     (map h (group_keys met_Time_key (minute_rows met)))).
  split.
  - rewrite align_met_nonempty by (by rewrite Hrows). cbv zeta. rewrite Hspeed.
    assert (Series.notna_any (map met_windspeed_kmh (minute_rows met)) = true) as ->.
    { apply notna_any_true.
      destruct (Hwind r0) as (r' & Hr' & _ & [v Hv]); [by left|].
      exists v. rewrite <-Hv. apply list_elem_of_fmap_2. by rewrite Hperm. }
    cbn [andb]. rewrite (map_result_map _ (default r0)).
    { simpl. by rewrite map_map. }
    intros label (k & -> & Hk)%list_elem_of_fmap.
    apply group_keys_elem in Hk.
    destruct (Hgust k Hk) as (w & Hw & _). by rewrite Hw, Hheading.
  - intros k Hk. rewrite <-Hperm in Hk.
    destruct (Hgust k Hk) as (w & Hw & Hg).
    destruct (last (group met_Time_key k (minute_rows met))) as [o|] eqn:Hlast.
    2:{ apply last_None, group_nil in Hlast. done. }
    exists o, w. split; [done|]. split; [done|].
    rewrite merge_left_group, drop_duplicates_last_group, Hlast. simpl.
    assert (Ho : met_Time_key o = k) by (by apply last_group_elem in Hlast as [_ ?]).
    rewrite Ho, group_of_keyed, group_keys_once, decide_True by done.
    simpl. unfold h. by rewrite Hw.
Qed.

(** A frame in strictly ascending time order is grouped as it is. *)
Lemma minute_rows_strict met :
  StronglySorted (λ a b, met_Time a < met_Time b) (met_rows met) →
  minute_rows met = met_rows met.
Proof.
  intros Hs. unfold minute_rows. symmetry. apply sort_values_unique.
  - rewrite sort_values_perm. by apply strictly_sorted_NoDup.
  - by rewrite sort_values_perm.
  - by apply strictly_sorted_weaken.
Qed.

Lemma group_keys_sorted {A} (key : A → Z) (l : list A) :
  Sorted Z.le (map key l) → group_keys key l = drop_duplicates_first id (map key l).
Proof. intros Hs. unfold group_keys. by rewrite sort_values_id_sorted. Qed.

Lemma sample_frames_grouped :
  minute_rows gust_frame = met_rows gust_frame
  ∧ minute_rows dropout_frame = met_rows dropout_frame
  ∧ minute_rows no_heading_frame = met_rows no_heading_frame.
Proof.
  split; [|split]; apply minute_rows_strict; simpl;
    repeat (constructor; simpl); by vm_compute.
Qed.

Lemma sample_frames_minutes :
  group_keys met_Time_key (met_rows gust_frame) = [hms 12 0 0]
  ∧ group_keys met_Time_key (met_rows dropout_frame) = [hms 12 0 0; hms 12 5 0]
  ∧ group_keys met_Time_key (met_rows no_heading_frame) = [hms 12 0 0].
Proof.
  split; [|split]; (rewrite group_keys_sorted; [by vm_compute|]);
    simpl; repeat (constructor; simpl); by vm_compute.
Qed.

(** The example of the specification: readings at 12:00:05 and 12:00:40
    with wind 3 and 7 become one row of minute 12:00, with wind 7, the
    heading of that reading, and the other fields of the later reading. *)
Lemma gust_frame_aligned :
  align_met gust_frame = Ok [met_row (hms 12 0 40) (qz 2) (qz 7) (qz 180)]
  ∧ met_Time_key (met_row (hms 12 0 40) (qz 2) (qz 7) (qz 180)) = hms 12 0 0.
Proof.
  split; [|by vm_compute].
  destruct sample_frames_grouped as (Hg & _ & _).
  destruct sample_frames_minutes as (Hk & _ & _).
  rewrite align_met_nonempty by done. cbv zeta. rewrite Hg, Hk. by vm_compute.
Qed.

(** C7, on the code: the same two readings followed by a row of another
    minute whose wind cell is empty make the alignment raise, since that
    minute has no largest wind speed to look up; so does a stream with wind
    speeds and no heading column.  No aligned record exists then. *)
Theorem alignment_raises_without_wind :
  Series.notna_any (map met_windspeed_kmh (met_rows dropout_frame)) = true
  ∧ idxmax met_windspeed_kmh (group met_Time_key (hms 12 5 0) (met_rows dropout_frame)) = None
  ∧ align_met dropout_frame = Raise KeyError
  ∧ align_met no_heading_frame = Raise KeyError.
Proof.
  destruct sample_frames_grouped as (_ & Hd & Hn).
  destruct sample_frames_minutes as (_ & Hkd & Hkn).
  split; [by vm_compute|]. split; [by vm_compute|]. split.
  - rewrite align_met_nonempty by done. cbv zeta. rewrite Hd, Hkd. by vm_compute.
  - rewrite align_met_nonempty by done. cbv zeta. rewrite Hn, Hkn. by vm_compute.
Qed.

End alignment.


(** * Further properties of the pipeline *)

(** ** One interval per rain row *)

Section interval_shape.
Context {R : Runtime}.

Lemma counter_intervals_length raw : length (counter_intervals raw) = length raw.
Proof. unfold counter_intervals. by rewrite length_map, length_seq. Qed.

Lemma counter_intervals_nonneg raw : Forall present_nonneg (counter_intervals raw).
Proof.
  unfold counter_intervals. apply Forall_forall.
  intros c (i & -> & _)%list_elem_of_fmap. eexists. split; [done|].
  unfold counter_interval. destruct (raw_diff raw i); [apply Qc_max_0_nonneg | apply Qcle_refl].
Qed.

(** X1: the normalizer returns one value per row of the frame, whichever
    branch it takes; with neither a usable rate nor a usable raw column
    every value is missing; and in the counter branch, as in the rate
    branch, every value is present and not negative. *)
Theorem rain_to_interval_mm_shape (df : RainFrame) :
  length (rain_to_interval_mm df) = length (rain_rows df)
  ∧ (rate_usable df = false → raw_usable df = false →
       rain_to_interval_mm df = replicate (length (rain_rows df)) None)
  ∧ (rate_usable df = false → raw_usable df = true → counter_like (raw_column df) →
       Forall present_nonneg (rain_to_interval_mm df))
  ∧ (rate_usable df = true → Forall present_nonneg (rain_to_interval_mm df)).
Proof.
  assert (Hlen : length (rain_sorted df) = length (rain_rows df))
    by apply sort_values_length.
  split; [|split; [|split]].
  - destruct (rate_usable df) eqn:Hrate.
    + by rewrite rate_branch_length.
    + destruct (raw_usable df) eqn:Hraw.
      * destruct (decide (counter_like (raw_column df))).
        -- rewrite raw_branch_counter, counter_intervals_length by done.
           unfold raw_column. by rewrite length_map.
        -- rewrite raw_branch_passthrough by done. unfold raw_column. by rewrite length_map.
      * unfold rate_usable, raw_usable, rate_column, raw_column, rain_sorted in *.
        unfold rain_to_interval_mm. rewrite Hrate, Hraw, length_replicate. apply Hlen.
  - intros Hrate Hraw.
    unfold rate_usable, raw_usable, rate_column, raw_column, rain_sorted in *.
    unfold rain_to_interval_mm. rewrite Hrate, Hraw. f_equal. apply Hlen.
  - intros Hrate Hraw Hgate. rewrite raw_branch_counter by done.
    apply counter_intervals_nonneg.
  - intros Hrate. apply Forall_lookup. intros i c Hc.
    destruct (lookup_lt_is_Some_2 (rain_sorted df) i) as [r Hr].
    { rewrite <-rate_branch_length by done. by eapply lookup_lt_Some. }
    rewrite (rate_branch_lookup df i r Hrate Hr) in Hc. injection Hc as <-.
    eexists. split; [done | apply Qc_max_0_nonneg].
Qed.

End interval_shape.

(** ** Grouping by key *)

Section grouping.
Context {R : Runtime}.

Section group_facts.
Context {A : Type} (key : A → Z).

Lemma drop_duplicates_first_aux_sublist seen (l : list A) :
  drop_duplicates_first_aux key seen l `sublist_of` l.
Proof.
  revert seen. induction l as [|x l IH]; intros seen; [done|]. simpl.
  case_bool_decide; [by apply sublist_cons | by apply sublist_skip].
Qed.

(** A frame none of whose keys occurs twice. *)
Lemma group_short_NoDup (l : list A) :
  (∀ k, (length (group key k l) ≤ 1)%nat) → NoDup (map key l).
Proof.
  induction l as [|x l IH]; intros Hshort; [constructor|].
  simpl. constructor.
  - intros Hin%group_not_nil. specialize (Hshort (key x)).
    rewrite group_cons, decide_True in Hshort by done.
    destruct (group key (key x) l); [done | simpl in Hshort; lia].
  - apply IH. intros k. specialize (Hshort k). rewrite group_cons in Hshort.
    case_decide; simpl in Hshort; lia.
Qed.

Lemma NoDup_group_short (l : list A) k :
  NoDup (map key l) → (length (group key k l) ≤ 1)%nat.
Proof.
  induction l as [|x l IH]; [simpl; lia|].
  simpl. intros [Hx Hl]%NoDup_cons. rewrite group_cons.
  case_decide as Hk; [|by apply IH].
  subst k. apply group_nil in Hx as ->. done.
Qed.

Lemma sorted_NoDup_strict (l : list A) :
  Sorted (λ a b, key a ≤ key b) l → NoDup (map key l) →
  StronglySorted (λ a b, key a < key b) l.
Proof.
  intros Hs Hnd. apply Sorted_StronglySorted in Hs; [|intros ???; lia].
  induction Hs as [|x l Hl IH Hall]; [constructor|].
  simpl in Hnd. apply NoDup_cons in Hnd as [Hx Hnd].
  constructor; [by apply IH|].
  apply Forall_forall. intros y Hy. rewrite Forall_forall in Hall.
  specialize (Hall y Hy). assert (key x ≠ key y); [|lia].
  intros Heq. apply Hx. rewrite Heq. by apply list_elem_of_fmap_2.
Qed.

Lemma StronglySorted_sublist {B} (rel : relation B) (l1 l2 : list B) :
  l1 `sublist_of` l2 → StronglySorted rel l2 → StronglySorted rel l1.
Proof.
  induction 1 as [|x l1 l2 Hsub IH|x l1 l2 Hsub IH]; [done| |].
  - inversion_clear 1 as [|?? Hs Hall]. constructor; [by apply IH|].
    rewrite Forall_forall in Hall |- *. intros y Hy. apply Hall.
    by eapply elem_of_sublist.
  - inversion_clear 1. by apply IH.
Qed.

End group_facts.

(** The group keys are strictly ascending. *)
Lemma group_keys_strict {A} (key : A → Z) (l : list A) : StronglySorted Z.lt (group_keys key l).
Proof.
  assert (H : StronglySorted (λ a b : Z, id a < id b) (group_keys key l)).
  { apply sorted_NoDup_strict.
    - apply StronglySorted_Sorted.
      apply (StronglySorted_sublist _ _ (sort_values id (map key l))).
      + apply drop_duplicates_first_aux_sublist.
      + apply Sorted_StronglySorted; [intros ???; lia | apply sort_values_sorted].
    - apply group_short_NoDup. intros k. rewrite group_keys_once.
      case_decide; simpl; lia. }
  apply (proj1 (strictly_sorted_keys id _)) in H. by rewrite list_fmap_id in H.
Qed.

End grouping.

(** ** The rain stream by the minute *)

Section rain_minutes.
Context {R : Runtime}.

Lemma floor_min_bounds (t : Timestamp) :
  floor_min t ≤ t < floor_min t + NS_PER_MINUTE ∧ floor_min t `mod` NS_PER_MINUTE = 0.
Proof.
  unfold floor_min.
  assert (Hpos : 0 < NS_PER_MINUTE) by done.
  pose proof (Z.mod_pos_bound t NS_PER_MINUTE Hpos) as Hb.
  split; [lia|].
  rewrite Zminus_mod, Zmod_mod, Z.sub_diag. done.
Qed.

Lemma align_rain_group k (rain2 : list (Timestamp * cell)) :
  group fst k (align_rain rain2)
  = if decide (k ∈ map rain_Time_key rain2)
    then [(k, sum_min_count_1 (map snd (group rain_Time_key k rain2)))]
    else [].
Proof.
  destruct rain2 as [|r rain2].
  { rewrite decide_False; [done | apply not_elem_of_nil]. }
  unfold align_rain. set (l := r :: rain2). set (rows := sort_values rain_Time_key l).
  rewrite (group_of_keyed fst
             (λ k, (k, sum_min_count_1 (map snd (group rain_Time_key k rows))))) by done.
  rewrite group_keys_once.
  assert (Hiff : k ∈ map rain_Time_key rows ↔ k ∈ map rain_Time_key l)
    by (unfold rows; by rewrite sort_values_perm).
  destruct (decide (k ∈ map rain_Time_key rows)) as [H1|H1],
           (decide (k ∈ map rain_Time_key l)) as [H2|H2]; simpl; try done.
  - do 2 f_equal. apply sum_min_count_1_perm, Permutation_map.
    unfold rows. apply sort_values_group_perm.
  - by apply Hiff in H1.
  - by apply Hiff in H2.
Qed.

Lemma align_rain_keys (rain2 : list (Timestamp * cell)) :
  StronglySorted Z.lt (map fst (align_rain rain2)).
Proof.
  destruct rain2 as [|r rain2]; [constructor|].
  unfold align_rain. rewrite map_map. simpl. rewrite map_id. apply group_keys_strict.
Qed.

(** X2: the aligned rain stream has one row per minute in which the stream
    has a row, in strictly ascending order of the minute; the minute of a
    row is its time floored, never rounded up; and the row's value is the
    sum of the present values of that minute, missing when the minute has
    none. *)
Theorem align_rain_per_minute (rain2 : list (Timestamp * cell)) :
  StronglySorted (λ a b, a.1 < b.1) (align_rain rain2)
  ∧ (∀ r, r ∈ rain2 →
       rain_Time_key r ≤ r.1 < rain_Time_key r + NS_PER_MINUTE
       ∧ rain_Time_key r `mod` NS_PER_MINUTE = 0)
  ∧ (∀ k, group fst k (align_rain rain2)
          = if decide (k ∈ map rain_Time_key rain2)
            then [(k, sum_min_count_1 (map snd (group rain_Time_key k rain2)))]
            else []).
Proof.
  split; [|split].
  - apply (proj2 (strictly_sorted_keys fst _)), align_rain_keys.
  - intros r _. apply floor_min_bounds.
  - intros k. apply align_rain_group.
Qed.

Lemma sum_all_missing s : Series.notna_any s = false → Series.sum s = 0%Qc.
Proof.
  induction s as [|c s IH]; [done|]. simpl.
  destruct c; simpl; [done|]. intros H. by apply IH.
Qed.

Lemma sum_of_minute_sums (g : Z → list cell) (ks : list Z) :
  Series.sum (map (λ k, sum_min_count_1 (g k)) ks)
  = foldr (λ k acc, Series.sum (g k) + acc)%Qc 0%Qc ks.
Proof.
  induction ks as [|k ks IH]; [done|]. simpl. rewrite <-IH.
  unfold sum_min_count_1 at 1. destruct (Series.notna_any (g k)) eqn:E; [done|].
  rewrite (sum_all_missing _ E). by rewrite Qcplus_0_l.
Qed.

Lemma sum_indicator (k0 : Z) (a : Qc) (ks : list Z) :
  NoDup ks → k0 ∈ ks →
  foldr (λ k acc, (if decide (k0 = k) then a else 0) + acc)%Qc 0%Qc ks = a.
Proof.
  induction ks as [|k ks IH]; intros Hnd Hin; [by apply elem_of_nil in Hin|].
  apply NoDup_cons in Hnd as [Hk Hnd]. simpl.
  destruct (decide (k0 = k)) as [->|Hne].
  - assert (foldr (λ k' acc, (if decide (k = k') then a else 0) + acc)%Qc 0%Qc ks = 0%Qc) as ->.
    { clear IH Hnd Hin. induction ks as [|k' ks IH]; [done|]. simpl.
      apply not_elem_of_cons in Hk as [Hne Hk]. rewrite decide_False by done.
      rewrite IH by done. ring. }
    ring.
  - apply elem_of_cons in Hin as [?|Hin]; [done|]. rewrite IH by done. ring.
Qed.

Lemma sum_pointwise (F G : Z → Qc) (ks : list Z) :
  foldr (λ k acc, (F k + G k) + acc)%Qc 0%Qc ks
  = (foldr (λ k acc, F k + acc)%Qc 0%Qc ks + foldr (λ k acc, G k + acc)%Qc 0%Qc ks)%Qc.
Proof. induction ks as [|k ks IH]; simpl; [ring | rewrite IH; ring]. Qed.

Lemma sum_ext (F G : Z → Qc) (ks : list Z) :
  (∀ k, F k = G k) →
  foldr (λ k acc, F k + acc)%Qc 0%Qc ks = foldr (λ k acc, G k + acc)%Qc 0%Qc ks.
Proof. intros H. induction ks as [|k ks IH]; simpl; [done | by rewrite H, IH]. Qed.

(** The minutes partition the rows. *)
Lemma total_over_minutes (l : list (Timestamp * cell)) (ks : list Z) :
  NoDup ks → (∀ r, r ∈ l → rain_Time_key r ∈ ks) →
  foldr (λ k acc, total_rain (group rain_Time_key k l) + acc)%Qc 0%Qc ks = total_rain l.
Proof.
  intros Hnd. induction l as [|r l IH]; intros Hcover.
  - unfold total_rain. simpl. clear. induction ks as [|k ks IH]; simpl; [done|].
    rewrite IH. ring.
  - set (a := default 0%Qc r.2).
    rewrite (sum_ext _ (λ k, (if decide (rain_Time_key r = k) then a else 0)
                             + total_rain (group rain_Time_key k l))%Qc).
    + rewrite sum_pointwise, IH by (intros; apply Hcover; by right).
      rewrite sum_indicator by (done || apply Hcover; by left).
      unfold total_rain, a. simpl. destruct r.2; simpl; ring.
    + intros k. rewrite group_cons. case_decide; [|ring].
      unfold total_rain, a. simpl. destruct r.2; simpl; ring.
Qed.

(** X3: summing by the minute loses no rain: the aligned stream adds up to
    what the rows of the stream add up to. *)
Theorem align_rain_conserves_total (rain2 : list (Timestamp * cell)) :
  total_rain (align_rain rain2) = total_rain rain2.
Proof.
  destruct rain2 as [|r rain2]; [done|].
  unfold align_rain. set (l := r :: rain2).
  set (rows := sort_values rain_Time_key l).
  unfold total_rain at 1. rewrite map_map. simpl.
  rewrite (sum_of_minute_sums (λ k, map snd (group rain_Time_key k rows))).
  rewrite (sum_ext _ (λ k, total_rain (group rain_Time_key k l)))
    by (intros k; unfold total_rain; apply sum_perm_cells, Permutation_map;
        unfold rows; apply sort_values_group_perm).
  apply total_over_minutes.
  - pose proof (group_keys_strict rain_Time_key rows) as H.
    rewrite <-(list_fmap_id (group_keys _ _)).
    apply (strictly_sorted_NoDup id), (proj2 (strictly_sorted_keys id _)).
    by rewrite list_fmap_id.
  - intros x Hx. apply group_keys_elem. unfold rows.
    rewrite sort_values_perm. by apply list_elem_of_fmap_2.
Qed.

End rain_minutes.

(** ** The outer join of the two streams *)

Section outer_joins.
Context {R : Runtime}.

Lemma group_map {A B} (key : A → Z) (key' : B → Z) (f : A → B) k (l : list A) :
  (∀ x, key' (f x) = key x) → group key' k (map f l) = map f (group key k l).
Proof.
  intros Hkey. induction l as [|x l IH]; [done|].
  simpl. rewrite !group_cons, IH, Hkey. by case_decide.
Qed.

Lemma group_flat_map {A B} (key : A → Z) (key' : B → Z) (E : A → list B) k (l : list A) :
  (∀ x y, y ∈ E x → key' y = key x) →
  group key' k (flat_map E l) = flat_map E (group key k l).
Proof.
  intros Hkey. induction l as [|x l IH]; [done|].
  cbn [flat_map]. rewrite group_app, group_cons, IH.
  destruct (decide (key x = k)) as [<-|Hne].
  - cbn [flat_map]. f_equal. unfold group. apply filter_all. intros y Hy. by apply Hkey.
  - assert (group key' k (E x) = []) as ->; [|done].
    apply group_nil. intros (y & -> & Hy)%list_elem_of_fmap. by apply Hne, eq_sym, Hkey.
Qed.

Lemma group_filter {A} (key : A → Z) (P : A → Prop) `{∀ x, Decision (P x)} k (l : list A) :
  group key k (filter P l) = filter P (group key k l).
Proof. unfold group. by rewrite !list_filter_filter, (list_filter_iff _ (λ x, P x ∧ key x = k)); [|tauto]. Qed.

Lemma short_list_head {A} (l : list A) : (length l ≤ 1)%nat → l = option_list (head l).
Proof. destruct l as [|x [|y l]]; simpl; [done | done | lia]. Qed.

Lemma NoDup_group_head {A} (key : A → Z) k (l : list A) :
  NoDup (map key l) → group key k l = option_list (head (group key k l)).
Proof. intros H. by apply short_list_head, NoDup_group_short. Qed.

Lemma head_group_key {A} (key : A → Z) k (l : list A) x :
  head (group key k l) = Some x → key x = k ∧ x ∈ l.
Proof.
  intros H%head_Some_elem_of. by apply group_elem_of in H as [? ?].
Qed.

(** The two one-sided branches of lines 781-791 are the outer join with an
    empty side. *)
Lemma merge_streams_outer_join met rain2 :
  merge_streams met rain2 = sort_values Time (outer_join met rain2).
Proof.
  unfold merge_streams, outer_join. f_equal.
  destruct met as [|m met].
  - simpl. f_equal. symmetry. apply filter_all. intros r _. apply not_elem_of_nil.
  - destruct rain2 as [|r rain2]; [|done].
    rewrite filter_nil, app_nil_r. generalize (m :: met). clear.
    intros l. induction l as [|x l IH]; [done|]. simpl. by f_equal.
Qed.

Lemma outer_join_group (met : list MetRow) (rain2 : list (Timestamp * cell)) t :
  NoDup (map met_Time_key met) → NoDup (map fst rain2) →
  group Time t (outer_join met rain2) = joined t met rain2.
Proof.
  intros Hmet Hrain. unfold outer_join.
  rewrite group_app, (group_map fst Time) by done. rewrite group_filter.
  rewrite (group_flat_map met_Time_key Time); cycle 1.
  { intros x y Hy. destruct (group fst (met_Time_key x) rain2).
    - by apply list_elem_of_singleton in Hy as ->.
    - by apply list_elem_of_fmap in Hy as (? & -> & _). }
  pose proof (NoDup_group_head fst t rain2 Hrain) as Hr.
  rewrite (NoDup_group_head met_Time_key t met Hmet).
  unfold joined.
  destruct (head (group met_Time_key t met)) as [m|] eqn:Em.
  - apply head_group_key in Em as [Hkm Hmin]. simpl.
    rewrite Hkm, app_nil_r.
    set (gr := group fst t rain2) in *.
    destruct (head gr) as [r|] eqn:Er; rewrite Hr; simpl.
    + apply head_group_key in Er as [Hkr _].
      rewrite filter_cons_False; [done|].
      intros Hnot. apply Hnot. rewrite Hkr, <-Hkm. by apply list_elem_of_fmap_2.
    + done.
  - simpl.
    set (gr := group fst t rain2) in *.
    destruct (head gr) as [r|] eqn:Er; rewrite Hr; simpl; [|done].
    apply head_group_key in Er as [Hkr _].
    rewrite filter_cons_True; [simpl; by rewrite Hkr|].
    rewrite Hkr. apply group_nil. by apply head_None in Em.
Qed.

Lemma joined_short t met rain2 : (length (joined t met rain2) ≤ 1)%nat.
Proof.
  unfold joined. destruct (head _), (head _); simpl; lia.
Qed.

(** X4: for streams with one row per minute, as the alignment leaves them,
    the merge is a full outer join on the minute: the result is in strictly
    ascending time, and for every minute it holds one reading when either
    stream has the minute, with the fields of the absent stream missing,
    and none otherwise. *)
Theorem merge_streams_is_outer_join (met : list MetRow) (rain2 : list (Timestamp * cell)) :
  NoDup (map met_Time_key met) →
  NoDup (map fst rain2) →
  StronglySorted (λ a b, Time a < Time b) (merge_streams met rain2)
  ∧ ∀ t, group Time t (merge_streams met rain2) = joined t met rain2.
Proof.
  intros Hmet Hrain.
  assert (Hgroup : ∀ t, group Time t (merge_streams met rain2) = joined t met rain2).
  { intros t. rewrite merge_streams_outer_join, sort_values_group_short;
      rewrite outer_join_group by done; [done | apply joined_short]. }
  split; [|done].
  apply sorted_NoDup_strict.
  - rewrite merge_streams_outer_join. apply sort_values_sorted.
  - apply group_short_NoDup. intros t. rewrite Hgroup. apply joined_short.
Qed.

End outer_joins.

Section outer_joins_examples.
#[local] Existing Instance reference.

Lemma merge_streams_is_outer_join_witness :
  NoDup (map met_Time_key demo_met_minutes)
  ∧ NoDup (map fst demo_rain_minutes)
  ∧ group Time NS_PER_MINUTE (merge_streams demo_met_minutes demo_rain_minutes)
    = joined NS_PER_MINUTE demo_met_minutes demo_rain_minutes.
Proof.
  assert (H1 : NoDup (map met_Time_key demo_met_minutes))
    by (apply (bool_decide_unpack _); by vm_compute).
  assert (H2 : NoDup (map fst demo_rain_minutes))
    by (apply (bool_decide_unpack _); by vm_compute).
  split; [exact H1|]. split; [exact H2|].
  exact (proj2 (merge_streams_is_outer_join demo_met_minutes demo_rain_minutes H1 H2)
               NS_PER_MINUTE).
Defined.

End outer_joins_examples.

(** ** Merging into the archive again *)

Section merging_again.
Context {R : Runtime}.

Lemma ffill_from_head last r l :
  ffill_from last (r :: l)
  = set_windheading (filled_heading last r) r :: ffill_from (filled_heading last r) l.
Proof.
  unfold filled_heading. simpl. destruct (windheading r) eqn:E; [|done].
  by rewrite <-E, set_windheading_same.
Qed.

(** Filling a frame some of whose rows are already filled gives the same as
    filling it afresh. *)
Lemma ffill_from_partly_filled last (l l2 : list Reading) :
  length l2 = length l →
  (∀ i, l2 !! i = l !! i ∨ l2 !! i = ffill_from last l !! i) →
  ffill_from last l2 = ffill_from last l.
Proof.
  revert last l2. induction l as [|r l IH]; intros last [|r2 l2] Hlen Hrows; try done.
  rewrite (ffill_from_head last r l). rewrite (ffill_from_head last r l) in Hrows.
  rewrite (ffill_from_head last r2 l2).
  assert (Hhead : set_windheading (filled_heading last r2) r2
                  = set_windheading (filled_heading last r) r
                  ∧ filled_heading last r2 = filled_heading last r).
  { destruct (Hrows O) as [H|H]; simpl in H; injection H as ->; [done|].
    unfold filled_heading. simpl. destruct (windheading r) eqn:E; simpl; [done|].
    by destruct last. }
  destruct Hhead as [-> ->]. f_equal. apply IH; [simpl in Hlen; lia|].
  intros i. apply (Hrows (S i)).
Qed.

Lemma strictly_ascending_NoDup (l : list Z) : StronglySorted Z.lt l → NoDup l.
Proof.
  induction 1 as [|x l Hl IH Hall]; constructor; [|done].
  intros Hx. rewrite Forall_forall in Hall. specialize (Hall x Hx). lia.
Qed.

Lemma strictly_sorted_same_elements (l1 l2 : list Z) :
  StronglySorted Z.lt l1 → StronglySorted Z.lt l2 → (∀ k, k ∈ l1 ↔ k ∈ l2) → l1 = l2.
Proof.
  intros H1 H2 Hsame. apply (StronglySorted_unique_strong Z.lt); try done.
  - intros x y _ _ ??. lia.
  - apply NoDup_Permutation; [| |done]; by apply strictly_ascending_NoDup.
Qed.

Lemma same_time_same_row (l : list Reading) a b :
  NoDup (map Time l) → a ∈ l → b ∈ l → Time a = Time b → a = b.
Proof.
  intros Hnd [i Hi]%list_elem_of_lookup [j Hj]%list_elem_of_lookup Heq.
  assert (i = j) as ->; [|congruence].
  eapply NoDup_lookup; [done| |]; rewrite list_lookup_fmap; [by rewrite Hi | by rewrite Hj, Heq].
Qed.

Lemma drop_duplicates_last_NoDup {A} (key : A → Z) (l : list A) :
  NoDup (map key l) → drop_duplicates_last key l = l.
Proof.
  induction l as [|x l IH]; [done|]. simpl. intros [Hx Hl]%NoDup_cons.
  rewrite bool_decide_eq_false_2 by done. f_equal. by apply IH.
Qed.

Lemma ffill_from_again last (l : list Reading) :
  ffill_from last (ffill_from last l) = ffill_from last l.
Proof.
  apply ffill_from_partly_filled; [apply ffill_from_length|]. intros i. by right.
Qed.

(** The archive a merge saves is strictly ascending and filled; merging
    nothing into it changes nothing. *)
Lemma reconcile_saved_strict master merged :
  StronglySorted (λ a b, Time a < Time b) (reconcile master merged).1.
Proof.
  rewrite reconcile_archive. apply (proj2 (strictly_sorted_keys Time _)).
  unfold ffill_windheading. rewrite ffill_from_times.
  apply (proj1 (strictly_sorted_keys Time _)), kept_rows_strict.
Qed.

Lemma reconcile_nothing master merged :
  (reconcile (reconcile master merged).1 []).1 = (reconcile master merged).1.
Proof.
  pose proof (reconcile_saved_strict master merged) as Hs.
  rewrite (reconcile_archive (reconcile master merged).1 []), app_nil_r.
  rewrite sort_values_strict_id by done.
  rewrite drop_duplicates_last_NoDup by (by apply strictly_sorted_NoDup).
  rewrite reconcile_archive. apply ffill_from_again.
Qed.

Lemma reconcile_times_again master merged :
  map Time (reconcile (reconcile master merged).1 merged).1
  = map Time (reconcile master merged).1.
Proof.
  apply strictly_sorted_same_elements.
  - apply (proj1 (strictly_sorted_keys Time _)), reconcile_saved_strict.
  - apply (proj1 (strictly_sorted_keys Time _)), reconcile_saved_strict.
  - intros t. rewrite (reconcile_archive (reconcile master merged).1 merged).
    unfold ffill_windheading at 1. rewrite ffill_from_times, kept_rows_times.
    rewrite map_app, elem_of_app.
    rewrite reconcile_archive. unfold ffill_windheading.
    rewrite ffill_from_times, kept_rows_times, map_app, elem_of_app. tauto.
Qed.

Lemma reconcile_removed master merged :
  dedup_removed (reconcile master merged).2
  = Z.of_nat (length master) + Z.of_nat (length merged)
    - Z.of_nat (length (reconcile master merged).1).
Proof.
  rewrite reconcile_archive. unfold ffill_windheading. by rewrite ffill_from_length.
Qed.

(** X5: merging into a saved archive the batch it was saved from leaves
    the timestamps of the archive, and so its size, as they are, and
    reports every row of the batch as a removed duplicate; merging an
    empty batch gives the same archive again and reports none. *)
Theorem reconcile_twice (master merged : list Reading) :
  let saved := (reconcile master merged).1 in
  map Time (reconcile saved merged).1 = map Time saved
  ∧ length (reconcile saved merged).1 = length saved
  ∧ dedup_removed (reconcile saved merged).2 = Z.of_nat (length merged)
  ∧ (reconcile saved []).1 = saved
  ∧ dedup_removed (reconcile saved []).2 = 0.
Proof.
  intros saved.
  assert (H1 : map Time (reconcile saved merged).1 = map Time saved)
    by apply reconcile_times_again.
  assert (H1' : length (reconcile saved merged).1 = length saved)
    by (by rewrite <-(length_map Time), H1, length_map).
  assert (H2 : (reconcile saved []).1 = saved) by apply reconcile_nothing.
  split; [done|]. split; [done|]. split; [rewrite reconcile_removed, H1'; lia|].
  split; [done|]. rewrite reconcile_removed, H2. cbn [length]. lia.
Qed.

Lemma ffill_from_present (h : Qc) (l : list Reading) :
  Forall (λ r, is_Some (windheading r)) (ffill_from (Some h) l).
Proof.
  revert h. induction l as [|r l IH]; intros h; [constructor|]. simpl.
  destruct (windheading r) as [h'|] eqn:E; constructor; done.
Qed.

Lemma ffill_from_once_present last (l : list Reading) i j a b :
  (i ≤ j)%nat →
  ffill_from last l !! i = Some a → ffill_from last l !! j = Some b →
  is_Some (windheading a) → is_Some (windheading b).
Proof.
  revert last i j. induction l as [|r l IH]; intros last i j Hij Ha Hb Hsome; [done|].
  rewrite ffill_from_head in Ha, Hb.
  destruct i as [|i].
  - simpl in Ha. injection Ha as <-. simpl in Hsome.
    destruct j as [|j]; [simpl in Hb; by injection Hb as <-|].
    rewrite lookup_cons in Hb. destruct Hsome as [h Hh]. rewrite Hh in Hb.
    pose proof (ffill_from_present h l) as Hall.
    rewrite Forall_lookup in Hall. by eapply Hall.
  - destruct j as [|j]; [lia|]. rewrite lookup_cons in Ha, Hb.
    eapply (IH _ i j); [lia|done..].
Qed.

(** X6: in a saved archive the readings without a wind heading all come
    before the first reading with one: from the first known heading on,
    every reading has a heading. *)
Theorem saved_headings_have_no_gaps (master merged : list Reading) (i j : nat) (a b : Reading) :
  (i ≤ j)%nat →
  (reconcile master merged).1 !! i = Some a →
  (reconcile master merged).1 !! j = Some b →
  is_Some (windheading a) →
  is_Some (windheading b).
Proof.
  rewrite reconcile_archive. unfold ffill_windheading. apply ffill_from_once_present.
Qed.

End merging_again.

Section merging_again_examples.
#[local] Existing Instance reference.

Lemma saved_headings_have_no_gaps_witness :
  (0 ≤ 1)%nat
  ∧ (reconcile old_archive new_batch).1 !! 0%nat = Some (reading 0 (qz 1) (qz 90))
  ∧ (reconcile old_archive new_batch).1 !! 1%nat = Some (reading NS_PER_MINUTE (qz 2) (qz 90))
  ∧ is_Some (windheading (reading 0 (qz 1) (qz 90)))
  ∧ is_Some (windheading (reading NS_PER_MINUTE (qz 2) (qz 90))).
Proof.
  assert (H0 : (0 ≤ 1)%nat) by lia.
  assert (H1 : (reconcile old_archive new_batch).1 !! 0%nat = Some (reading 0 (qz 1) (qz 90)))
    by reflexivity.
  assert (H2 : (reconcile old_archive new_batch).1 !! 1%nat
               = Some (reading NS_PER_MINUTE (qz 2) (qz 90))) by reflexivity.
  assert (H3 : is_Some (windheading (reading 0 (qz 1) (qz 90)))) by (by eexists).
  repeat (split; [assumption|]).
  exact (saved_headings_have_no_gaps old_archive new_batch 0 1 _ _ H0 H1 H2 H3).
Defined.

End merging_again_examples.

(** ** Parsing a station export *)

Section parsing_facts.
Context {R : Runtime}.

Lemma find_col_mentions cols kws :
  is_Some (find_col cols kws) ↔ header_mentions cols kws.
Proof.
  split.
  - intros [c (Hc & kw & Hkw & Hm)%find_col_Some]. by exists c, kw.
  - intros (c & kw & Hc & Hkw & Hm). destruct (find_col cols kws) eqn:E; [done|].
    rewrite find_col_None in E. by rewrite (E c kw Hc Hkw) in Hm.
Qed.

(** X7: parsing a file fails in two cases only: no encoding reads the file,
    or no timestamp column is found.  Missing data columns, unreadable
    cells and files without rows never make it fail. *)
Theorem parse_station_csv_errors (f : CsvFile) (e : Error) :
  parse_station_csv f = Raise e
  ↔ (file_frame f = None ∧ e = UnreadableFile)
    ∨ (∃ df, file_frame f = Some df
             ∧ locate_time (columns df) = Raise MissingTimeColumn
             ∧ e = MissingTimeColumn).
Proof.
  unfold parse_station_csv, read_csv_any_encoding.
  destruct (file_frame f) as [df|]; simpl.
  - destruct (locate_time (columns df)) as [src|e'] eqn:Hloc; simpl.
    + split.
      * by destruct (_ || _).
      * intros [[? _]|(df' & [= <-] & ? & _)]; congruence.
    + assert (e' = MissingTimeColumn) as ->.
      { unfold locate_time in Hloc. repeat case_match; by simplify_eq. }
      split.
      * intros [= <-]. right. by exists df.
      * by intros [[? _]|(_ & _ & _ & ->)].
  - split.
    + intros [= <-]. by left.
    + intros [[_ ->]|(? & ? & _)]; done.
Qed.




Lemma header_mentions_app cols k1 k2 :
  header_mentions cols (k1 ++ k2) ↔ header_mentions cols k1 ∨ header_mentions cols k2.
Proof.
  unfold header_mentions. split.
  - intros (c & kw & Hc & [Hkw|Hkw]%elem_of_app & Hm); [left | right]; by exists c, kw.
  - intros [(c & kw & Hc & Hkw & Hm)|(c & kw & Hc & Hkw & Hm)]; exists c, kw;
      (split; [done|]); (split; [|done]); apply elem_of_app; [by left | by right].
Qed.

Lemma header_mentions_without_Time cols :
  header_mentions (cols ++ ["Time"%string]) rain_words ↔ header_mentions cols rain_words.
Proof.
  unfold header_mentions. split.
  - intros (c & kw & [Hc|Hc]%elem_of_app & Hkw & Hm); [by exists c, kw|].
    apply list_elem_of_singleton in Hc as ->. exfalso.
    assert (Hall : Forall (λ kw, contains kw (lower "Time") = false) rain_words)
      by (rewrite lower_ascii by done; repeat constructor).
    rewrite Forall_forall in Hall. by rewrite (Hall kw Hkw) in Hm.
  - intros (c & kw & Hc & Hkw & Hm). exists c, kw. split; [|done].
    apply elem_of_app. by left.
Qed.

(** X9: whether a file is read as a rain file is decided by its headers
    alone: it is one exactly when some header contains, in any letter
    case, one of the rain keywords.  A file with such a header is a rain
    file even when it also has temperature or wind columns, which are then
    left out. *)
Theorem parse_station_csv_kind (f : CsvFile) (df : RawFrame) (p : Parsed) :
  file_frame f = Some df →
  parse_station_csv f = Ok p →
  is_rain p = true ↔ header_mentions (columns df) rain_words.
Proof.
  unfold parse_station_csv, read_csv_any_encoding. intros -> Hp. simpl in Hp.
  destruct (locate_time (columns df)) as [src|] eqn:Hloc; [|done]. simpl in Hp.
  set (cols := match src with
               | TimeColumn => columns df
               | DateAndTime _ _ => (columns df ++ ["Time"%string])%list
               end) in *.
  assert (Hcols : header_mentions cols rain_words ↔ header_mentions (columns df) rain_words).
  { unfold cols. destruct src; [done | apply header_mentions_without_Time]. }
  rewrite <-Hcols.
  change rain_words with ((["rain rate"; "mm/h"; "mm per h"; "mm pr h"]%string)
                          ++ (["rain"; "precip"; "nedbør"; "nedbor"]%string))%list.
  rewrite header_mentions_app, <-!find_col_mentions.
  destruct (find_col cols ["rain"; "precip"; "nedbør"; "nedbor"]%string) as [c1|] eqn:E1;
    destruct (find_col cols ["rain rate"; "mm/h"; "mm per h"; "mm pr h"]%string) as [c2|] eqn:E2;
    simpl in Hp; injection Hp as <-; simpl; split; try done; eauto.
  intros [[? [=]]|[? [=]]].
Qed.

End parsing_facts.

Section parsing_facts_examples.
#[local] Existing Instance reference.


Lemma parse_station_csv_kind_witness :
  let p := parsed_or_empty (parse_station_csv demo_rain_export) in
  parse_station_csv demo_rain_export = Ok p
  ∧ is_rain p = true.
Proof.
  split; [reflexivity|].
  refine (proj2 (parse_station_csv_kind demo_rain_export
                   {| columns := ["Time"; "Temperature"; "Rain mm"]%string;
                      records := [["3"; "12"; "4"]; ["1"; "10"; "2"]]%string |} _ _ _) _).
  - reflexivity.
  - reflexivity.
  - exists "Rain mm"%string, "rain"%string.
    split; [by right; right; left|]. split; [|reflexivity].
    by do 4 right; left.
Defined.

End parsing_facts_examples.

(** ** Finding a column *)

Section finding_columns.
Context {R : Runtime}.

Lemma column_matches_iff c kws :
  existsb (λ kw, contains kw (lower c)) kws = true
  ↔ ∃ kw, kw ∈ kws ∧ contains kw (lower c) = true.
Proof.
  rewrite existsb_exists. split; intros (kw & Hkw & Hm); exists kw;
    (split; [by apply list_elem_of_In | done]).
Qed.

(** X10: [find_col] returns the first header, in header order, that
    contains one of the keywords in lower case, whichever keyword it is
    and wherever that keyword stands in the list; and nothing exactly when
    no header contains any of them. *)
Theorem find_col_first_match (cols kws : list string) :
  (∀ c, find_col cols kws = Some c
        ↔ ∃ before after,
            cols = before ++ c :: after
            ∧ (∃ kw, kw ∈ kws ∧ contains kw (lower c) = true)
            ∧ ∀ b kw, b ∈ before → kw ∈ kws → contains kw (lower b) = false)
  ∧ (find_col cols kws = None
     ↔ ∀ c kw, c ∈ cols → kw ∈ kws → contains kw (lower c) = false).
Proof.
  split; [|apply find_col_None].
  unfold find_col. induction cols as [|x cols IH]; intros c.
  - split; [done|]. intros (before & after & H & _). by destruct before.
  - simpl. destruct (existsb _ kws) eqn:Hx.
    + split.
      * intros [= <-]. exists [], cols. split; [done|].
        split; [by apply column_matches_iff|]. by intros ?? ?%elem_of_nil.
      * intros (before & after & Heq & Hc & Hbefore).
        destruct before as [|b before]; [by injection Heq as ->|].
        injection Heq as <- _. apply column_matches_iff in Hx as (kw & Hkw & Hm).
        rewrite (Hbefore x kw) in Hm; [done | by left | done].
    + rewrite IH. split.
      * intros (before & after & -> & Hc & Hbefore). exists (x :: before), after.
        split; [done|]. split; [done|].
        intros b kw [->|Hb]%elem_of_cons Hkw; [|by apply Hbefore].
        destruct (contains kw (lower x)) eqn:E; [|done].
        rewrite <-Hx. symmetry. apply column_matches_iff. by exists kw.
      * intros (before & after & Heq & Hc & Hbefore).
        destruct before as [|b before].
        -- injection Heq as -> _. apply column_matches_iff in Hc. congruence.
        -- injection Heq as <- ->. exists before, after. split; [done|]. split; [done|].
           intros b kw Hb Hkw. apply Hbefore; [by right | done].
Qed.

End finding_columns.

(** ** The meteorological stream by the minute *)

Section met_minutes.
Context {R : Runtime}.

Lemma minute_rows_perm met : minute_rows met ≡ₚ met_rows met.
Proof. unfold minute_rows. by rewrite !sort_values_perm. Qed.

Lemma align_met_unfold (met : MetFrame) :
  align_met met =
    if wind_usable met then
      let* wind_max :=
        map_result (loc_label met)
                   (map (λ k, idxmax met_windspeed_kmh (group met_Time_key k (minute_rows met)))
                        (group_keys met_Time_key (minute_rows met))) in
      Ok (merge_left (drop_duplicates_last met_Time_key (minute_rows met)) wind_max)
    else Ok (drop_duplicates_last met_Time_key (minute_rows met)).
Proof.
  assert (Hany : Series.notna_any (map met_windspeed_kmh (minute_rows met))
                 = Series.notna_any (map met_windspeed_kmh (met_rows met))).
  { apply notna_any_perm, (fmap_Permutation met_windspeed_kmh), minute_rows_perm. }
  unfold wind_usable. rewrite <-Hany. clear Hany.
  destruct (met_rows met) as [|r0 rest] eqn:Hrows.
  - unfold align_met, minute_rows. rewrite Hrows, !sort_values_nil. simpl.
    by rewrite andb_false_r.
  - rewrite align_met_nonempty by (by rewrite Hrows). done.
Qed.

Lemma map_result_raises {A B} (f : A → result B) (l : list A) e :
  map_result f l = Raise e → ∃ x, x ∈ l ∧ f x = Raise e.
Proof.
  induction l as [|x l IH]; [done|]. simpl.
  destruct (f x) as [y|e'] eqn:Hx; simpl.
  - destruct (map_result f l) as [ys|e'] eqn:Hl; simpl; [done|].
    intros [= ->]. destruct IH as (x' & Hx' & Hf); [done|].
    exists x'. split; [by right | done].
  - intros [= ->]. exists x. split; [by left | done].
Qed.

Lemma map_result_ok {A B} (f : A → result B) (l : list A) ys :
  map_result f l = Ok ys → ∀ x, x ∈ l → ∃ y, f x = Ok y.
Proof.
  intros H%map_result_Forall2 x Hx.
  apply list_elem_of_lookup in Hx as [i Hi].
  destruct (Forall2_lookup_l _ _ _ _ _ H Hi) as (y & _ & Hy). by exists y.
Qed.

Lemma minute_without_wind_label met k :
  k ∈ map met_Time_key (met_rows met) →
  idxmax met_windspeed_kmh (group met_Time_key k (minute_rows met)) = None
  ↔ minute_without_wind met k.
Proof.
  intros Hk. rewrite idxmax_None_iff. unfold minute_without_wind. split.
  - intros Hall. split; [done|]. intros r Hr Hkey. apply Hall, group_elem_of.
    by rewrite minute_rows_perm.
  - intros [_ Hall] r [Hr Hkey]%group_elem_of. rewrite minute_rows_perm in Hr. by apply Hall.
Qed.

Lemma minute_keys met k :
  k ∈ group_keys met_Time_key (minute_rows met) ↔ k ∈ map met_Time_key (met_rows met).
Proof. by rewrite group_keys_elem, minute_rows_perm. Qed.

(** X11: the minute alignment of the meteorological stream fails, with a
    [KeyError], exactly when the stream has a wind-speed column with a value
    in it and either has no heading column or has a minute in which no row
    has a wind speed.  A stream without rows, or without any wind speed, is
    always aligned. *)
Theorem align_met_raises_iff (met : MetFrame) (e : Error) :
  align_met met = Raise e
  ↔ e = KeyError
    ∧ wind_usable met = true
    ∧ (has_windheading met = false ∨ ∃ k, minute_without_wind met k).
Proof.
  rewrite align_met_unfold. destruct (wind_usable met) eqn:Hwind.
  2:{ split; [done | by intros (_ & ? & _)]. }
  set (labels := map _ (group_keys met_Time_key (minute_rows met))).
  assert (Hraise : ∀ label e', loc_label met label = Raise e' → e' = KeyError).
  { intros [r|] e'; simpl; [|congruence]. destruct (has_windheading met); congruence. }
  assert (Hfails : (∃ label, label ∈ labels ∧ loc_label met label = Raise KeyError)
                   ↔ has_windheading met = false ∨ ∃ k, minute_without_wind met k).
  { split.
    - intros (label & (k & -> & Hk)%list_elem_of_fmap & Hl).
      apply minute_keys in Hk.
      destruct (idxmax _ _) as [w|] eqn:Hw; simpl in Hl.
      + left. by destruct (has_windheading met).
      + right. exists k. by apply minute_without_wind_label.
    - intros [Hhead|[k Hk]].
      + unfold wind_usable in Hwind. apply andb_true_iff in Hwind as [_ Hany].
        apply notna_any_nonempty in Hany.
        destruct (met_rows met) as [|r0 rest] eqn:Hrows; [done|].
        exists (idxmax met_windspeed_kmh (group met_Time_key (met_Time_key r0) (minute_rows met))).
        split.
        * apply list_elem_of_fmap. exists (met_Time_key r0). split; [done|].
          apply minute_keys. rewrite Hrows. by left.
        * unfold loc_label. rewrite Hhead. by destruct (idxmax _ _).
      + exists None. split; [|done].
        apply list_elem_of_fmap. exists k. split.
        * symmetry. apply minute_without_wind_label; [apply Hk | done].
        * apply minute_keys, Hk. }
  rewrite <-Hfails. split.
  - destruct (map_result (loc_label met) labels) as [ys|e'] eqn:Hmap; simpl; [done|].
    intros [= ->]. apply map_result_raises in Hmap as (label & Hin & Hl).
    pose proof (Hraise _ _ Hl) as ->. split; [done|]. split; [done|]. by exists label.
  - intros (-> & _ & label & Hin & Hl).
    destruct (map_result (loc_label met) labels) as [ys|e'] eqn:Hmap; simpl.
    + destruct (map_result_ok _ _ _ Hmap label Hin) as [y Hy]. congruence.
    + apply map_result_raises in Hmap as (label' & _ & Hl'). by rewrite (Hraise _ _ Hl').
Qed.

Lemma floor_min_mono (a b : Timestamp) : a ≤ b → floor_min a ≤ floor_min b.
Proof.
  intros Hab. unfold floor_min.
  assert (Hpos : 0 < NS_PER_MINUTE) by done.
  rewrite !Z.mod_eq by lia.
  replace (a - (a - NS_PER_MINUTE * (a `div` NS_PER_MINUTE)))
    with (NS_PER_MINUTE * (a `div` NS_PER_MINUTE)) by lia.
  replace (b - (b - NS_PER_MINUTE * (b `div` NS_PER_MINUTE)))
    with (NS_PER_MINUTE * (b `div` NS_PER_MINUTE)) by lia.
  apply Z.mul_le_mono_nonneg_l; [lia|]. by apply Z.div_le_mono.
Qed.

Lemma minute_rows_sorted met : Sorted (λ a b, met_Time_key a ≤ met_Time_key b) (minute_rows met).
Proof.
  unfold minute_rows.
  pose proof (sort_values_sorted met_Time (sort_values met_Time_key (met_rows met))) as H.
  induction H as [|x l Hl IH Hhd]; constructor; [done|].
  destruct Hhd; constructor. by apply floor_min_mono.
Qed.

Lemma last_rows_strict met :
  StronglySorted Z.lt (map met_Time_key (drop_duplicates_last met_Time_key (minute_rows met))).
Proof.
  apply (proj1 (strictly_sorted_keys met_Time_key _)).
  apply drop_duplicates_last_strict, minute_rows_sorted.
Qed.

Lemma merge_left_keys others wind_max :
  (∀ k, (length (group met_Time_key k wind_max) ≤ 1)%nat) →
  map met_Time_key (merge_left others wind_max) = map met_Time_key others.
Proof.
  intros Hshort. unfold merge_left. induction others as [|o others IH]; [done|].
  cbn [flat_map]. rewrite map_app, IH. simpl. f_equal.
  specialize (Hshort (met_Time_key o)).
  destruct (group met_Time_key (met_Time_key o) wind_max) as [|w [|w' ws]]; simpl in *;
    [done | done | lia].
Qed.

Lemma idxmax_Some {A} (val : A → cell) (l : list A) (w : A) :
  idxmax val l = Some w →
  ∃ v l1 l2, l = l1 ++ w :: l2
    ∧ val w = Some v
    ∧ (∀ x u, x ∈ l1 → val x = Some u → (u < v)%Qc)
    ∧ (∀ x u, x ∈ l2 → val x = Some u → (u ≤ v)%Qc).
Proof.
  intros Hw. destruct (decide (Exists (λ x, is_Some (val x)) l)) as [Hex|Hno].
  - apply Exists_exists in Hex.
    destruct (idxmax_first_max val l Hex) as (w' & v & l1 & l2 & Hw' & Hl & Hv & H1 & H2).
    assert (w' = w) as -> by congruence. by exists v, l1, l2.
  - assert (idxmax val l = None); [|congruence].
    apply idxmax_None_iff. intros x Hx. destruct (val x) eqn:E; [|done].
    destruct Hno. apply Exists_exists. exists x. split; [done|]. by rewrite E.
Qed.

(** The rows [.loc] returns for the labels of the minutes. *)
Lemma gust_rows_group met keys ys k :
  Forall2 (λ k' y, loc_label met (idxmax met_windspeed_kmh
                                   (group met_Time_key k' (minute_rows met))) = Ok y) keys ys →
  map met_Time_key ys = keys
  ∧ group met_Time_key k ys
    = omap (λ k', idxmax met_windspeed_kmh (group met_Time_key k' (minute_rows met)))
           (group id k keys).
Proof.
  induction 1 as [|k' y keys ys Hy Hall [IHk IHg]]; [done|].
  unfold loc_label in Hy. destruct (idxmax _ _) as [w|] eqn:Hw; [|done].
  destruct (has_windheading met); [|done]. injection Hy as ->.
  assert (Hkey : met_Time_key y = k').
  { destruct (idxmax_Some _ _ _ Hw) as (v & g1 & g2 & Hg & _).
    assert (y ∈ group met_Time_key k' (minute_rows met)) as [_ ?]%group_elem_of; [|done].
    rewrite Hg. apply elem_of_app. right. by left. }
  split; [simpl; by rewrite IHk, Hkey|].
  rewrite !group_cons, IHg, Hkey. unfold id at 1 3.
  destruct (decide (k' = k)) as [->|]; [|done]. simpl. by rewrite Hw.
Qed.

(** X12: when the alignment of the meteorological stream succeeds, its
    result has exactly one row for every minute of the stream, in strictly
    ascending order of the minute.  The row is the last row of the minute
    in time order; when the stream has a usable wind column, its wind speed
    and heading are replaced by those of the minute's gust, the first row
    with the minute's largest wind speed. *)
Theorem align_met_one_row_per_minute (met : MetFrame) (out : list MetRow) :
  align_met met = Ok out →
  StronglySorted Z.lt (map met_Time_key out)
  ∧ (∀ k, k ∉ map met_Time_key (met_rows met) → group met_Time_key k out = [])
  ∧ (∀ k, k ∈ map met_Time_key (met_rows met) →
       ∃ o, last (group met_Time_key k (minute_rows met)) = Some o
            ∧ if wind_usable met
              then ∃ w, is_gust (group met_Time_key k (minute_rows met)) w
                        ∧ group met_Time_key k out
                          = [with_wind o (met_windspeed_kmh w) (met_windheading w)]
              else group met_Time_key k out = [o]).
Proof.
  rewrite align_met_unfold. intros Hout.
  assert (Hlast : ∀ k, k ∈ map met_Time_key (met_rows met) →
            ∃ o, last (group met_Time_key k (minute_rows met)) = Some o ∧ met_Time_key o = k).
  { intros k Hk. rewrite <-minute_rows_perm in Hk.
    destruct (last (group met_Time_key k (minute_rows met))) as [o|] eqn:Hlast.
    - exists o. split; [done|]. by apply last_group_elem in Hlast as [_ ?].
    - by apply last_None, group_nil in Hlast. }
  assert (Hnone : ∀ k, k ∉ map met_Time_key (met_rows met) →
            group met_Time_key k (drop_duplicates_last met_Time_key (minute_rows met)) = []).
  { intros k Hk. apply group_nil. by rewrite drop_duplicates_last_keys, minute_rows_perm. }
  destruct (wind_usable met) eqn:Hwind.
  - destruct (map_result _ _) as [ys|] eqn:Hmap; [|done]. simpl in Hout. injection Hout as <-.
    apply map_result_Forall2, Forall2_fmap_l in Hmap.
    assert (Hys : ∀ k, map met_Time_key ys = group_keys met_Time_key (minute_rows met)
              ∧ group met_Time_key k ys
                = omap (λ k', idxmax met_windspeed_kmh (group met_Time_key k' (minute_rows met)))
                       (group id k (group_keys met_Time_key (minute_rows met))))
      by (intros k; by apply gust_rows_group).
    assert (Hshort : ∀ k, (length (group met_Time_key k ys) ≤ 1)%nat).
    { intros k. rewrite (proj2 (Hys k)), group_keys_once.
      case_decide; simpl; [destruct (idxmax _ _); simpl; lia | lia]. }
    split; [rewrite merge_left_keys by done; apply last_rows_strict|]. split.
    + intros k Hk. by rewrite merge_left_group, Hnone.
    + intros k Hk. destruct (Hlast k Hk) as (o & Ho & Hkey).
      exists o. split; [done|].
      pose proof (proj2 (Hys k)) as Hg. rewrite group_keys_once in Hg.
      rewrite decide_True in Hg by (by rewrite minute_rows_perm). simpl in Hg.
      destruct (idxmax met_windspeed_kmh (group met_Time_key k (minute_rows met)))
        as [w|] eqn:Hw.
      2:{ assert (k ∈ group_keys met_Time_key (minute_rows met)) as [i Hi]%list_elem_of_lookup
            by (by apply minute_keys).
          destruct (Forall2_lookup_l _ _ _ _ _ Hmap Hi) as (y & _ & Hy).
          unfold compose in Hy. by rewrite Hw in Hy. }
      exists w. split.
      * exact (idxmax_Some _ _ _ Hw).
      * rewrite merge_left_group, drop_duplicates_last_group, Ho. simpl.
        by rewrite Hkey, Hg.
  - injection Hout as <-. split; [apply last_rows_strict|]. split; [done|].
    intros k Hk. destruct (Hlast k Hk) as (o & Ho & Hkey).
    exists o. split; [done|]. by rewrite drop_duplicates_last_group, Ho.
Qed.

End met_minutes.

Section met_minutes_examples.
#[local] Existing Instance reference.

Lemma align_met_one_row_per_minute_witness :
  align_met gust_frame = Ok [met_row (hms 12 0 40) (qz 2) (qz 7) (qz 180)]
  ∧ StronglySorted Z.lt (map met_Time_key [met_row (hms 12 0 40) (qz 2) (qz 7) (qz 180)]).
Proof.
  assert (H : align_met gust_frame = Ok [met_row (hms 12 0 40) (qz 2) (qz 7) (qz 180)])
    by (by vm_compute).
  split; [exact H|].
  exact (proj1 (align_met_one_row_per_minute gust_frame _ H)).
Defined.

End met_minutes_examples.

(** ** The snow ledger *)

Section snow_ledger.
Context {R : Runtime}.

Lemma named_column_Some cols words c :
  named_column cols words = Some c → header_names cols words.
Proof.
  unfold named_column. intros [Hin Hc]%find_some.
  exists c. split; [by apply list_elem_of_In | by apply bool_decide_eq_true in Hc].
Qed.

Lemma named_column_None cols words :
  named_column cols words = None ↔ ¬ header_names cols words.
Proof.
  unfold named_column. split.
  - intros Hnone (c & Hc & Hw). apply list_elem_of_In in Hc.
    pose proof (find_none _ _ Hnone c Hc) as H. by apply bool_decide_eq_false in H.
  - intros Hno. destruct (find _ cols) as [c|] eqn:E; [|done].
    destruct Hno. by eapply named_column_Some.
Qed.

Lemma ingest_snow_file_unfold s f df date_col snow_col :
  sno_csv s = Some f →
  file_frame f = Some df →
  named_column (columns df) date_words = Some date_col →
  named_column (columns df) snow_words = Some snow_col →
  ingest_snow_file s =
    let rows := sort_values snow_Time (snow_rows df date_col snow_col) in
    match rows with
    | [] => Ok (s, 0%nat)
    | _ =>
        let out := drop_duplicates_last snow_Time (with_depth rows) in
        Ok (save_snow_master
              (drop_duplicates_last snow_Time
                 (sort_values snow_Time (load_snow_master s ++ out))) s,
            length out)
    end.
Proof.
  intros Hf Hdf Hd Hs. unfold ingest_snow_file, read_csv_any_encoding.
  rewrite Hf, Hdf. cbn [bind].
  unfold named_column, date_words, snow_words in Hd, Hs. by rewrite Hd, Hs.
Qed.

(** X13: the snow import fails in two cases only: no encoding reads
    [sno.csv], or its header lacks a date column or a snow column.  A
    missing file, unreadable dates or depths, and a file without rows never
    make it fail. *)
Theorem ingest_snow_file_errors (s : Store) (e : Error) :
  ingest_snow_file s = Raise e
  ↔ ∃ f, sno_csv s = Some f
         ∧ ((file_frame f = None ∧ e = UnreadableFile)
            ∨ (∃ df, file_frame f = Some df
                     ∧ (¬ header_names (columns df) date_words
                        ∨ ¬ header_names (columns df) snow_words)
                     ∧ e = InvalidSnowSchema)).
Proof.
  destruct (sno_csv s) as [f|] eqn:Hf.
  2:{ unfold ingest_snow_file. rewrite Hf. split; [done | by intros (f & ? & _)]. }
  destruct (file_frame f) as [df|] eqn:Hdf.
  2:{ unfold ingest_snow_file, read_csv_any_encoding. rewrite Hf, Hdf. cbn [bind]. split.
      - intros [= <-]. exists f. split; [done|]. by left.
      - intros (f' & [= <-] & [[_ ->]|(df & Hdf' & _)]); [done | congruence]. }
  destruct (named_column (columns df) date_words) as [date_col|] eqn:Hd;
    [destruct (named_column (columns df) snow_words) as [snow_col|] eqn:Hs|].
  - rewrite (ingest_snow_file_unfold s f df date_col snow_col) by done. split.
    + cbv zeta. by destruct (sort_values snow_Time _).
    + intros (f' & [= <-] & [[Hnone _]|(df' & Hdf' & Hno & _)]); [congruence|].
      assert (df' = df) as -> by congruence.
      destruct Hno as [Hno|Hno]; destruct Hno; by eapply named_column_Some.
  - assert (ingest_snow_file s = Raise InvalidSnowSchema) as ->.
    { unfold ingest_snow_file, read_csv_any_encoding. rewrite Hf, Hdf. cbn [bind].
      unfold named_column, date_words, snow_words in Hd, Hs. by rewrite Hd, Hs. }
    split.
    + intros [= <-]. exists f. split; [done|]. right. exists df. split; [done|].
      split; [|done]. right. by apply named_column_None.
    + intros (f' & [= <-] & [[Hnone _]|(df' & _ & _ & ->)]); [congruence | done].
  - assert (ingest_snow_file s = Raise InvalidSnowSchema) as ->.
    { unfold ingest_snow_file, read_csv_any_encoding. rewrite Hf, Hdf. cbn [bind].
      unfold named_column, date_words, snow_words in Hd. by rewrite Hd. }
    split.
    + intros [= <-]. exists f. split; [done|]. right. exists df. split; [done|].
      split; [|done]. left. by apply named_column_None.
    + intros (f' & [= <-] & [[Hnone _]|(df' & _ & _ & ->)]); [congruence | done].
Qed.

Lemma with_depth_perm rows :
  with_depth (sort_values snow_Time rows) ≡ₚ with_depth rows.
Proof. unfold with_depth. by rewrite sort_values_perm. Qed.

Lemma file_rows_strict rows :
  StronglySorted (λ a b, snow_Time a < snow_Time b)
    (drop_duplicates_last snow_Time (with_depth (sort_values snow_Time rows))).
Proof.
  apply drop_duplicates_last_strict, StronglySorted_Sorted.
  apply (StronglySorted_sublist _ _ (sort_values snow_Time rows)); [apply sublist_filter|].
  apply Sorted_StronglySorted; [intros ???; lia | apply sort_values_sorted].
Qed.

Lemma file_rows_days rows d :
  d ∈ map snow_Time (drop_duplicates_last snow_Time (with_depth (sort_values snow_Time rows)))
  ↔ d ∈ map snow_Time (with_depth rows).
Proof. by rewrite drop_duplicates_last_keys, with_depth_perm. Qed.

Lemma file_rows_elem rows r :
  r ∈ drop_duplicates_last snow_Time (with_depth (sort_values snow_Time rows)) →
  r ∈ with_depth rows.
Proof.
  intros Hr. rewrite <-with_depth_perm.
  eapply elem_of_sublist; [done | apply drop_duplicates_last_sublist].
Qed.

(** X14: a snow file with a date column, a snow column and at least one
    readable date is merged into the ledger so that the saved ledger is in
    strictly ascending order of the day, so with one entry per day; its
    days are those of the old ledger and those the file gives a depth for;
    every entry is an entry of the old ledger or a line of the file with a
    depth, and an entry that is alone with its day among them is saved.  A
    line without a readable depth adds nothing.  The returned count is the
    number of distinct days the file gives a depth for.  Which entry stays
    of a day that several carry depends on the order in which
    [sort_values] leaves them. *)
Theorem ingest_snow_file_ledger (s : Store) (f : CsvFile) (df : RawFrame)
    (date_col snow_col : string) :
  sno_csv s = Some f →
  file_frame f = Some df →
  named_column (columns df) date_words = Some date_col →
  named_column (columns df) snow_words = Some snow_col →
  snow_rows df date_col snow_col ≠ [] →
  let entries := with_depth (snow_rows df date_col snow_col) in
  ∃ s' ledger,
    ingest_snow_file s
    = Ok (s', length (remove_dups (map snow_Time entries)))
    ∧ snow_parquet s' = Some ledger
    ∧ StronglySorted Z.lt (map snow_Time ledger)
    ∧ (∀ d, d ∈ map snow_Time ledger
            ↔ d ∈ map snow_Time (load_snow_master s) ∨ d ∈ map snow_Time entries)
    ∧ (∀ r, r ∈ ledger → r ∈ load_snow_master s ∨ r ∈ entries)
    ∧ (∀ r, group snow_Time (snow_Time r) (load_snow_master s ++ entries) = [r] →
            r ∈ ledger).
Proof.
  intros Hf Hdf Hd Hs Hne entries.
  rewrite (ingest_snow_file_unfold s f df date_col snow_col) by done. cbv zeta.
  set (rows := snow_rows df date_col snow_col) in *.
  destruct (sort_values snow_Time rows) as [|r0 rest] eqn:Hsort.
  { destruct Hne. apply Permutation_nil_r. by rewrite <-Hsort, sort_values_perm. }
  rewrite <-Hsort. clear r0 rest Hsort.
  set (out := drop_duplicates_last snow_Time (with_depth (sort_values snow_Time rows))).
  set (ledger := drop_duplicates_last snow_Time
                   (sort_values snow_Time (load_snow_master s ++ out))).
  assert (Hstrict : StronglySorted (λ a b, snow_Time a < snow_Time b) ledger)
    by apply drop_duplicates_last_strict, sort_values_sorted.
  assert (Hdays : ∀ d, d ∈ map snow_Time ledger
                       ↔ d ∈ map snow_Time (load_snow_master s) ∨ d ∈ map snow_Time entries).
  { intros d. unfold ledger.
    rewrite drop_duplicates_last_keys, sort_values_perm, map_app, elem_of_app.
    unfold out. by rewrite file_rows_days. }
  assert (Helem : ∀ r, r ∈ ledger → r ∈ load_snow_master s ∨ r ∈ entries).
  { intros r Hr.
    assert (r ∈ load_snow_master s ++ out) as [?|Hout]%elem_of_app.
    { apply (sort_values_elem snow_Time).
      eapply elem_of_sublist; [done | apply drop_duplicates_last_sublist]. }
    - by left.
    - right. by apply file_rows_elem. }
  exists (save_snow_master ledger s), ledger. split; [|split; [|split; [|split; [|split]]]].
  - do 2 f_equal. rewrite <-(length_map snow_Time out).
    apply Permutation_length, NoDup_Permutation.
    + apply strictly_sorted_NoDup, file_rows_strict.
    + apply NoDup_remove_dups.
    + intros d. rewrite elem_of_remove_dups. apply file_rows_days.
  - simpl. f_equal. by apply sort_values_strict_id.
  - by apply (proj1 (strictly_sorted_keys snow_Time _)).
  - done.
  - done.
  - intros r Hg.
    assert (Hd' : snow_Time r ∈ map snow_Time ledger).
    { apply Hdays. rewrite <-elem_of_app, <-map_app. apply group_not_nil. by rewrite Hg. }
    apply list_elem_of_fmap in Hd' as (a & Hda & Ha).
    assert (a ∈ group snow_Time (snow_Time r) (load_snow_master s ++ entries)) as Hag.
    { apply group_elem_of. split; [|done]. apply elem_of_app. by apply Helem. }
    rewrite Hg in Hag. by apply list_elem_of_singleton in Hag as <-.
Qed.

(** X15: importing the same snow file a second time succeeds again,
    returns the same count and leaves the days of the ledger as they are. *)
Theorem ingest_snow_file_again (s s1 : Store) (n : nat) :
  ingest_snow_file s = Ok (s1, n) →
  ∃ s2, ingest_snow_file s1 = Ok (s2, n)
        ∧ map snow_Time (load_snow_master s2) = map snow_Time (load_snow_master s1).
Proof.
  intros Hrun.
  destruct (sno_csv s) as [f|] eqn:Hf.
  2:{ unfold ingest_snow_file in Hrun. rewrite Hf in Hrun. injection Hrun as <- <-.
      exists s. unfold ingest_snow_file. by rewrite Hf. }
  destruct (file_frame f) as [df|] eqn:Hdf.
  2:{ unfold ingest_snow_file, read_csv_any_encoding in Hrun. by rewrite Hf, Hdf in Hrun. }
  destruct (named_column (columns df) date_words) as [date_col|] eqn:Hd.
  2:{ unfold ingest_snow_file, read_csv_any_encoding in Hrun. rewrite Hf, Hdf in Hrun.
      unfold named_column, date_words in Hd. cbn [bind] in Hrun. by rewrite Hd in Hrun. }
  destruct (named_column (columns df) snow_words) as [snow_col|] eqn:Hs.
  2:{ unfold ingest_snow_file, read_csv_any_encoding in Hrun. rewrite Hf, Hdf in Hrun.
      unfold named_column, date_words, snow_words in Hd, Hs. cbn [bind] in Hrun.
      by rewrite Hd, Hs in Hrun. }
  rewrite (ingest_snow_file_unfold s f df date_col snow_col) in Hrun by done.
  cbv zeta in Hrun.
  set (rows := snow_rows df date_col snow_col) in *.
  destruct (sort_values snow_Time rows) as [|r0 rest] eqn:Hsort.
  { injection Hrun as <- <-. exists s.
    rewrite (ingest_snow_file_unfold s f df date_col snow_col) by done.
    cbv zeta. fold rows. by rewrite Hsort. }
  rewrite <-Hsort in Hrun.
  set (out := drop_duplicates_last snow_Time (with_depth (sort_values snow_Time rows))) in *.
  set (ledger := drop_duplicates_last snow_Time
                   (sort_values snow_Time (load_snow_master s ++ out))) in *.
  assert (Hstrict : StronglySorted (λ a b, snow_Time a < snow_Time b) ledger)
    by apply drop_duplicates_last_strict, sort_values_sorted.
  assert (Hsaved : sort_values snow_Time ledger = ledger) by (by apply sort_values_strict_id).
  injection Hrun as <- <-.
  set (ledger2 := drop_duplicates_last snow_Time (sort_values snow_Time (ledger ++ out))).
  assert (Hstrict2 : StronglySorted (λ a b, snow_Time a < snow_Time b) ledger2)
    by apply drop_duplicates_last_strict, sort_values_sorted.
  exists (save_snow_master ledger2 (save_snow_master ledger s)).
  rewrite (ingest_snow_file_unfold (save_snow_master ledger s) f df date_col snow_col) by done.
  cbv zeta. fold rows. rewrite Hsort, <-Hsort. fold out.
  assert (load_snow_master (save_snow_master ledger s) = ledger) as -> by (by simpl).
  fold ledger2. split; [done|].
  unfold load_snow_master. simpl.
  rewrite (sort_values_strict_id snow_Time ledger2) by done.
  apply strictly_sorted_same_elements;
    [by apply (proj1 (strictly_sorted_keys snow_Time _)) ..|].
  intros d. unfold ledger2.
  rewrite drop_duplicates_last_keys, sort_values_perm, map_app, elem_of_app.
  split; [|by left]. intros [?|Hout]; [done|].
  unfold ledger. rewrite drop_duplicates_last_keys, sort_values_perm, map_app, elem_of_app.
  by right.
Qed.

End snow_ledger.

Section snow_ledger_examples.
#[local] Existing Instance reference.

Lemma ingest_snow_file_ledger_witness :
  snow_rows
    {| columns := ["Dato"; " Snow_CM "]%string;
       records := [["1500"; "45"]; ["10"; ""]; ["1600"; "50"]; ["3000"; "x"]]%string |}
    "Dato" " Snow_CM " ≠ []
  ∧ ∃ s' ledger,
      ingest_snow_file demo_snow_store = Ok (s', 1%nat)
      ∧ snow_parquet s' = Some ledger
      ∧ StronglySorted Z.lt (map snow_Time ledger).
Proof.
  assert (Hne : snow_rows
                  {| columns := ["Dato"; " Snow_CM "]%string;
                     records := [["1500"; "45"]; ["10"; ""]; ["1600"; "50"];
                                 ["3000"; "x"]]%string |}
                  "Dato" " Snow_CM " ≠ []) by (by vm_compute).
  split; [exact Hne|].
  assert (Hd : named_column ["Dato"; " Snow_CM "]%string date_words = Some "Dato"%string)
    by (by vm_compute).
  assert (Hs : named_column ["Dato"; " Snow_CM "]%string snow_words = Some " Snow_CM "%string)
    by (by vm_compute).
  destruct (ingest_snow_file_ledger demo_snow_store
              demo_sno_csv _ "Dato" " Snow_CM " eq_refl eq_refl Hd Hs Hne)
    as (s' & ledger & Hrun & Hsaved & Hsorted & _).
  exists s', ledger. split; [exact Hrun|]. split; [exact Hsaved | exact Hsorted].
Defined.

Lemma ingest_snow_file_again_witness :
  ∃ s1 s2, ingest_snow_file demo_snow_store = Ok (s1, 1%nat)
           ∧ ingest_snow_file s1 = Ok (s2, 1%nat)
           ∧ map snow_Time (load_snow_master s2) = map snow_Time (load_snow_master s1).
Proof.
  destruct (ingest_snow_file demo_snow_store) as [[s1 n]|e] eqn:Hrun.
  - assert (n = 1%nat) as ->.
    { assert (H : (match ingest_snow_file demo_snow_store with
                   | Ok (_, n) => n
                   | Raise _ => 0%nat
                   end) = 1%nat) by (by vm_compute).
      by rewrite Hrun in H. }
    destruct (ingest_snow_file_again demo_snow_store s1 1 Hrun) as (s2 & Hagain & Hdays).
    by exists s1, s2.
  - exfalso.
    assert (H : (match ingest_snow_file demo_snow_store with
                 | Ok _ => true
                 | Raise _ => false
                 end) = true) by (by vm_compute).
    by rewrite Hrun in H.
Defined.

End snow_ledger_examples.

(** ** The monthly extracts *)

Section monthly_extracts.
Context {R : Runtime}.

Section sort_by_facts.
Context {A : Type} (le : A → A → bool).
Hypothesis le_total : ∀ a b, le a b = false → le b a = true.

Lemma insert_sorted_by_perm x (l : list A) : insert_sorted le x l ≡ₚ x :: l.
Proof.
  induction l as [|y l IH]; [done|]. simpl.
  destruct (le x y); [done|]. rewrite IH. apply Permutation_swap.
Qed.

Lemma sort_by_perm (l : list A) : sort_by le l ≡ₚ l.
Proof.
  unfold sort_by. induction l as [|x l IH]; [done|].
  simpl. rewrite insert_sorted_by_perm. by f_equiv.
Qed.

Lemma insert_sorted_by_sorted x (l : list A) :
  Sorted (λ a b, le a b = true) l → Sorted (λ a b, le a b = true) (insert_sorted le x l).
Proof.
  induction 1 as [|y l Hl IH Hhd]; simpl; [by repeat constructor|].
  destruct (le x y) eqn:Hxy; [by repeat constructor|].
  constructor; [done|].
  destruct Hhd as [|z l Hyz]; simpl; [repeat constructor; by apply le_total|].
  destruct (le x z); constructor; [by apply le_total | done].
Qed.

Lemma sort_by_sorted (l : list A) : Sorted (λ a b, le a b = true) (sort_by le l).
Proof.
  unfold sort_by. induction l as [|x l IH]; [constructor|].
  simpl. by apply insert_sorted_by_sorted.
Qed.

End sort_by_facts.

Lemma label_leb_spec a b : label_leb a b = true ↔ label_lt a b ∨ a = b.
Proof.
  unfold label_leb, label_lt. destruct a as [y m], b as [y' m']. simpl.
  rewrite orb_true_iff, andb_true_iff, !bool_decide_eq_true. split.
  - intros [?|[-> Hm]]; [by left; left|].
    destruct (decide (m = m')) as [->|]; [by right | left; right; lia].
  - intros [[?|[-> ?]]|[= -> ->]]; [by left | right; lia | right; lia].
Qed.

Lemma label_leb_total a b : label_leb a b = false → label_leb b a = true.
Proof.
  intros Hab. apply label_leb_spec.
  destruct (label_leb a b) eqn:E; [done|]. clear Hab.
  assert (¬ (label_lt a b ∨ a = b)) as Hno by (rewrite <-label_leb_spec; congruence).
  unfold label_lt in *. destruct a as [y m], b as [y' m']. simpl in *.
  destruct (decide (y' < y)); [by left; left|].
  destruct (decide (y = y')) as [->|]; [|destruct Hno; left; left; lia].
  destruct (decide (m' < m)); [left; right; lia|].
  destruct Hno. destruct (decide (m = m')) as [->|]; [by right | left; right; lia].
Qed.

Lemma label_lt_trans a b c : label_lt a b → label_lt b c → label_lt a c.
Proof. unfold label_lt. lia. Qed.

Lemma label_lt_irrefl a : ¬ label_lt a a.
Proof. unfold label_lt. lia. Qed.

(** A list of labels without repetition that is sorted is strictly
    sorted. *)
Lemma labels_strict (rel : relation (Z * Z)) (l : list (Z * Z)) :
  (∀ a b, rel a b ↔ label_leb a b = true) ∨ (∀ a b, rel a b ↔ label_leb b a = true) →
  Sorted rel l → NoDup l →
  StronglySorted (λ a b, (rel a b ∧ a ≠ b)) l.
Proof.
  intros HR Hs Hnd.
  assert (Htrans : Transitive rel).
  { intros a b c. destruct HR as [HR|HR]; rewrite !HR, !label_leb_spec.
    - intros [? | ->] [? | ->]; eauto using label_lt_trans.
    - intros [? | ->] [? | ->]; eauto using label_lt_trans. }
  apply Sorted_StronglySorted in Hs; [|done].
  induction Hs as [|x l Hl IH Hall]; [constructor|].
  apply NoDup_cons in Hnd as [Hx Hnd]. constructor; [by apply IH|].
  rewrite Forall_forall in Hall |- *. intros y Hy. split; [by apply Hall|].
  by intros ->.
Qed.

Lemma distinct_labels_elem (l : list (Z * Z)) x :
  x ∈ foldr (λ l acc, if bool_decide (l ∈ acc) then acc else l :: acc) [] l ↔ x ∈ l.
Proof.
  induction l as [|y l IH]; [done|]. simpl. case_bool_decide as Hin.
  - rewrite IH, elem_of_cons. split; [by right|]. intros [->|?]; [by apply IH | done].
  - by rewrite !elem_of_cons, IH.
Qed.

Lemma distinct_labels_NoDup (l : list (Z * Z)) :
  NoDup (foldr (λ l acc, if bool_decide (l ∈ acc) then acc else l :: acc) [] l).
Proof.
  induction l as [|y l IH]; [constructor|]. simpl.
  case_bool_decide; [done | by constructor].
Qed.

Lemma distinct_labels_sublist (l : list (Z * Z)) :
  foldr (λ l acc, if bool_decide (l ∈ acc) then acc else l :: acc) [] l `sublist_of` l.
Proof.
  induction l as [|y l IH]; [done|]. simpl.
  case_bool_decide; [by apply sublist_cons | by apply sublist_skip].
Qed.

Lemma month_groups_elem master m :
  m ∈ month_groups master ↔ ∃ r, r ∈ master ∧ month_label (Time r) = m.
Proof.
  unfold month_groups. rewrite distinct_labels_elem, sort_by_perm, list_elem_of_fmap.
  split; intros (r & ? & ?); by exists r.
Qed.

Lemma month_groups_NoDup master : NoDup (month_groups master).
Proof. apply distinct_labels_NoDup. Qed.

Lemma month_groups_ascending master :
  StronglySorted label_lt (month_groups master).
Proof.
  assert (H : StronglySorted (λ a b, label_leb a b = true ∧ a ≠ b) (month_groups master)).
  { apply labels_strict; [by left | | apply month_groups_NoDup].
    apply StronglySorted_Sorted.
    eapply StronglySorted_sublist; [apply distinct_labels_sublist|].
    apply Sorted_StronglySorted; [|apply sort_by_sorted, label_leb_total].
    intros a b c. rewrite !label_leb_spec.
    intros [? | ->] [? | ->]; eauto using label_lt_trans. }
  induction H as [|x l Hl IH Hall]; constructor; [done|].
  eapply Forall_impl; [done|]. intros y [[?|?]%label_leb_spec ?]; done.
Qed.

Lemma monthly_files_labels master :
  map fst (monthly_files master) = month_groups (sort_values Time master).
Proof. unfold monthly_files. rewrite map_map. simpl. apply map_id. Qed.

Lemma monthly_files_elem master m j :
  (m, j) ∈ monthly_files master
  ↔ m ∈ month_groups (sort_values Time master)
    ∧ j = month_json (of_month m (sort_values Time master)).
Proof.
  unfold monthly_files. rewrite list_elem_of_fmap. split.
  - intros (m' & [= -> ->] & Hm). done.
  - intros [Hm ->]. by exists m.
Qed.

Lemma month_json_columns g : month_json g = columns_of (sort_values Time g).
Proof. done. Qed.

(** The sizes of the classes of a partition add up. *)
Lemma class_sizes {A K} `{EqDecision K} (f : A → K) (ks : list K) (l : list A) :
  NoDup ks → (∀ x, x ∈ l → f x ∈ ks) →
  sum_list_with (λ k, length (filter (λ x, f x = k) l)) ks = length l.
Proof.
  intros Hnd. induction l as [|x l IH]; intros Hin.
  - simpl. clear Hnd Hin. by induction ks.
  - simpl. rewrite <-IH by (intros; apply Hin; by right).
    assert (Hx : f x ∈ ks) by (apply Hin; by left).
    clear IH Hin. induction ks as [|k ks IHk]; [by apply elem_of_nil in Hx|].
    apply NoDup_cons in Hnd as [Hk Hnd]. simpl. rewrite filter_cons.
    destruct (decide (f x = k)) as [<-|Hne].
    + simpl. f_equal. f_equal. clear IHk Hx Hnd.
      induction ks as [|k' ks IHk]; [done|]. simpl. rewrite filter_cons.
      rewrite decide_False by (intros <-; apply Hk; by left).
      f_equal. apply IHk. intros ?; apply Hk; by right.
    + apply elem_of_cons in Hx as [?|Hx]; [done|].
      specialize (IHk Hnd Hx). lia.
Qed.

(** What the generator writes for a month is the extract of that month. *)
Lemma month_json_extract m master :
  month_extract m master (month_json (of_month m (sort_values Time master))).
Proof.
  exists (sort_values Time (of_month m (sort_values Time master))).
  assert (Hperm : sort_values Time (of_month m (sort_values Time master)) ≡ₚ of_month m master).
  { rewrite sort_values_perm. unfold of_month. by rewrite sort_values_perm. }
  split; [apply month_json_columns|]. split; [done|].
  split; [apply sort_values_sorted|].
  intros Hnd. apply sort_values_unique; [|done | apply sort_values_sorted].
  eapply sublist_NoDup; [done|]. apply (fmap_sublist Time), sublist_filter.
Qed.

Lemma month_of_archive master m :
  m ∈ month_groups (sort_values Time master)
  ↔ m ∈ map (λ r, month_label (Time r)) master.
Proof.
  rewrite month_groups_elem, list_elem_of_fmap. split.
  - intros (r & Hr & <-). exists r. split; [done|]. by rewrite <-(sort_values_perm Time master).
  - intros (r & -> & Hr). exists r. split; [|done]. by rewrite (sort_values_perm Time master).
Qed.

(** X16: the monthly extracts partition the archive.  One file is written
    for every month that has a reading and for no other month, in ascending
    order of the label; the file of a month holds that month's readings, in
    ascending order of time, as six arrays of equal length; the files
    together hold as many rows as the archive. *)
Theorem monthly_files_partition (master : list Reading) :
  let files := monthly_files master in
  StronglySorted label_lt (map fst files)
  ∧ (∀ m, m ∈ map fst files ↔ m ∈ map (λ r, month_label (Time r)) master)
  ∧ (∀ m j, (m, j) ∈ files → month_extract m master j)
  ∧ sum_list_with (λ f, length (mj_time f.2)) files = length master.
Proof.
  intros files. unfold files. rewrite monthly_files_labels.
  split; [apply month_groups_ascending|].
  split; [apply month_of_archive|]. split.
  - intros m j [_ ->]%monthly_files_elem. apply month_json_extract.
  - unfold monthly_files.
    rewrite <-(sort_values_length Time master).
    rewrite <-(class_sizes (λ r, month_label (Time r))
                 (month_groups (sort_values Time master)) (sort_values Time master)).
    + induction (month_groups (sort_values Time master)) as [|m ms IH]; [done|].
      simpl. rewrite IH. f_equal. by rewrite length_map, sort_values_length.
    + apply month_groups_NoDup.
    + intros r Hr. apply month_groups_elem. by exists r.
Qed.

Lemma write_all_other {V} (l : list (Z * Z * V)) (m0 : gmap (Z * Z) V) k :
  k ∉ map fst l → foldl (λ m f, <[f.1 := f.2]> m) m0 l !! k = m0 !! k.
Proof.
  revert m0. induction l as [|f l IH]; intros m0 Hk; [done|]. simpl.
  rewrite IH by (intros ?; apply Hk; by right).
  apply lookup_insert_ne. intros Heq. apply Hk. rewrite <-Heq. by left.
Qed.

Lemma write_all_written {V} (l : list (Z * Z * V)) (m0 : gmap (Z * Z) V) k v :
  NoDup (map fst l) → (k, v) ∈ l → foldl (λ m f, <[f.1 := f.2]> m) m0 l !! k = Some v.
Proof.
  revert m0. induction l as [|f l IH]; intros m0 Hnd Hin; [by apply elem_of_nil in Hin|].
  simpl in *. apply NoDup_cons in Hnd as [Hf Hnd].
  apply elem_of_cons in Hin as [<-|Hin]; [|by apply IH].
  rewrite write_all_other by done. simpl. apply lookup_insert_eq.
Qed.

Lemma month_list_labels master m :
  m ∈ month_list master ↔ m ∈ map (λ r, month_label (Time r)) master.
Proof.
  unfold month_list. by rewrite sort_by_perm, monthly_files_labels, month_of_archive.
Qed.

Lemma month_list_descending master :
  StronglySorted (λ a b, label_lt b a) (month_list master).
Proof.
  assert (H : StronglySorted (λ a b, label_leb b a = true ∧ a ≠ b) (month_list master)).
  { apply labels_strict; [by right | |].
    - apply (sort_by_sorted (λ a b, label_leb b a)). intros a b. apply label_leb_total.
    - unfold month_list. rewrite sort_by_perm, monthly_files_labels.
      apply month_groups_NoDup. }
  induction H as [|x l Hl IH Hall]; constructor; [done|].
  eapply Forall_impl; [done|]. intros y [[?|?]%label_leb_spec ?]; done.
Qed.

Lemma generate_monthly_json_lookup (s : Store) m :
  data_months (generate_monthly_json s).1 !! m
  = if decide (m ∈ map (λ r, month_label (Time r)) (load_master s))
    then Some (month_json (of_month m (sort_values Time (load_master s))))
    else data_months s !! m.
Proof.
  destruct (generate_monthly_json_fields s) as (_ & _ & _ & _ & ->).
  set (master := load_master s).
  assert (write_months master (data_months s)
          = foldl (λ m f, <[f.1 := f.2]> m) (data_months s) (monthly_files master)) as ->
    by (unfold write_months; destruct master; [|done];
        unfold monthly_files; by rewrite sort_values_nil).
  destruct (decide (m ∈ map (λ r, month_label (Time r)) master)) as [Hin|Hout].
  - apply write_all_written.
    + rewrite monthly_files_labels. apply month_groups_NoDup.
    + apply monthly_files_elem. split; [by apply month_of_archive | done].
  - apply write_all_other. by rewrite monthly_files_labels, month_of_archive.
Qed.

Lemma generate_monthly_json_months (s : Store) :
  (generate_monthly_json s).2 = month_list (load_master s).
Proof.
  unfold generate_monthly_json. destruct (load_master s); [|done].
  unfold month_list, monthly_files. by rewrite sort_values_nil.
Qed.

(** X17: generating the extracts writes, for every month that has a reading
    in the archive, the file of that month over whatever was there, and
    leaves every other file of the data directory as it was: the extract of
    a month that is no longer in the archive is not removed.  The list
    returned for the manifest has exactly the months of the archive, each
    once, the newest first. *)
Theorem generate_monthly_json_writes (s : Store) :
  let master := load_master s in
  let s' := (generate_monthly_json s).1 in
  let ms := (generate_monthly_json s).2 in
  (∀ m, m ∈ map (λ r, month_label (Time r)) master →
        ∃ j, data_months s' !! m = Some j ∧ month_extract m master j)
  ∧ (∀ m, m ∉ map (λ r, month_label (Time r)) master →
          data_months s' !! m = data_months s !! m)
  ∧ StronglySorted (λ a b, label_lt b a) ms
  ∧ ∀ m, m ∈ ms ↔ m ∈ map (λ r, month_label (Time r)) master.
Proof.
  intros master s' ms. split; [|split].
  - intros m Hm. eexists. split; [|apply month_json_extract].
    unfold s'. rewrite generate_monthly_json_lookup. by rewrite decide_True.
  - intros m Hm. unfold s'. rewrite generate_monthly_json_lookup. by rewrite decide_False.
  - unfold ms, master. rewrite generate_monthly_json_months.
    split; [apply month_list_descending | apply month_list_labels].
Qed.

End monthly_extracts.

(** ** Runs that fail *)

Section failing.
Context {R : Runtime}.

Lemma map_result_Raise_iff {A B} (f : A → result B) (l : list A) e :
  map_result f l = Raise e
  ↔ ∃ before x after, l = before ++ x :: after
      ∧ Forall (λ y, ∃ z, f y = Ok z) before
      ∧ f x = Raise e.
Proof.
  induction l as [|x l IH]; simpl.
  - split; [done|]. intros (before & ? & ? & H & _). by destruct before.
  - destruct (f x) as [y|e'] eqn:Hx; simpl.
    + assert (Hstep :
        (∃ before x0 after, x :: l = before ++ x0 :: after
           ∧ Forall (λ y, ∃ z, f y = Ok z) before ∧ f x0 = Raise e)
        ↔ (∃ before x0 after, l = before ++ x0 :: after
             ∧ Forall (λ y, ∃ z, f y = Ok z) before ∧ f x0 = Raise e)).
      { split.
        - intros (before & x' & after & Heq & Hall & Hx').
          destruct before as [|b before]; injection Heq as -> ->; [congruence|].
          apply Forall_cons in Hall as [_ Hall]. by exists before, x', after.
        - intros (before & x' & after & -> & Hall & Hx').
          exists (x :: before), x', after. split; [done|]. split; [|done].
          constructor; [by exists y | done]. }
      rewrite Hstep, <-IH. by destruct (map_result f l).
    + split.
      * intros [= ->]. exists [], x, l. by repeat split.
      * intros (before & x' & after & Heq & Hall & Hx').
        destruct before as [|b before]; injection Heq as -> ->; [congruence|].
        apply Forall_cons in Hall as [[z Hz] _]. congruence.
Qed.

Lemma map_result_Ok_iff {A B} (f : A → result B) (l : list A) ys :
  map_result f l = Ok ys ↔ Forall2 (λ x y, f x = Ok y) l ys.
Proof.
  split; [apply map_result_Forall2|].
  induction 1 as [|x y l ys Hx Hall IH]; [done|].
  simpl. by rewrite Hx, IH.
Qed.

Lemma ingest_import_folder_raises s e :
  ingest_import_folder s = Raise e
  ↔ map_result (parse_station_csv) (sorted_files (importer s)) = Raise e
    ∨ ∃ parsed,
        map_result (parse_station_csv) (sorted_files (importer s))
        = Ok parsed
        ∧ align_met (combine_met (met_parts_of parsed)) = Raise e.
Proof.
  unfold ingest_import_folder.
  destruct (sorted_files (importer s)) as [|f files] eqn:Hfiles.
  - split; [done|]. intros [?|(parsed & [= <-] & Halign)]; [done|]. by vm_compute in Halign.
  - destruct (map_result _ (f :: files)) as [parsed|e'] eqn:Hparsed; cbn [bind].
    + destruct (align_met (combine_met (met_parts_of parsed))) as [met|e'] eqn:Halign;
        cbn [bind].
      * destruct (reconcile _ _). split; [done|].
        intros [?|(parsed' & [= <-] & ?)]; congruence.
      * split.
        -- intros [= ->]. right. by exists parsed.
        -- intros [?|(parsed' & [= <-] & ?)]; congruence.
    + split.
      * intros [= ->]. by left.
      * intros [?|(parsed' & ? & _)]; congruence.
Qed.

(** X18: a run fails in two cases only.  Either a file of the intake cannot
    be parsed, and the error is that of the first such file in the order of
    the file names; or every file is parsed and the minute alignment of
    their meteorological rows fails.  A failure of the snow import never
    makes the run fail. *)
Theorem main_raises_iff (s : Store) (e : Error) :
  main s = Raise e
  ↔ (∃ before f after,
       sorted_files (importer s) = before ++ f :: after
       ∧ Forall (λ g, ∃ p, parse_station_csv g = Ok p) before
       ∧ parse_station_csv f = Raise e)
    ∨ (∃ parsed,
         Forall2 (λ f p, parse_station_csv f = Ok p)
                 (sorted_files (importer s)) parsed
         ∧ align_met (combine_met (met_parts_of parsed)) = Raise e).
Proof.
  rewrite <-map_result_Raise_iff.
  assert (Hmain : main s = Raise e
                  ↔ ingest_import_folder s = Raise e).
  { unfold main.
    destruct (ingest_import_folder s) as [ingested|e']; cbn [bind];
      [|split; by intros [= ->]].
    by destruct (generate_monthly_json _). }
  rewrite Hmain, ingest_import_folder_raises.
  split; (intros [?|(parsed & Hparsed & ?)]; [by left|]; right; exists parsed;
          split; [by apply map_result_Ok_iff | done]).
Qed.

End failing.

(** ** The archive stays by the minute *)

Section archive_minutes.
Context {R : Runtime}.

Lemma align_rain_minutes rain2 x :
  x ∈ align_rain rain2 → x.1 `mod` NS_PER_MINUTE = 0.
Proof.
  intros Hx.
  assert (x ∈ group fst x.1 (align_rain rain2)) as H by (by apply group_elem_of).
  rewrite align_rain_group in H. case_decide as Hk; [|by apply elem_of_nil in H].
  apply list_elem_of_fmap in Hk as (r & -> & _). apply floor_min_bounds.
Qed.

Lemma merge_streams_minutes met rain2 r :
  (∀ x, x ∈ rain2 → x.1 `mod` NS_PER_MINUTE = 0) →
  r ∈ merge_streams met rain2 → Time r `mod` NS_PER_MINUTE = 0.
Proof.
  intros Hrain. rewrite merge_streams_outer_join, sort_values_perm. unfold outer_join.
  rewrite elem_of_app, list_elem_of_fmap. intros [Hr|(x & -> & Hx)].
  - apply list_elem_of_In, in_flat_map in Hr as (m & _ & Hr). apply list_elem_of_In in Hr.
    assert (Time r = met_Time_key m) as ->; [|apply floor_min_bounds].
    destruct (group fst (met_Time_key m) rain2) as [|x g].
    + by apply list_elem_of_singleton in Hr as ->.
    + by apply list_elem_of_fmap in Hr as (y & -> & _).
  - simpl. apply Hrain. by apply list_elem_of_filter in Hx as [_ ?].
Qed.

(** X19: an import keeps the archive by the minute.  If the archive holds
    strictly ascending whole-minute times before the import, it does after
    it; no time of the old archive is lost; and the two reported counts
    account for the size of the new archive: old rows plus imported rows
    minus removed duplicates. *)
Theorem ingest_keeps_archive_by_the_minute (s s' : Store) (rep : MergeReport * Bundle) :
  by_the_minute (load_master s) →
  ingest_import_folder s = Ok (s', rep) →
  by_the_minute (load_master s')
  ∧ (∀ t, t ∈ map Time (load_master s) → t ∈ map Time (load_master s'))
  ∧ Z.of_nat (length (load_master s'))
    = Z.of_nat (length (load_master s)) + Z.of_nat (imported_rows rep.1)
      - dedup_removed rep.1.
Proof.
  intros [Hsorted Hminutes] Hrun. unfold ingest_import_folder in Hrun.
  destruct (sorted_files (importer s)) as [|f files] eqn:Hfiles.
  { injection Hrun as <- <-. simpl. split; [done|]. split; [done | lia]. }
  destruct (map_result _ (f :: files)) as [parsed|] eqn:Hparsed; [|done]. cbn [bind] in Hrun.
  destruct (align_met _) as [met|] eqn:Halign; [|done]. cbn [bind] in Hrun.
  set (merged := merge_streams met (align_rain (combine_rain (rain_parts_of parsed)))) in *.
  pose proof (reconcile_archive (load_master s) merged) as Harchive.
  pose proof (reconcile_removed (load_master s) merged) as Hremoved.
  assert (Himported : imported_rows (reconcile (load_master s) merged).2 = length merged)
    by done.
  destruct (reconcile (load_master s) merged) as [master2 report]. simpl in *.
  injection Hrun as <- <-. simpl.
  set (kept := drop_duplicates_last Time (sort_values Time (load_master s ++ merged))) in *.
  assert (Htimes : map Time master2 = map Time kept)
    by (rewrite Harchive; apply ffill_from_times).
  assert (Hstrict : StronglySorted Z.lt (map Time master2)).
  { rewrite Htimes. apply (proj1 (strictly_sorted_keys Time _)), kept_rows_strict. }
  assert (Hsaved : sort_values Time master2 = master2).
  { apply sort_values_strict_id. by apply (proj2 (strictly_sorted_keys Time _)). }
  unfold load_master at 1 2 3. simpl. rewrite Hsaved.
  split; [split; [done|]|split].
  - apply Forall_forall. intros r Hr.
    assert (Time r ∈ map Time (load_master s ++ merged)) as Ht.
    { apply kept_rows_times. fold kept. rewrite <-Htimes. by apply list_elem_of_fmap_2. }
    rewrite map_app, elem_of_app in Ht. destruct Ht as [Ht|Ht].
    + apply list_elem_of_fmap in Ht as (r' & -> & Hr').
      rewrite Forall_forall in Hminutes. by apply Hminutes.
    + apply list_elem_of_fmap in Ht as (r' & -> & Hr').
      eapply merge_streams_minutes; [|exact Hr']. intros x. apply align_rain_minutes.
  - intros t Ht. rewrite Htimes. apply kept_rows_times.
    rewrite map_app, elem_of_app. by left.
  - change (load_master (archive_intake (save_master master2 s)))
      with (sort_values Time master2).
    rewrite Hsaved, Hremoved, Himported. lia.
Qed.

End archive_minutes.

Section archive_minutes_examples.
#[local] Existing Instance reference.

Lemma ingest_keeps_archive_by_the_minute_witness :
  by_the_minute (load_master demo_intake_store)
  ∧ ∃ s' rep,
      ingest_import_folder demo_intake_store = Ok (s', rep)
      ∧ by_the_minute (load_master s').
Proof.
  assert (Hold : by_the_minute (load_master demo_intake_store)).
  { split; [|by repeat constructor].
    apply (proj1 (strictly_sorted_keys Time _)). by repeat constructor. }
  split; [exact Hold|].
  destruct (ingest_import_folder demo_intake_store)
    as [[s' rep]|e] eqn:Hrun.
  - exists s', rep. split; [done|].
    exact (proj1 (ingest_keeps_archive_by_the_minute
                    demo_intake_store s' rep Hold Hrun)).
  - exfalso.
    assert (H : (match ingest_import_folder
                         demo_intake_store with
                 | Ok _ => true
                 | Raise _ => false
                 end) = true) by (by vm_compute).
    by rewrite Hrun in H.
Defined.

End archive_minutes_examples.

(** ** The period of a batch *)

Section batch_period.
Context {R : Runtime}.

Lemma floor_mono (n a b : Z) : 0 < n → a ≤ b → a - a `mod` n ≤ b - b `mod` n.
Proof.
  intros Hn Hab. rewrite !Z.mod_eq by lia.
  replace (a - (a - n * (a `div` n))) with (n * (a `div` n)) by lia.
  replace (b - (b - n * (b `div` n))) with (n * (b `div` n)) by lia.
  apply Z.mul_le_mono_nonneg_l; [lia|]. by apply Z.div_le_mono.
Qed.

Lemma normalize_midnight t : normalize t `mod` NS_PER_DAY = 0.
Proof.
  unfold normalize. rewrite Zminus_mod, Zmod_mod, Z.sub_diag. done.
Qed.

Lemma first_before_last {A} (key : A → Z) (l : list A) r0 rest r1 :
  Sorted (λ a b, key a ≤ key b) l → l = r0 :: rest → last l = Some r1 → key r0 ≤ key r1.
Proof.
  intros Hs -> Hlast. apply Sorted_StronglySorted in Hs; [|intros ???; lia].
  apply StronglySorted_inv in Hs as [_ Hall].
  apply last_Some_elem_of, elem_of_cons in Hlast as [->|Hin]; [lia|].
  rewrite Forall_forall in Hall. by apply Hall.
Qed.

Lemma sorted_between {A} (key : A → Z) (l : list A) r0 rest r1 r :
  Sorted (λ a b, key a ≤ key b) l → l = r0 :: rest → last l = Some r1 → r ∈ l →
  key r0 ≤ key r ≤ key r1.
Proof.
  intros Hs -> Hlast Hr. apply Sorted_StronglySorted in Hs; [|intros ???; lia].
  split.
  - apply StronglySorted_inv in Hs as [_ Hall].
    apply elem_of_cons in Hr as [->|Hin]; [lia|].
    rewrite Forall_forall in Hall. by apply Hall.
  - apply last_Some in Hlast as [l' Hl']. rewrite Hl' in Hs, Hr.
    apply StronglySorted_app in Hs as (Hlt & _ & _).
    apply elem_of_app in Hr as [Hr | Hr]; [|apply list_elem_of_singleton in Hr as ->; lia].
    apply Hlt; [done | by left].
Qed.

(** X20: what an import reports as its period.  With an empty intake it
    reports none, imports no row and leaves the store as it is.  Otherwise
    it reports a period exactly when the batch, the merged frame of the
    intake, has a row: the period runs from the day of the batch's first
    reading to the day of its last, which are the earliest and the latest
    reading of the batch, both days at midnight and in this order; the
    imported rows are the rows of the batch.  A batch without rows is
    reported as unknown. *)
Theorem ingest_import_folder_bundle (s s' : Store) (rep : MergeReport) (b : Bundle) :
  ingest_import_folder s = Ok (s', (rep, b)) →
  match b with
  | NoBundle => importer s = [] ∧ s' = s ∧ imported_rows rep = 0%nat
  | UnknownBundle =>
      importer s ≠ [] ∧ import_batch s = Ok [] ∧ imported_rows rep = 0%nat
  | Period t0 t1 =>
      importer s ≠ []
      ∧ ∃ r0 rest r1,
          import_batch s = Ok (r0 :: rest)
          ∧ last (r0 :: rest) = Some r1
          ∧ imported_rows rep = length (r0 :: rest)
          ∧ t0 = normalize (Time r0)
          ∧ t1 = normalize (Time r1)
          ∧ (∀ r, r ∈ r0 :: rest → Time r0 ≤ Time r ≤ Time r1)
          ∧ t0 ≤ t1 ∧ t0 `mod` NS_PER_DAY = 0 ∧ t1 `mod` NS_PER_DAY = 0
  end.
Proof.
  unfold ingest_import_folder, import_batch. intros Hrun.
  destruct (sorted_files (importer s)) as [|f files] eqn:Hfiles.
  { injection Hrun as <- <- <-. split; [|done].
    apply Permutation_nil_r. by rewrite <-Hfiles, sorted_files_perm. }
  assert (Hne : importer s ≠ []).
  { intros Hnil. by rewrite Hnil in Hfiles. }
  destruct (map_result _ (f :: files)) as [parsed|] eqn:Hparsed; [|done].
  cbn [bind] in Hrun |- *.
  destruct (align_met _) as [met|] eqn:Halign; [|done]. cbn [bind] in Hrun |- *.
  set (merged := merge_streams met (align_rain (combine_rain (rain_parts_of parsed)))) in *.
  assert (Himported : imported_rows (reconcile (load_master s) merged).2 = length merged)
    by done.
  assert (Hsorted : Sorted (λ a b, Time a ≤ Time b) merged)
    by (unfold merged; rewrite merge_streams_outer_join; apply sort_values_sorted).
  destruct (reconcile (load_master s) merged) as [master2 report]. simpl in Himported.
  destruct merged as [|r0 rest] eqn:Hmerged.
  - injection Hrun as <- <- <-. by split.
  - destruct (last (r0 :: rest)) as [r1|] eqn:Hlast.
    + injection Hrun as <- <- <-. split; [done|].
      exists r0, rest, r1. split; [done|]. split; [done|]. split; [done|].
      split; [done|]. split; [done|].
      split; [intros r Hr; by eapply (sorted_between Time)|].
      split; [|split; apply normalize_midnight].
      apply floor_mono; [done|]. by eapply (first_before_last Time).
    + by apply last_None in Hlast.
Qed.

End batch_period.

Section batch_period_examples.
#[local] Existing Instance reference.

Lemma ingest_import_folder_bundle_witness :
  ∃ s' rep t0 t1,
    ingest_import_folder demo_intake_store
    = Ok (s', (rep, Period t0 t1))
    ∧ t0 ≤ t1.
Proof.
  destruct (ingest_import_folder demo_intake_store)
    as [[s' [rep b]]|e] eqn:Hrun.
  - pose proof (ingest_import_folder_bundle
                  demo_intake_store s' rep b Hrun) as H.
    destruct b as [| |t0 t1].
    + exfalso. by destruct H as [H _].
    + exfalso. destruct H as [_ H].
      assert (H' : (match ingest_import_folder
                            demo_intake_store with
                    | Ok (_, (rep, _)) => imported_rows rep
                    | Raise _ => 1%nat
                    end) ≠ 0%nat) by (by vm_compute).
      by rewrite Hrun in H'.
    + exists s', rep, t0, t1. split; [done|].
      by destruct H as (_ & r0 & rest & r1 & _ & _ & _ & _ & _ & _ & ? & _).
  - exfalso.
    assert (H : (match ingest_import_folder
                         demo_intake_store with
                 | Ok _ => true
                 | Raise _ => false
                 end) = true) by (by vm_compute).
    by rewrite Hrun in H.
Defined.

End batch_period_examples.

(** ** What a completed run leaves behind *)

Section completed.
Context {R : Runtime}.


End completed.

Section completed_examples.
#[local] Existing Instance reference.


End completed_examples.

(** ** The snow editor *)

Section snow_editor.
Context {R : Runtime}.

Local Open Scope string_scope.

Lemma string_app_cons c (s t : string) : String c s ++ t = String c (s ++ t).
Proof. done. Qed.

Lemma string_rev_onto_twice s a b :
  string_rev_onto (string_rev_onto s a) b = string_rev_onto a (s ++ b).
Proof.
  revert a b. induction s as [|c s IH]; intros a b; [done|].
  rewrite string_app_cons. simpl. by rewrite IH.
Qed.

Lemma string_app_nil_r (s : string) : s ++ "" = s.
Proof. induction s as [|c s IH]; [done|]. by rewrite string_app_cons, IH. Qed.

Lemma string_rev_involutive s : string_rev_onto (string_rev_onto s "") "" = s.
Proof. rewrite string_rev_onto_twice. simpl. apply string_app_nil_r. Qed.

Lemma string_rev_onto_app s t acc :
  string_rev_onto (s ++ t) acc = string_rev_onto t (string_rev_onto s acc).
Proof.
  revert acc. induction s as [|c s IH]; intros acc; [done|].
  rewrite string_app_cons. simpl. by rewrite IH.
Qed.

Lemma string_app_assoc (r s t : string) : (r ++ s) ++ t = r ++ (s ++ t).
Proof. induction r as [|c r IH]; [done|]. by rewrite !string_app_cons, IH. Qed.

Lemma string_rev_onto_acc s acc : string_rev_onto s acc = string_rev_onto s "" ++ acc.
Proof.
  revert acc. induction s as [|c s IH]; intros acc; [done|]. simpl.
  rewrite (IH (String c acc)), (IH (String c "")).
  by rewrite string_app_assoc.
Qed.

Lemma lstrip_head s :
  lstrip s = "" ∨ ∃ c r, lstrip s = String c r ∧ is_space c = false.
Proof.
  induction s as [|c s IH]; [by left|]. simpl.
  destruct (is_space c) eqn:E; [done|]. right. by exists c, s.
Qed.

Lemma lstrip_fixed c r : is_space c = false → lstrip (String c r) = String c r.
Proof. intros E. simpl. by rewrite E. Qed.

Lemma lstrip_idemp s : lstrip (lstrip s) = lstrip s.
Proof.
  destruct (lstrip_head s) as [->|(c & r & -> & E)]; [done|]. by apply lstrip_fixed.
Qed.

Lemma lstrip_app s t :
  lstrip (s ++ t) = match lstrip s with "" => lstrip t | String c r => String c r ++ t end.
Proof.
  induction s as [|c s IH]; [done|]. rewrite string_app_cons. simpl.
  by destruct (is_space c).
Qed.

(** Blanks are taken off the end without touching the start. *)
Lemma rstrip_head c s :
  is_space c = false →
  ∃ r, string_rev_onto (lstrip (string_rev_onto (String c s) "")) "" = String c r.
Proof.
  intros E. simpl. rewrite (string_rev_onto_acc s (String c "")), lstrip_app.
  destruct (lstrip (string_rev_onto s "")) as [|c' r] eqn:Hr.
  - rewrite lstrip_fixed by done. by exists "".
  - rewrite string_rev_onto_app. simpl. by eexists.
Qed.

Lemma ascii_strip_idemp s : ascii_strip (ascii_strip s) = ascii_strip s.
Proof.
  unfold ascii_strip.
  assert (Hl : lstrip (string_rev_onto (lstrip (string_rev_onto (lstrip s) "")) "")
               = string_rev_onto (lstrip (string_rev_onto (lstrip s) "")) "").
  { destruct (lstrip_head s) as [->|(c & r & -> & E)]; [done|].
    destruct (rstrip_head c r E) as [r' ->]. by apply lstrip_fixed. }
  by rewrite Hl, string_rev_involutive, lstrip_idemp.
Qed.

Lemma trimmed_insert d v data :
  d ≠ "" → strip d = d → strip v = v → trimmed data → trimmed (<[d := v]> data).
Proof.
  intros Hd Hsd Hsv Hdata d' v'. rewrite lookup_insert_Some.
  intros [[<- <-]|[_ Hlookup]]; [done | by apply Hdata].
Qed.

Lemma read_rows_trimmed rows data :
  (∀ s, strip (strip s) = strip s) →
  trimmed data →
  trimmed (foldl (λ data row,
                    let d := strip (default "" (row_Date row)) in
                    let v := strip (default "" (row_Snow_cm row)) in
                    if bool_decide (d = "") then data else <[d := v]> data) data rows).
Proof.
  intros Hidem. revert data. induction rows as [|row rows IH]; intros data Hdata; [done|].
  simpl. apply IH. case_bool_decide as Hd; [done|].
  apply trimmed_insert; [done | apply Hidem | apply Hidem | done].
Qed.

Lemma written_keys (data : gmap string string) d :
  d ∈ sort_by String.leb (map fst (map_to_list data)) ↔ is_Some (data !! d).
Proof.
  rewrite sort_by_perm, list_elem_of_fmap. split.
  - intros ([d' v] & -> & Hin%elem_of_map_to_list). by exists v.
  - intros [v Hv]. exists (d, v). split; [done|]. by apply elem_of_map_to_list.
Qed.

Lemma insert_all_lookup (g : string → string) (ks : list string) (acc : gmap string string) k :
  foldl (λ acc d, <[d := g d]> acc) acc ks !! k
  = if decide (k ∈ ks) then Some (g k) else acc !! k.
Proof.
  revert acc. induction ks as [|d ks IH]; intros acc; [done|]. simpl. rewrite IH.
  destruct (decide (k ∈ ks)) as [Hin|Hout].
  - rewrite decide_True; [done | by right].
  - destruct (decide (k = d)) as [->|Hne].
    + rewrite decide_True by (by left). apply lookup_insert_eq.
    + rewrite decide_False by (by intros [?|?]%elem_of_cons).
      by apply lookup_insert_ne.
Qed.

Lemma read_written_rows (data acc : gmap string string) (ks : list string) :
  trimmed data → (∀ d, d ∈ ks → is_Some (data !! d)) →
  foldl (λ data row,
           let d := strip (default "" (row_Date row)) in
           let v := strip (default "" (row_Snow_cm row)) in
           if bool_decide (d = "") then data else <[d := v]> data)
        acc
        (map (λ d, {| row_Date := Some d; row_Snow_cm := Some (default "" (data !! d)) |}) ks)
  = foldl (λ acc d, <[d := default "" (data !! d)]> acc) acc ks.
Proof.
  intros Hdata. revert acc. induction ks as [|d ks IH]; intros acc Hks; [done|].
  simpl. destruct (Hks d) as [v Hv]; [by left|].
  destruct (Hdata d v Hv) as (Hd & Hsd & Hsv).
  rewrite Hv. simpl. rewrite Hsd, Hsv, bool_decide_eq_false_2 by done.
  apply IH. intros; apply Hks; by right.
Qed.

(** X22: the editor reads back what it writes.  [str.strip] leaves a
    stripped text as it is; so the dictionary read from any file has no
    empty date and no date or depth that [str.strip] would change; and
    writing such a dictionary and reading the file again gives the same
    dictionary, so that a pass of the editor only changes the entry of the
    date that is entered. *)
Theorem write_all_read_back :
  (∀ s, strip (strip s) = strip s) →
  (∀ file, trimmed (read_existing file))
  ∧ (∀ data, trimmed data → read_existing (Some (write_all data)) = data)
  ∧ (∀ file, read_existing (Some (write_all (read_existing file))) = read_existing file).
Proof.
  intros Hidem.
  assert (Hread : ∀ file, trimmed (read_existing file)).
  { intros [rows|]; simpl; [|by intros d v ?].
    apply read_rows_trimmed; [done|]. by intros d v ?. }
  assert (Hback : ∀ data, trimmed data → read_existing (Some (write_all data)) = data).
  { intros data Hdata. unfold read_existing, write_all.
    rewrite read_written_rows by (done || by intros d ?%written_keys).
    apply map_eq. intros d. rewrite insert_all_lookup.
    destruct (decide (d ∈ _)) as [[v Hv]%written_keys|Hout].
    - by rewrite Hv.
    - rewrite lookup_empty. symmetry. apply eq_None_not_Some. by rewrite <-written_keys. }
  split; [done|]. split; [done|]. intros file. apply Hback, Hread.
Qed.

(** X23: the file the editor writes has one record for every date of the
    dictionary and no other, in ascending order of the date text, each
    record with the date's depth. *)
Theorem write_all_sorted (data : gmap string string) :
  let dates := omap row_Date (write_all data) in
  Sorted (λ a b, String.leb a b = true) dates
  ∧ NoDup dates
  ∧ (∀ d, d ∈ dates ↔ is_Some (data !! d))
  ∧ ∀ row, row ∈ write_all data →
      ∃ d v, row = {| row_Date := Some d; row_Snow_cm := Some v |} ∧ data !! d = Some v.
Proof.
  intros dates.
  assert (Hdates : dates = sort_by String.leb (map fst (map_to_list data))).
  { unfold dates, write_all. generalize (sort_by String.leb (map fst (map_to_list data))).
    intros ks. induction ks as [|k ks IH]; [done|]. cbn. f_equal. exact IH. }
  rewrite Hdates. split; [|split; [|split]].
  - apply sort_by_sorted. intros a b Hab.
    destruct (String.leb_total a b) as [H|H]; [congruence | done].
  - rewrite sort_by_perm. apply NoDup_fst_map_to_list.
  - apply written_keys.
  - intros row (d & -> & [v Hv]%written_keys)%list_elem_of_fmap.
    exists d, v. by rewrite Hv.
Qed.

Local Close Scope string_scope.

End snow_editor.

Section snow_editor_examples.
#[local] Existing Instance reference.

Lemma write_all_read_back_witness :
  (∀ s, strip (strip s) = strip s)
  ∧ read_existing (Some (write_all (read_existing (Some demo_sno_rows))))
    = read_existing (Some demo_sno_rows).
Proof.
  split; [exact ascii_strip_idemp|].
  exact (proj2 (proj2 (write_all_read_back ascii_strip_idemp)) (Some demo_sno_rows)).
Defined.

End snow_editor_examples.

(** ** Rain through alignment and merge *)

Section rain_through.
Context {R : Runtime}.

Lemma sum_no_indicator (k0 : Z) (a : Qc) (ks : list Z) :
  k0 ∉ ks →
  foldr (λ k acc, (if decide (k0 = k) then a else 0) + acc)%Qc 0%Qc ks = 0%Qc.
Proof.
  induction ks as [|k ks IH]; intros Hk; [done|]. simpl.
  apply not_elem_of_cons in Hk as [Hne Hk]. rewrite decide_False by done.
  rewrite IH by done. ring.
Qed.

(** The rows under a set of distinct keys and the rows under no key of the
    set add up to all rows. *)
Lemma total_over_keys (l : list (Timestamp * cell)) (ks : list Z) :
  NoDup ks →
  (foldr (λ k acc, total_rain (group fst k l) + acc)%Qc 0%Qc ks
   + total_rain (filter (λ r, r.1 ∉ ks) l))%Qc
  = total_rain l.
Proof.
  intros Hnd. induction l as [|r l IH].
  - unfold total_rain. simpl.
    assert (foldr (λ (_ : Z) acc, 0 + acc)%Qc 0%Qc ks = 0%Qc) as ->; [|ring].
    clear. induction ks as [|k ks IH]; simpl; [done|]. rewrite IH. ring.
  - set (a := default 0%Qc r.2).
    assert (Hhead : total_rain (r :: l) = (a + total_rain l)%Qc).
    { unfold total_rain, a. simpl. destruct r.2; simpl; ring. }
    rewrite (sum_ext _ (λ k, (if decide (r.1 = k) then a else 0)
                             + total_rain (group fst k l))%Qc).
    2:{ intros k. rewrite group_cons. case_decide; [|ring].
        unfold total_rain, a. simpl. destruct r.2; simpl; ring. }
    rewrite sum_pointwise, filter_cons, Hhead, <-IH.
    destruct (decide (r.1 ∉ ks)) as [Hout|Hin].
    + rewrite sum_no_indicator by done.
      assert (total_rain (r :: filter (λ r, r.1 ∉ ks) l)
              = (a + total_rain (filter (λ r, r.1 ∉ ks) l))%Qc) as ->; [|ring].
      unfold total_rain, a. simpl. destruct r.2; simpl; ring.
    + rewrite sum_indicator; [ring | done | by apply dec_stable].
Qed.

Lemma joined_rows_rain (met : list MetRow) (rain2 : list (Timestamp * cell)) :
  Series.sum (map rain_mm
    (flat_map (λ m,
       match group fst (met_Time_key m) rain2 with
       | [] => [reading_of (met_Time_key m) (Some m) None]
       | rs => map (λ r, reading_of (met_Time_key m) (Some m) r.2) rs
       end) met))
  = foldr (λ k acc, total_rain (group fst k rain2) + acc)%Qc 0%Qc (map met_Time_key met).
Proof.
  induction met as [|m met IH]; [done|].
  cbn [flat_map]. rewrite map_app, sum_app_cells, IH. simpl. f_equal.
  destruct (group fst (met_Time_key m) rain2) as [|x g]; [done|].
  unfold total_rain. f_equal.
  assert (H : ∀ rs : list (Timestamp * cell),
            map rain_mm (map (λ r, reading_of (met_Time_key m) (Some m) r.2) rs)
            = map snd rs).
  { intros rs. induction rs as [|r rs IHrs]; [done|]. simpl. by f_equal. }
  exact (H (x :: g)).
Qed.

Lemma merge_streams_rain (met : list MetRow) (rain2 : list (Timestamp * cell)) :
  NoDup (map met_Time_key met) →
  Series.sum (map rain_mm (merge_streams met rain2)) = total_rain rain2.
Proof.
  intros Hnd. rewrite merge_streams_outer_join.
  rewrite (sum_perm_cells _ (map rain_mm (outer_join met rain2)))
    by (apply fmap_Permutation, sort_values_perm).
  unfold outer_join. rewrite map_app, sum_app_cells, joined_rows_rain, map_map. simpl.
  by apply total_over_keys.
Qed.

Lemma align_met_strict (frame : MetFrame) (met : list MetRow) :
  align_met frame = Ok met → StronglySorted Z.lt (map met_Time_key met).
Proof.
  rewrite align_met_unfold. destruct (wind_usable frame).
  - destruct (map_result _ _) as [ys|] eqn:Hmap; [|done]. simpl. intros [= <-].
    apply map_result_Forall2, Forall2_fmap_l in Hmap.
    rewrite merge_left_keys; [apply last_rows_strict|].
    intros k. destruct (gust_rows_group frame _ ys k Hmap) as [_ ->].
    rewrite group_keys_once. case_decide; simpl; [destruct (idxmax _ _); simpl; lia | lia].
  - intros [= <-]. apply last_rows_strict.
Qed.

(** X24: no rain is lost or counted twice between the streams and the
    batch.  Whenever the meteorological stream is aligned, the rain column
    of the merged batch adds up to what the rain rows add up to, whether or
    not the two streams report the same minutes. *)
Theorem batch_conserves_rain (frame : MetFrame) (met : list MetRow)
    (rain2 : list (Timestamp * cell)) :
  align_met frame = Ok met →
  Series.sum (map rain_mm (merge_streams met (align_rain rain2))) = total_rain rain2.
Proof.
  intros Halign. rewrite merge_streams_rain.
  - destruct rain2 as [|r rain2]; [done|].
    unfold align_rain. set (l := r :: rain2).
    set (rows := sort_values rain_Time_key l).
    unfold total_rain at 1. rewrite map_map. simpl.
    rewrite (sum_of_minute_sums (λ k, map snd (group rain_Time_key k rows))).
    rewrite (sum_ext _ (λ k, total_rain (group rain_Time_key k l)))
      by (intros k; unfold total_rain; apply sum_perm_cells, Permutation_map;
          unfold rows; apply sort_values_group_perm).
    apply total_over_minutes.
    + rewrite <-(list_fmap_id (group_keys _ _)).
      apply (strictly_sorted_NoDup id), (proj2 (strictly_sorted_keys id _)).
      rewrite list_fmap_id. apply group_keys_strict.
    + intros x Hx. apply group_keys_elem. unfold rows.
      rewrite sort_values_perm. by apply list_elem_of_fmap_2.
  - apply strictly_ascending_NoDup. by eapply align_met_strict.
Qed.

End rain_through.

Section rain_through_examples.
#[local] Existing Instance reference.

Lemma batch_conserves_rain_witness :
  align_met gust_frame = Ok [met_row (hms 12 0 40) (qz 2) (qz 7) (qz 180)]
  ∧ Series.sum (map rain_mm
      (merge_streams [met_row (hms 12 0 40) (qz 2) (qz 7) (qz 180)]
         (align_rain [(hms 12 0 10, qz 2); (hms 12 0 50, qz 3); (hms 12 7 0, None)])))
    = total_rain [(hms 12 0 10, qz 2); (hms 12 0 50, qz 3); (hms 12 7 0, None)].
Proof.
  assert (H : align_met gust_frame = Ok [met_row (hms 12 0 40) (qz 2) (qz 7) (qz 180)])
    by (by vm_compute).
  split; [exact H|].
  exact (batch_conserves_rain gust_frame _ _ H).
Defined.

End rain_through_examples.
